(** * CrossProduct: the puzzle engine of the CrossProduct notebook

    A shallow embedding of [fill_row], [solutions], [solve], [well_formed]
    and [table_puzzle], with the arithmetic the notebook really performs:
    Python's unbounded integers, numpy's 64-bit integers, and IEEE 754
    binary64 floats for every [/] (the notebook tests divisibility with
    [(product / d).is_integer()] and divides the column products with
    [numpy.divide]).  Floats are the Standard Library's [spec_float], the
    executable specification of binary64 that the kernel's primitive floats
    are specified against.

    The rest of the notebook follows: [random_table] and [random_puzzles]
    over an explicit random source, [surround] and [pretty] over strings;
    and, of the Bike Code notebook, [Ed_number], [Ed_gap] and the printing
    of a [Month]. *)

From Stdlib Require Import String Ascii DecimalString.
From Stdlib Require Import ZArith List Bool Lia Permutation Sorted.
From Stdlib Require Import SpecFloat.
Import ListNotations.
Open Scope Z_scope.

(** ** Exceptions and results *)

(** The two exceptions the embedded operations can raise: a quotient (or an
    [int(c)]) too large for a float, and [int(nan)]. *)
Inductive exn : Type :=
| OverflowError
| ValueError.

Inductive result (A : Type) : Type :=
| Ok (a : A)
| Raise (e : exn).

Arguments Ok {A} a.
Arguments Raise {A} e.

Definition bind {A B : Type} (r : result A) (f : A -> result B) : result B :=
  match r with
  | Ok a => f a
  | Raise e => Raise e
  end.

Notation "x <- r ;; k" := (bind r (fun x => k))
  (at level 61, r at next level, right associativity).

(** ** IEEE 754 binary64 *)

Definition float : Type := spec_float.

Module Float64.

Definition prec : Z := 53.
Definition emax : Z := 1024.

(** Conversion of an integer to the nearest double (ties to even): C's
    cast, which numpy applies to an [int64] or [uint64] operand of [/]. *)
Definition of_int (z : Z) : float := binary_normalize prec emax z 0 false.

Definition div : float -> float -> float := SFdiv prec emax.

Definition one : float := of_int 1.

Definition eqb : float -> float -> bool := SFeqb.

(** [float.is_integer]: finite and without fractional part. *)
Definition is_integer (x : float) : bool :=
  match x with
  | S754_zero _ => true
  | S754_finite _ m e => (0 <=? e) || (Zpos m mod 2 ^ (- e) =? 0)
  | S754_infinity _ | S754_nan => false
  end.

(** Python's [a / b] on two [int]s: the exact quotient, correctly rounded
    once (CPython's [long_true_divide]), whatever the size of [a].  The
    result is infinite exactly when CPython raises [OverflowError]. *)
Definition int_true_divide (a b : Z) : float :=
  match a with
  | 0 => S754_zero (b <? 0)
  | _ =>
      let '(mz, ez, lz) := SFdiv_core_binary prec emax (Z.abs a) 0 (Z.abs b) 0 in
      binary_round_aux prec emax (xorb (a <? 0) (b <? 0)) mz ez lz
  end.

End Float64.

(** ** Numbers as the notebook meets them *)

(** A row product is a Python [int] when the caller writes the puzzle, and
    a [numpy.int64] when [table_puzzle] computes it with [numpy.prod]. *)
Inductive num : Type :=
| PyInt (z : Z)
| NpInt64 (z : Z).

Definition num_val (n : num) : Z :=
  match n with
  | PyInt z | NpInt64 z => z
  end.

(** [product == 1] *)
Definition eq_one (n : num) : bool := num_val n =? 1.

(** [product / d], for a digit [d]: correctly rounded on a Python [int]
    (or [OverflowError]); on a [numpy.int64] both operands are first cast
    to double. *)
Definition truediv (n : num) (d : Z) : result float :=
  match n with
  | PyInt z =>
      match Float64.int_true_divide z d with
      | S754_infinity _ => Raise OverflowError
      | q => Ok q
      end
  | NpInt64 z => Ok (Float64.div (Float64.of_int z) (Float64.of_int d))
  end.

(** [product // d], for a digit [d]: floor division, exact on both kinds. *)
Definition floordiv (n : num) (d : Z) : num :=
  match n with
  | PyInt z => PyInt (z / d)
  | NpInt64 z => NpInt64 (z / d)
  end.

(** ** Data types *)

Definition Digit : Type := Z.
Definition Row : Type := list Digit.
Definition Table : Type := list Row.

(** The column products: the list the caller passes (Python [int]s or
    [numpy.int64]s), or the float array [numpy.divide] returned one level
    up. *)
Inductive Products : Type :=
| IntList (cs : list Z)
| FloatArray (cs : list float).

Record Puzzle : Type := mkPuzzle {
  row_prods : list num;
  col_prods : Products
}.

Definition Row_eq_dec : forall r1 r2 : Row, {r1 = r2} + {r1 <> r2} :=
  list_eq_dec Z.eq_dec.

(** A Python [set] of rows is represented by the list of its elements
    without repetition. *)
Definition set_of (rows : list Row) : list Row := nodup Row_eq_dec rows.

(** The iteration order of a [set] is not specified by Python: a
    [SetOrder] is any way of listing the elements of a set. *)
Record SetOrder : Type := mkSetOrder {
  iter :> list Row -> list Row;
  iter_perm : forall rows, Permutation (iter rows) rows
}.

Definition insertion_order : SetOrder :=
  mkSetOrder (fun rows => rows) (fun rows => Permutation_refl rows).

Definition reverse_order : SetOrder :=
  mkSetOrder (fun rows => rev rows)
             (fun rows => Permutation_sym (Permutation_rev rows)).

(** ** Filling in one row *)

(** [range(1, 10)] *)
Definition range_1_10 : list Digit := [1; 2; 3; 4; 5; 6; 7; 8; 9].

(** A comprehension [x for d in ds for x in body d], where a clause may
    raise: the clauses are run in order and the first exception ends it. *)
Fixpoint comprehension {A : Type} (ds : list Digit)
    (body : Digit -> result (list A)) : result (list A) :=
  match ds with
  | [] => Ok []
  | d :: ds' =>
      xs <- body d ;;
      ys <- comprehension ds' body ;;
      Ok (xs ++ ys)
  end.

Fixpoint fill_row (product : num) (k : nat) : result (list Row) :=
  match k with
  | O => Ok (if eq_one product then [[]] else [])
  | S k' =>
      rows <- comprehension range_1_10 (fun d =>
                q <- truediv product d ;;
                if Float64.is_integer q
                then rests <- fill_row (floordiv product d) k' ;;
                     Ok (map (cons d) rests)
                else Ok []) ;;
      Ok (set_of rows)
  end.

(** ** Generators *)

(** What a generator does when it is run to its end: the values it yields,
    in order, and the exception that ended it, if one did. *)
Record Gen (A : Type) : Type := mkGen {
  yielded : list A;
  raised : option exn
}.

Arguments mkGen {A} yielded raised.
Arguments yielded {A} g.
Arguments raised {A} g.

Definition gen_return {A : Type} : Gen A := mkGen [] None.
Definition gen_yield {A : Type} (a : A) : Gen A := mkGen [a] None.
Definition gen_raise {A : Type} (e : exn) : Gen A := mkGen [] (Some e).

Definition gen_map {A B : Type} (f : A -> B) (g : Gen A) : Gen B :=
  mkGen (map f (yielded g)) (raised g).

(** [for x in xs: for y in body(x): yield y] *)
Fixpoint for_each {A B : Type} (xs : list A) (body : A -> Gen B) : Gen B :=
  match xs with
  | [] => gen_return
  | x :: xs' =>
      let g := body x in
      match raised g with
      | Some _ => g
      | None =>
          let g' := for_each xs' body in
          mkGen (yielded g ++ yielded g') (raised g')
      end
  end.

(** [next(S, None)]: the value resumed to, and the generator afterwards. *)
Definition next {A : Type} (g : Gen A) : result (option A) * Gen A :=
  match yielded g with
  | a :: rest => (Ok (Some a), mkGen rest (raised g))
  | [] =>
      match raised g with
      | Some e => (Raise e, gen_return)
      | None => (Ok None, gen_return)
      end
  end.

(** ** Solving a whole puzzle *)

Definition len (cs : Products) : nat :=
  match cs with
  | IntList cs => length cs
  | FloatArray cs => length cs
  end.

(** [all(c == 1 for c in col_prods)] *)
Definition all_one (cs : Products) : bool :=
  match cs with
  | IntList cs => forallb (fun c => c =? 1) cs
  | FloatArray cs => forallb (fun c => Float64.eqb c Float64.one) cs
  end.

(** [c == int(c)] on a float: [int] raises on an infinity or a nan. *)
Definition eq_int (c : float) : result bool :=
  match c with
  | S754_infinity _ => Raise OverflowError
  | S754_nan => Raise ValueError
  | _ => Ok (Float64.is_integer c)
  end.

(** [all(c == int(c) for c in col_prods)], stopping at the first [False]. *)
Fixpoint all_eq_int (cs : list float) : result bool :=
  match cs with
  | [] => Ok true
  | c :: cs' =>
      b <- eq_int c ;;
      if b then all_eq_int cs' else Ok false
  end.

Definition all_integral (cs : Products) : result bool :=
  match cs with
  | IntList _ => Ok true
  | FloatArray cs => all_eq_int cs
  end.

(** numpy keeps a list of integers as an [int64] or [uint64] array when
    they all fit, and as an array of Python objects otherwise. *)
Definition fits_c_integer (c : Z) : bool := (- 2 ^ 63 <=? c) && (c <? 2 ^ 64).

Fixpoint object_divide (cs : list Z) (row : Row) : result (list float) :=
  match cs, row with
  | c :: cs', d :: row' =>
      match Float64.int_true_divide c d with
      | S754_infinity _ => Raise OverflowError
      | q => qs <- object_divide cs' row' ;; Ok (q :: qs)
      end
  | _, _ => Ok []
  end.

(** [numpy.divide(col_prods, row1)] for a row as long as [col_prods]:
    elementwise true division.  On an integer array both operands are cast
    to double and divided as doubles; on an object array each quotient is
    Python's own [c / d]; a float array is divided as it is. *)
Definition divide (cs : Products) (row1 : Row) : result Products :=
  match cs with
  | FloatArray cs =>
      Ok (FloatArray (map (fun cd => Float64.div (fst cd) (Float64.of_int (snd cd)))
                          (combine cs row1)))
  | IntList cs =>
      if forallb fits_c_integer cs
      then Ok (FloatArray
                 (map (fun cd => Float64.div (Float64.of_int (fst cd))
                                             (Float64.of_int (snd cd)))
                      (combine cs row1)))
      else qs <- object_divide cs row1 ;; Ok (FloatArray qs)
  end.

Section Solver.

Variable order : SetOrder.

Fixpoint solutions_from (rows : list num) (cols : Products) : Gen Table :=
  match rows with
  | [] => if all_one cols then gen_yield [] else gen_return
  | r :: rows' =>
      match all_integral cols with
      | Raise e => gen_raise e
      | Ok false => gen_return
      | Ok true =>
          match fill_row r (len cols) with
          | Raise e => gen_raise e
          | Ok candidates =>
              for_each (order candidates) (fun row1 =>
                match divide cols row1 with
                | Raise e => gen_raise e
                | Ok cols' => gen_map (cons row1) (solutions_from rows' cols')
                end)
          end
      end
  end.

Definition solutions (puzzle : Puzzle) : Gen Table :=
  solutions_from (row_prods puzzle) (col_prods puzzle).

Definition solve (puzzle : Puzzle) : result (option Table) :=
  fst (next (solutions puzzle)).

Definition well_formed (puzzle : Puzzle) : result bool :=
  let S := solutions puzzle in
  let (first, S1) := next S in
  first <- first ;;
  second <- fst (next S1) ;;
  Ok (match first, second with
      | Some _, None => true
      | _, _ => false
      end).

End Solver.

(** ** Making puzzles from tables *)

(** 64-bit two's complement wrap-around, as [numpy.prod] multiplies. *)
Definition wrap64 (z : Z) : Z := (z + 2 ^ 63) mod 2 ^ 64 - 2 ^ 63.

(** [numpy.prod] of a non-empty sequence of integers, an [int64].  (Of an
    empty row it is the float [1.0]; such a row product is only ever
    compared with 1, and is kept as the integer 1 here.) *)
Definition prod (xs : list Z) : Z :=
  fold_left (fun acc x => wrap64 (acc * x)) xs 1.

(** [numpy.transpose] of a rectangular table: its columns *)
Definition transpose (table : Table) : list (list Z) :=
  match table with
  | [] => []
  | row :: _ => map (fun c => map (fun r => nth c r 0) table) (seq 0 (length row))
  end.

(** [table_puzzle(table)], for a rectangular table.  Of a row without a
    digit [numpy.prod] gives the float [1.0], not an [int64]: the search
    only compares it with 1 (in [fill_row], at [k = 0]), and it is kept
    as the integer 1 here; the theorems that depend on the kind of the
    row products leave such tables out. *)
Definition table_puzzle (table : Table) : Puzzle :=
  mkPuzzle (map (fun row => NpInt64 (prod row)) table)
           (IntList (map prod (transpose table))).

(** A puzzle whose products are all Python [int]s *)
Definition py_puzzle (rps cps : list Z) : Puzzle :=
  mkPuzzle (map PyInt rps) (IntList cps).

(** ** What the notebook says a solution is *)

Definition is_digit (d : Z) : bool := (1 <=? d) && (d <=? 9).

(** The mathematical product of a sequence of digits *)
Definition product_of (xs : list Z) : Z := fold_right Z.mul 1 xs.

(** "The product of the digits in row r must equal row_prods[r], for all r.
    The product of the digits in column c must equal col_prods[c], for all
    c."  One row per row product, each as long as the column products. *)
Definition satisfies (table : Table) (rps cps : list Z) : bool :=
  (length table =? length rps)%nat
  && forallb (fun row => (length row =? length cps)%nat && forallb is_digit row) table
  && forallb (fun rr => product_of (fst rr) =? snd rr) (combine table rps)
  && forallb (fun c => product_of (map (fun r => nth c r 0) table) =? nth c cps 0)
             (seq 0 (length cps)).

(** ** Auxiliary definitions of the proofs *)

(** The clause of [fill_row]'s comprehension for one first digit *)
Definition fill_clause (product : num) (k : nat) (d : Digit) : result (list Row) :=
  q <- truediv product d ;;
  if Float64.is_integer q
  then rests <- fill_row (floordiv product d) k ;; Ok (map (cons d) rests)
  else Ok [].

(** The body of [solutions]' outer loop, for one candidate first row *)
Definition with_first_row (order : SetOrder) (rows' : list num) (cols : Products)
    (row1 : Row) : Gen Table :=
  match divide cols row1 with
  | Raise e => gen_raise e
  | Ok cols' => gen_map (cons row1) (solutions_from order rows' cols')
  end.




(** Zero or a finite float: neither an infinity nor a nan *)
Definition finite (x : float) : Prop :=
  match x with
  | S754_zero _ | S754_finite _ _ _ => True
  | S754_infinity _ | S754_nan => False
  end.

(** Products that [fill_row] can divide without [OverflowError]: every
    [numpy.int64], and the Python integers below [2 ^ 1023] in size. *)
Definition fits_float (product : num) : Prop :=
  match product with
  | PyInt z => Z.abs z < 2 ^ 1023
  | NpInt64 _ => True
  end.

(** The mantissa after the first shift (by 0 or 1 bit) and rounding *)
Definition rounded (q : Z) (l : location) (shifted : bool) : Z :=
  let mrs := if shifted then shr_1 (shr_record_of_loc q l) else shr_record_of_loc q l in
  round_nearest_even (shr_m mrs) (loc_of_shr_record mrs).

(** The quotient of the division core for [c / d], its scale and its
    rounding, for [c] below [2 ^ 53] and a digit [d] *)
Record quotient_shape (c d q s n m : Z) : Prop := {
  qs_scale : 53 <= s + Zdigits2 c /\ Zdigits2 d <= s;
  qs_shift : 0 <= n <= 1;
  qs_euclid : c * 2 ^ s = d * q + (c * 2 ^ s) mod d;
  qs_mantissa : 2 ^ 52 <= m <= 2 ^ 53;
  qs_nearest : Z.abs (2 * (d * 2 ^ n) * m - 2 * (c * 2 ^ s)) <= d * 2 ^ n
}.

(** A float that is finite and not an integer *)
Definition fractional (y : float) : Prop :=
  exists m e, y = S754_finite false m e /\ Float64.is_integer y = false.

(** The column products that remain under a first row, and whether its
    digits divide them *)
Definition quotients (ns : list Z) (row : Row) : list Z :=
  map (fun nd => fst nd / snd nd) (combine ns row).

Definition divisible (ns : list Z) (row : Row) : bool :=
  forallb (fun nd => fst nd mod snd nd =? 0) (combine ns row).

(** Column products small enough for a double to hold them exactly *)
Definition small (ns : list Z) : Prop := Forall (fun n => 0 <= n < 2 ^ 53) ns.

(** The column products are the integers [ns]: as the caller's list, or as
    the array of their doubles. *)
Definition holds (cols : Products) (ns : list Z) : Prop :=
  cols = IntList ns \/ cols = FloatArray (map Float64.of_int ns).

(** A float left by the divisions: the double of a small integer, or a
    fraction *)
Definition stale (y : float) : Prop :=
  (exists n, 0 <= n < 2 ^ 53 /\ y = Float64.of_int n) \/ fractional y.

(** An array with a fraction in it: no table can come of it. *)
Definition dead (cols : Products) : Prop :=
  exists ys, cols = FloatArray ys /\ Forall stale ys /\ Exists fractional ys.

(** What [numpy.divide] leaves of a column product and a digit *)
Definition float_quotient (nd : Z * Z) : float :=
  Float64.div (Float64.of_int (fst nd)) (Float64.of_int (snd nd)).

(** A table whose rows all have the length of the first one *)
Definition rectangular (table : Table) : Prop :=
  Forall (fun row => length row = length (hd [] table)) table.

(** A table of digits *)
Definition digits_only (table : Table) : Prop :=
  Forall (Forall (fun d => 1 <= d <= 9)) table.

(** ** Inputs of the notebook and of the theorems *)

Definition riddler_puzzle : Puzzle :=
  py_puzzle [210; 144; 54; 135; 4; 49] [6615; 15552; 420].

Definition riddler_table : Table :=
  [[7; 6; 5]; [9; 8; 2]; [3; 9; 2]; [5; 9; 3]; [1; 4; 1]; [7; 1; 7]].


(** Seventeen nines, whose product is [9 ^ 17], one less than the product
    asked for below *)
Definition nines : Row := repeat 9 17.

Definition above_nines : Z := 9 ^ 17 + 1.

(** Nineteen rows of one seven, and the puzzle they solve *)
Definition sevens_table : Table := repeat [7] 19.

Definition sevens_puzzle : Puzzle := py_puzzle (repeat 7 19) [7 ^ 19].

(** Seventeen rows of one nine, and a puzzle they do not solve *)
Definition nines_table : Table := repeat [9] 17.

Definition nines_puzzle : Puzzle := py_puzzle (repeat 9 17) [above_nines].

(** One row that should multiply to [9 ^ 17 + 1], in seventeen columns of 9 *)
Definition one_row_puzzle : Puzzle := py_puzzle [above_nines] (repeat 9 17).

(** ** Random tables and puzzles *)

(** The random source: the digit [randint(1, 9)] returns at each of its
    calls, numbered from 0.  The state of the source is the number of calls
    made so far. *)
Definition Randint : Type := nat -> Digit.

(** [tuple(randint(1, 9) for c in range(ncols))], from call [n] on: the row
    and the state afterwards *)
Fixpoint random_row (randint : Randint) (ncols : nat) (n : nat) : Row * nat :=
  match ncols with
  | O => ([], n)
  | S ncols' =>
      let d := randint n in
      let (rest, n') := random_row randint ncols' (S n) in
      (d :: rest, n')
  end.

Fixpoint random_rows (randint : Randint) (nrows ncols : nat) (n : nat) : Table * nat :=
  match nrows with
  | O => ([], n)
  | S nrows' =>
      let (row, n1) := random_row randint ncols n in
      let (rows, n2) := random_rows randint nrows' ncols n1 in
      (row :: rows, n2)
  end.

(** [range] of a negative number is empty. *)
Definition random_table (randint : Randint) (nrows ncols : Z) (n : nat) : Table * nat :=
  random_rows randint (Z.to_nat nrows) (Z.to_nat ncols) n.

(** The comprehension of [random_puzzles]: a table is drawn, its puzzle
    made and tested, before the next table is drawn; an exception of
    [well_formed] ends it. *)
Fixpoint random_puzzles_loop (order : SetOrder) (randint : Randint)
    (ntables : nat) (nrows ncols : Z) (n : nat) : result (list Puzzle) :=
  match ntables with
  | O => Ok []
  | S ntables' =>
      let (table, n') := random_table randint nrows ncols n in
      let puzzle := table_puzzle table in
      keep <- well_formed order puzzle ;;
      rest <- random_puzzles_loop order randint ntables' nrows ncols n' ;;
      Ok (if keep then puzzle :: rest else rest)
  end.

Definition random_puzzles (order : SetOrder) (randint : Randint)
    (ntables nrows ncols : Z) (n : nat) : result (list Puzzle) :=
  random_puzzles_loop order randint (Z.to_nat ntables) nrows ncols n.

(** The tables [random_puzzles] draws, in order *)
Fixpoint random_tables (randint : Randint) (ntables : nat) (nrows ncols : Z)
    (n : nat) : list Table :=
  match ntables with
  | O => []
  | S ntables' =>
      let (table, n') := random_table randint nrows ncols n in
      table :: random_tables randint ntables' nrows ncols n'
  end.

(** The contract of [randint(1, 9)] *)
Definition draws_digits (randint : Randint) : Prop := forall n, 1 <= randint n <= 9.

(** A table is the only one that satisfies the puzzle made from it. *)
Definition only_solution (table : Table) : Prop :=
  forall table',
    satisfies table' (map product_of table) (map product_of (transpose table)) = true ->
    table' = table.
(** A random source for the examples: the digits 1 to 9, over and over *)
Definition counting_draws : Randint := fun n => 1 + Z.of_nat n mod 9.

(** ** Showing a puzzle *)

(** [str] of an integer: its decimal numeral, with [-] before a negative
    one *)
Definition str_int (z : Z) : string := NilEmpty.string_of_int (Z.to_int z).

(** What [surround] is given: integers and strings *)
Inductive item : Type :=
| Int (z : Z)
| Str (s : string).

Definition str (x : item) : string :=
  match x with
  | Int z => str_int z
  | Str s => s
  end.

(** [delim.join(strs)] *)
Definition join (delim : string) (strs : list string) : string :=
  String.concat delim strs.

Definition surround (items : list item) (delim : string) : string :=
  (delim ++ join delim (map str items) ++ delim)%string.

(** The default delimiter of [surround] *)
Definition bar : string := "|"%string.

Definition newline : string := String (ascii_of_nat 10) EmptyString.

(** How [pretty] can end: with an exception of the solver, or with the
    [TypeError] of an operation on a value of the wrong type. *)
Inductive pretty_exn : Type :=
| SolverError (e : exn)
| TypeError.

(** [table or solve(puzzle)]: [None] and the empty list are both false. *)
Definition table_or_solve (order : SetOrder) (puzzle : Puzzle)
    (table : option Table) : result (option Table) :=
  match table with
  | Some (row :: rows) => Ok (Some (row :: rows))
  | _ => solve order puzzle
  end.

(** [zip(table, row_prods)] *)
Definition zip {A B : Type} (xs : list A) (ys : list B) : list (A * B) := combine xs ys.

(** [pretty(puzzle, table)].  The column products must be a list:
    [col_prods + ['']] on a float array is an addition of numpy, which has
    none for strings.  Iterating over the [None] of an unsolved puzzle is a
    [TypeError] too. *)
Definition pretty (order : SetOrder) (puzzle : Puzzle) (table : option Table)
    : pretty_exn + string :=
  match table_or_solve order puzzle table with
  | Raise e => inl (SolverError e)
  | Ok table =>
      match col_prods puzzle with
      | FloatArray _ => inl TypeError
      | IntList cs =>
          let head := surround (map Int cs ++ [Str EmptyString]) bar in
          let dash := surround (repeat (Str "---"%string) (1 + length cs)) bar in
          match table with
          | None => inl TypeError
          | Some table =>
              let rest :=
                map (fun row_rp =>
                       surround (map Int (fst row_rp) ++
                                 [Str ("**" ++ str_int (num_val (snd row_rp)) ++ "**")%string])
                                bar)
                    (zip table (row_prods puzzle)) in
              inr (join newline (head :: dash :: rest))
          end
      end
  end.

(** The number of times a character occurs in a string *)
Fixpoint count_char (c : ascii) (s : string) : nat :=
  match s with
  | EmptyString => 0
  | String a s' => (if Ascii.eqb c a then 1 else 0) + count_char c s'
  end.

Definition bar_char : ascii := "|"%char.
Definition newline_char : ascii := ascii_of_nat 10.

(** The characters of a numeral *)
Definition numeral_char (c : ascii) : bool :=
  existsb (Ascii.eqb c) (list_ascii_of_string "-0123456789").

(** No item holds the character. *)
Definition free_of (c : ascii) (items : list item) : Prop :=
  Forall (fun x => count_char c (str x) = 0%nat) items.
(** A Markdown table of [nrows] rows under a header and a rule, each line
    of [ncols + 1] cells between bars *)
Definition markdown_table (ncols nrows : nat) (s : string) : Prop :=
  exists lines,
    s = join newline lines /\
    length lines = (2 + nrows)%nat /\
    Forall (fun line => count_char bar_char line = (ncols + 2)%nat /\
                        count_char newline_char line = 0%nat) lines.

(** The line of [pretty] for a row and its product *)
Definition row_line (row_rp : Row * num) : string :=
  surround (map Int (fst row_rp) ++
            [Str ("**" ++ str_int (num_val (snd row_rp)) ++ "**")%string]) bar.

(** * Bike Code: Eddington numbers and months *)

(** [enumerate(xs, start)] *)
Fixpoint enumerate {A : Type} (xs : list A) (start : Z) : list (Z * A) :=
  match xs with
  | [] => []
  | x :: xs' => (start, x) :: enumerate xs' (start + 1)
  end.

(** [max] of a sequence of integers: of an empty one it raises
    [ValueError]. *)
Definition max_of (es : list Z) : result Z :=
  match es with
  | [] => Raise ValueError
  | e :: es' => Ok (fold_left Z.max es' e)
  end.

Section Eddington.

(** The distances, with the comparisons the code makes on them: [d1 < d2]
    between two (by [sorted]), [d >= e] and [d > target] with an integer. *)
Variable D : Type.
Variable lt : D -> D -> bool.
Variable ge : D -> Z -> bool.
Variable gt : D -> Z -> bool.

(** [sorted(distances, reverse=True)]: Python's sort is stable and compares
    with [<] only; an element goes before the first one it is not less
    than. *)
Fixpoint insert_reverse (x : D) (ds : list D) : list D :=
  match ds with
  | [] => [x]
  | y :: ds' => if lt x y then y :: insert_reverse x ds' else x :: ds
  end.

Definition sorted_reverse (ds : list D) : list D := fold_right insert_reverse [] ds.

Definition Ed_number (distances : list D) : result Z :=
  let distances := sorted_reverse distances in
  max_of (map fst (filter (fun ed => ge (snd ed) (fst ed)) (enumerate distances 1))).

(** [sum(distances > target)] counts the distances above the target. *)
Definition Ed_gap (distances : list D) (target : Z) : Z :=
  target - Z.of_nat (length (filter (fun d => gt d target) distances)).

(** On how many days the distance was at least [e] *)
Definition days_of (e : Z) (distances : list D) : Z :=
  Z.of_nat (length (filter (fun d => ge d e) distances)).

(** The comparisons are those of an order without incomparable elements
    (as numbers are, a nan apart). *)
Record ordered : Prop := {
  less_asym : forall x y, lt x y = true -> lt y x = false;
  not_less_trans : forall x y z, lt x y = false -> lt y z = false -> lt x z = false;
  not_less_ge : forall x y e, lt x y = false -> ge y e = true -> ge x e = true;
  above_ge : forall x e, gt x e = true -> ge x e = true
}.

(** No element is less than a later one. *)
Definition descending (ds : list D) : Prop :=
  StronglySorted (fun x y => lt x y = false) ds.

(** The numbers [Ed_number] takes the maximum of *)
Definition candidates (ds : list D) : list Z :=
  map fst (filter (fun ed => ge (snd ed) (fst ed)) (enumerate ds 1)).

End Eddington.

Arguments less_asym {D lt ge gt} o x y _.
Arguments not_less_trans {D lt ge gt} o x y z _ _.
Arguments not_less_ge {D lt ge gt} o x y e _ _.
Arguments above_ge {D lt ge gt} o x e _.

(** [f'{z:02d}'] *)
Definition format_02d (z : Z) : string :=
  let s := str_int z in
  if (String.length s <? 2)%nat then ("0" ++ s)%string else s.

(** [Month.__str__], of the integer [12 * year + month] *)
Definition Month_str (self : Z) : string :=
  let year := (self - 1) / 12 in
  let month := if self mod 12 =? 0 then 12 else self mod 12 in
  (str_int year ++ "-" ++ format_02d month)%string.

(** The months of a year, as two digits *)
Definition two_digits : list string :=
  ["01"; "02"; "03"; "04"; "05"; "06"; "07"; "08"; "09"; "10"; "11"; "12"]%string.
(** Distances in whole units, for the examples *)
Definition whole_rides : list Z := [30; 3; 12; 4; 50; 4].

(** Tables can be told apart, and so counted in the output of a search. *)
Definition Table_eq_dec : forall t1 t2 : Table, {t1 = t2} + {t1 <> t2} :=
  list_eq_dec Row_eq_dec.

(** How many times [solutions] yields a table *)
Definition times_yielded (order : SetOrder) (puzzle : Puzzle) (table : Table) : nat :=
  count_occ Table_eq_dec (yielded (solutions order puzzle)) table.

(** * Properties *)

(** ** The notebook's own tests

    The assertions of the notebook's [test()], evaluated on the embedding
    (sets are compared as the lists of their elements in the order the
    comprehension produces them). *)

Example test_fill_row_1_0 : fill_row (PyInt 1) 0 = Ok [[]].
Proof. reflexivity. Qed.

Example test_fill_row_2_0 : fill_row (PyInt 2) 0 = Ok [].
Proof. reflexivity. Qed.

Example test_fill_row_9_1 : fill_row (PyInt 9) 1 = Ok [[9]].
Proof. vm_compute. reflexivity. Qed.

Example test_fill_row_10_1 : fill_row (PyInt 10) 1 = Ok [].
Proof. vm_compute. reflexivity. Qed.

Example test_fill_row_73_3 : fill_row (PyInt 73) 3 = Ok [].
Proof. vm_compute. reflexivity. Qed.

Example test_fill_row_210_3 :
  fill_row (PyInt 210) 3 =
  Ok [[5; 6; 7]; [5; 7; 6]; [6; 5; 7]; [6; 7; 5]; [7; 5; 6]; [7; 6; 5]].
Proof. vm_compute. reflexivity. Qed.

Example test_fill_row_729_3 : fill_row (PyInt 729) 3 = Ok [[9; 9; 9]].
Proof. vm_compute. reflexivity. Qed.

Example test_fill_row_729_4 :
  fill_row (PyInt 729) 4 =
  Ok [[1; 9; 9; 9]; [3; 3; 9; 9]; [3; 9; 3; 9]; [3; 9; 9; 3]; [9; 1; 9; 9];
      [9; 3; 3; 9]; [9; 3; 9; 3]; [9; 9; 1; 9]; [9; 9; 3; 3]; [9; 9; 9; 1]].
Proof. vm_compute. reflexivity. Qed.

Example test_solve_empty : solve insertion_order (py_puzzle [] []) = Ok (Some []).
Proof. reflexivity. Qed.

Example test_solve_no_rows_1 : solve insertion_order (py_puzzle [] [1]) = Ok (Some []).
Proof. reflexivity. Qed.

Example test_solve_no_rows_2 : solve insertion_order (py_puzzle [] [2]) = Ok None.
Proof. reflexivity. Qed.

Example test_solve_5 : solve insertion_order (py_puzzle [5] [5]) = Ok (Some [[5]]).
Proof. vm_compute. reflexivity. Qed.

Example test_solve_2_12 :
  solve insertion_order (py_puzzle [2; 12] [3; 8]) = Ok (Some [[1; 2]; [3; 4]]).
Proof. vm_compute. reflexivity. Qed.

Example test_solutions_multi :
  solutions insertion_order (py_puzzle [8; 8; 1] [8; 8; 1]) =
  mkGen [[[1; 8; 1]; [8; 1; 1]; [1; 1; 1]];
         [[2; 4; 1]; [4; 2; 1]; [1; 1; 1]];
         [[4; 2; 1]; [2; 4; 1]; [1; 1; 1]];
         [[8; 1; 1]; [1; 8; 1]; [1; 1; 1]]] None.
Proof. vm_compute. reflexivity. Qed.

Example test_solutions_unsolvable :
  solutions insertion_order (py_puzzle [8; 8; 1] [8; 8; 2]) = gen_return.
Proof. vm_compute. reflexivity. Qed.

Example test_table_puzzle :
  table_puzzle [[1; 2; 3]; [4; 5; 6]; [7; 8; 9]] =
  mkPuzzle [NpInt64 6; NpInt64 120; NpInt64 504] (IntList [28; 80; 162]).
Proof. reflexivity. Qed.

Example test_well_formed :
  well_formed insertion_order (py_puzzle [6; 120; 504] [28; 80; 162]) = Ok true.
Proof. vm_compute. reflexivity. Qed.

Example test_not_well_formed :
  well_formed insertion_order (py_puzzle [7; 7] [7; 7]) = Ok false.
Proof. vm_compute. reflexivity. Qed.

Example test_well_formed_7_rows :
  well_formed insertion_order
    (py_puzzle [64; 224; 189; 270; 405; 144; 105] [308700; 12960; 1119744]) = Ok true.
Proof. vm_compute. reflexivity. Qed.

(** ** Results and comprehensions *)

Lemma bind_Ok_inv (A B : Type) (r : result A) (f : A -> result B) (b : B) :
  bind r f = Ok b -> exists a, r = Ok a /\ f a = Ok b.
Proof.
  destruct r as [a | e]; simpl; intros H.
  - exists a; split; [reflexivity | exact H].
  - discriminate H.
Qed.

Lemma comprehension_Ok_inv (A : Type) (body : Digit -> result (list A)) :
  forall ds xs,
    comprehension ds body = Ok xs ->
    forall x, In x xs <->
              exists d ys, In d ds /\ body d = Ok ys /\ In x ys.
Proof.
  induction ds as [| d ds IH]; simpl; intros xs H x.
  - injection H as <-. split; [intros [] | intros (d & ys & [] & _)].
  - apply bind_Ok_inv in H as (ys & Hd & H).
    apply bind_Ok_inv in H as (zs & Hds & H).
    injection H as <-. rewrite in_app_iff, (IH zs Hds x). split.
    + intros [Hx | (d' & ys' & Hin & Hb & Hx)].
      * exists d, ys. auto.
      * exists d', ys'. auto.
    + intros (d' & ys' & [<- | Hin] & Hb & Hx).
      * left. rewrite Hd in Hb. injection Hb as <-. exact Hx.
      * right. exists d', ys'. auto.
Qed.

Lemma comprehension_Ok_each (A : Type) (body : Digit -> result (list A)) :
  forall ds xs,
    comprehension ds body = Ok xs ->
    forall d, In d ds -> exists ys, body d = Ok ys.
Proof.
  induction ds as [| d ds IH]; simpl; intros xs H d' Hin; [destruct Hin |].
  apply bind_Ok_inv in H as (ys & Hd & H).
  apply bind_Ok_inv in H as (zs & Hds & _).
  destruct Hin as [<- | Hin]; [exists ys; exact Hd | exact (IH zs Hds d' Hin)].
Qed.

Lemma comprehension_Ok_intro (A : Type) (body : Digit -> result (list A)) :
  forall ds,
    (forall d, In d ds -> exists ys, body d = Ok ys) ->
    exists xs, comprehension ds body = Ok xs.
Proof.
  induction ds as [| d ds IH]; simpl; intros H; [eexists; reflexivity |].
  destruct (H d (or_introl eq_refl)) as (ys & ->).
  destruct IH as (zs & ->); [intros d' Hd'; apply H; right; exact Hd' |].
  simpl. eexists; reflexivity.
Qed.

Lemma set_of_In (rows : list Row) (row : Row) :
  In row (set_of rows) <-> In row rows.
Proof. apply nodup_In. Qed.

(** ** The row enumerator *)

Lemma fill_row_S (product : num) (k : nat) :
  fill_row product (S k) =
  (rows <- comprehension range_1_10 (fill_clause product k) ;; Ok (set_of rows)).
Proof. reflexivity. Qed.

Lemma fill_row_In_inv (product : num) (k : nat) (rows : list Row) (row : Row) :
  fill_row product (S k) = Ok rows ->
  In row rows ->
  exists d q rests rest,
    In d range_1_10 /\ truediv product d = Ok q /\ Float64.is_integer q = true /\
    fill_row (floordiv product d) k = Ok rests /\ In rest rests /\ row = d :: rest.
Proof.
  rewrite fill_row_S. intros H Hin.
  apply bind_Ok_inv in H as (xs & Hc & H). injection H as <-.
  apply (proj1 (set_of_In _ _)) in Hin.
  apply (proj1 (comprehension_Ok_inv _ _ _ _ Hc _)) in Hin as (d & ys & Hd & Hb & Hin).
  unfold fill_clause in Hb.
  apply bind_Ok_inv in Hb as (q & Hq & Hb).
  destruct (Float64.is_integer q) eqn:Hi.
  - apply bind_Ok_inv in Hb as (rests & Hr & Hb). injection Hb as <-.
    apply in_map_iff in Hin as (rest & <- & Hin).
    exists d, q, rests, rest. auto 10.
  - injection Hb as <-. destruct Hin.
Qed.

Lemma fill_row_In_intro (product : num) (k : nat) (rows : list Row)
    (d : Digit) (q : float) :
  fill_row product (S k) = Ok rows ->
  In d range_1_10 ->
  truediv product d = Ok q ->
  Float64.is_integer q = true ->
  exists rests,
    fill_row (floordiv product d) k = Ok rests /\
    forall rest, In rest rests -> In (d :: rest) rows.
Proof.
  rewrite fill_row_S. intros H Hd Hq Hi.
  apply bind_Ok_inv in H as (xs & Hc & H). injection H as <-.
  destruct (comprehension_Ok_each _ _ _ _ Hc d Hd) as (ys & Hb).
  pose proof Hb as Hb'. unfold fill_clause in Hb'. rewrite Hq in Hb'. simpl in Hb'.
  rewrite Hi in Hb'.
  apply bind_Ok_inv in Hb' as (rests & Hr & Hb'). injection Hb' as <-.
  exists rests. split; [exact Hr |].
  intros rest Hin. apply set_of_In.
  apply (comprehension_Ok_inv _ _ _ _ Hc). exists d, (map (cons d) rests).
  split; [exact Hd |]. split; [exact Hb | apply in_map; exact Hin].
Qed.

Lemma fill_row_NoDup (product : num) (k : nat) (rows : list Row) :
  fill_row product k = Ok rows -> NoDup rows.
Proof.
  destruct k as [| k].
  - simpl. intros H. injection H as <-.
    destruct (eq_one product); repeat constructor. intros [].
  - rewrite fill_row_S. intros H.
    apply bind_Ok_inv in H as (xs & _ & H). injection H as <-.
    apply NoDup_nodup.
Qed.

Lemma fill_row_0_In (product : num) (rows : list Row) (row : Row) :
  fill_row product 0 = Ok rows -> In row rows -> row = [] /\ num_val product = 1.
Proof.
  simpl. intros H Hin. injection H as <-. unfold eq_one in Hin.
  destruct (num_val product =? 1) eqn:E; [| destruct Hin].
  destruct Hin as [<- | []]. split; [reflexivity | apply Z.eqb_eq; exact E].
Qed.

Lemma range_1_10_spec (d : Z) : In d range_1_10 <-> 1 <= d <= 9.
Proof.
  unfold range_1_10. simpl. split; [intuition lia |].
  intros H.
  assert (d = 1 \/ d = 2 \/ d = 3 \/ d = 4 \/ d = 5 \/ d = 6 \/ d = 7 \/ d = 8 \/ d = 9)
    by lia.
  intuition auto.
Qed.

(** Every row that [fill_row] returns has [k] entries, all digits. *)
Lemma fill_row_shape :
  forall k product rows row,
    fill_row product k = Ok rows -> In row rows ->
    length row = k /\ Forall (fun d => 1 <= d <= 9) row.
Proof.
  induction k as [| k IH]; intros product rows row H Hin.
  - destruct (fill_row_0_In _ _ _ H Hin) as [-> _]. split; [reflexivity | constructor].
  - destruct (fill_row_In_inv _ _ _ _ H Hin)
      as (d & q & rests & rest & Hd & _ & _ & Hr & Hrest & ->).
    destruct (IH _ _ _ Hr Hrest) as [Hlen Hdig].
    split; [simpl; congruence |].
    constructor; [apply range_1_10_spec; exact Hd | exact Hdig].
Qed.

(** X8: Whatever the product, a set returned by [fill_row product k] lists
    no row twice, and each of its rows has [k] entries, all of them digits
    from 1 to 9. *)
Theorem fill_row_yields_digit_rows :
  forall k product rows,
    fill_row product k = Ok rows ->
    NoDup rows /\
    forall row, In row rows -> length row = k /\ Forall (fun d => 1 <= d <= 9) row.
Proof.
  intros k product rows H. split.
  - exact (fill_row_NoDup product k rows H).
  - intros row Hin. exact (fill_row_shape k product rows row H Hin).
Qed.

Lemma fill_row_yields_digit_rows_witness :
  NoDup [[2; 6]; [3; 4]; [4; 3]; [6; 2]] /\
  forall row, In row [[2; 6]; [3; 4]; [4; 3]; [6; 2]] ->
              length row = 2%nat /\ Forall (fun d => 1 <= d <= 9) row.
Proof.
  apply (fill_row_yields_digit_rows 2 (PyInt 12)). vm_compute. reflexivity.
Defined.


(** ** Generators *)

Lemma for_each_yielded_inv (A B : Type) (body : A -> Gen B) :
  forall xs y,
    In y (yielded (for_each xs body)) ->
    exists x, In x xs /\ In y (yielded (body x)).
Proof.
  induction xs as [| x xs IH]; simpl; intros y Hy; [destruct Hy |].
  destruct (raised (body x)).
  - exists x. auto.
  - simpl in Hy. apply in_app_iff in Hy as [Hy | Hy].
    + exists x. auto.
    + destruct (IH y Hy) as (x' & Hx' & Hy'). exists x'. auto.
Qed.


(** A loop that ends without an exception ran every body to its end, and
    yielded what the bodies yielded, in order. *)
Lemma for_each_returns (A B : Type) (body : A -> Gen B) :
  forall xs,
    raised (for_each xs body) = None <->
    forall x, In x xs -> raised (body x) = None.
Proof.
  induction xs as [| x xs IH]; simpl.
  - split; [intros _ x [] | intros _; reflexivity].
  - destruct (raised (body x)) eqn:E.
    + rewrite E. split; [intros H; discriminate H |].
      intros H. rewrite <- E. apply H. left. reflexivity.
    + simpl. rewrite IH. split.
      * intros H x' [<- | Hx']; [exact E | apply H; exact Hx'].
      * intros H x' Hx'. apply H. right. exact Hx'.
Qed.

Lemma for_each_returns_yielded (A B : Type) (body : A -> Gen B) :
  forall xs,
    raised (for_each xs body) = None ->
    yielded (for_each xs body) = flat_map (fun x => yielded (body x)) xs.
Proof.
  induction xs as [| x xs IH]; simpl; [reflexivity |].
  destruct (raised (body x)) eqn:E.
  - intros H. congruence.
  - simpl. intros H. rewrite (IH H). reflexivity.
Qed.

(** If every value a body yields names the element it was yielded for,
    a loop over distinct elements yields no value twice. *)
Lemma for_each_NoDup (A B : Type) (body : A -> Gen B) (key : B -> option A) :
  (forall x y, In y (yielded (body x)) -> key y = Some x) ->
  forall xs,
    NoDup xs ->
    (forall x, In x xs -> NoDup (yielded (body x))) ->
    NoDup (yielded (for_each xs body)).
Proof.
  intros Hkey. induction xs as [| x xs IH]; simpl; intros Hnd Hbody.
  - constructor.
  - inversion Hnd as [| ? ? Hx Hxs]; subst.
    destruct (raised (body x)).
    + apply Hbody. left. reflexivity.
    + simpl. apply NoDup_app.
      * apply Hbody. left. reflexivity.
      * apply IH; [exact Hxs | intros x' Hx'; apply Hbody; right; exact Hx'].
      * intros y Hy Hy'.
        destruct (for_each_yielded_inv _ _ body xs y Hy') as (x' & Hx' & Hy'').
        apply Hkey in Hy. apply Hkey in Hy''. congruence.
Qed.

Lemma flat_map_Permutation_ext (A B : Type) (f g : A -> list B) :
  forall xs,
    (forall x, In x xs -> Permutation (f x) (g x)) ->
    Permutation (flat_map f xs) (flat_map g xs).
Proof.
  induction xs as [| x xs IH]; simpl; intros H; [constructor |].
  apply Permutation_app.
  - apply H. left. reflexivity.
  - apply IH. intros x' Hx'. apply H. right. exact Hx'.
Qed.

Lemma next_spec (A : Type) (g : Gen A) :
  fst (next g) =
  match yielded g, raised g with
  | a :: _, _ => Ok (Some a)
  | [], Some e => Raise e
  | [], None => Ok None
  end.
Proof. unfold next. destruct (yielded g), (raised g); reflexivity. Qed.

(** ** The solver *)

Lemma solutions_from_cons (order : SetOrder) (r : num) (rows' : list num)
    (cols : Products) :
  solutions_from order (r :: rows') cols =
  match all_integral cols with
  | Raise e => gen_raise e
  | Ok false => gen_return
  | Ok true =>
      match fill_row r (len cols) with
      | Raise e => gen_raise e
      | Ok candidates => for_each (order candidates) (with_first_row order rows' cols)
      end
  end.
Proof. reflexivity. Qed.

Lemma with_first_row_yielded_inv (order : SetOrder) (rows' : list num)
    (cols : Products) (row1 : Row) (table : Table) :
  In table (yielded (with_first_row order rows' cols row1)) ->
  exists cols' rest,
    divide cols row1 = Ok cols' /\
    In rest (yielded (solutions_from order rows' cols')) /\
    table = row1 :: rest.
Proof.
  unfold with_first_row. destruct (divide cols row1) as [cols' | e]; simpl.
  - intros H. apply in_map_iff in H as (rest & <- & H). exists cols', rest. auto.
  - intros [].
Qed.

Lemma NoDup_map_cons (A : Type) (a : A) (xs : list (list A)) :
  NoDup xs -> NoDup (map (cons a) xs).
Proof.
  induction 1 as [| x xs Hx _ IH]; simpl; constructor; [| exact IH].
  intros H. apply in_map_iff in H as (y & Hy & Hin).
  injection Hy as ->. exact (Hx Hin).
Qed.

Lemma solutions_from_NoDup (order : SetOrder) :
  forall rows cols, NoDup (yielded (solutions_from order rows cols)).
Proof.
  induction rows as [| r rows IH]; intros cols.
  - simpl. destruct (all_one cols); repeat constructor. intros [].
  - rewrite solutions_from_cons.
    destruct (all_integral cols) as [[|] | e]; try constructor.
    destruct (fill_row r (len cols)) as [candidates | e] eqn:Hfill; [| constructor].
    apply for_each_NoDup with (key := @hd_error Row).
    + intros row1 table H.
      apply with_first_row_yielded_inv in H as (_ & rest & _ & _ & ->). reflexivity.
    + apply (Permutation_NoDup (Permutation_sym (iter_perm order candidates))).
      exact (fill_row_NoDup _ _ _ Hfill).
    + intros row1 _. unfold with_first_row.
      destruct (divide cols row1) as [cols' | e]; simpl; [| constructor].
      apply NoDup_map_cons, IH.
Qed.

(** When the search ends without an exception under one iteration order
    of the sets, it does so under every order and yields the same tables,
    possibly in another order. *)
Lemma solutions_from_any_order (o1 o2 : SetOrder) :
  forall rows cols,
    raised (solutions_from o1 rows cols) = None ->
    raised (solutions_from o2 rows cols) = None /\
    Permutation (yielded (solutions_from o1 rows cols))
                (yielded (solutions_from o2 rows cols)).
Proof.
  induction rows as [| r rows IH]; intros cols.
  - simpl. intros H. split; [exact H | apply Permutation_refl].
  - rewrite !solutions_from_cons.
    destruct (all_integral cols) as [[|] | e]; try (intros H; split; [exact H | constructor]).
    destruct (fill_row r (len cols)) as [candidates | e];
      [| intros H; split; [exact H | constructor]].
    intros H.
    assert (Hbody : forall row1,
               In row1 candidates ->
               raised (with_first_row o2 rows cols row1) = None /\
               Permutation (yielded (with_first_row o1 rows cols row1))
                           (yielded (with_first_row o2 rows cols row1))).
    { intros row1 Hin.
      assert (H1 : raised (with_first_row o1 rows cols row1) = None).
      { apply (proj1 (for_each_returns _ _ _ _) H).
        apply (Permutation_in _ (Permutation_sym (iter_perm o1 candidates))). exact Hin. }
      unfold with_first_row in *.
      destruct (divide cols row1) as [cols' | e]; [| discriminate H1].
      simpl in *. destruct (IH cols' H1) as [H2 Hperm].
      split; [exact H2 | apply Permutation_map; exact Hperm]. }
    assert (H2 : raised (for_each (o2 candidates) (with_first_row o2 rows cols)) = None).
    { apply for_each_returns. intros row1 Hin. apply Hbody.
      apply (Permutation_in _ (iter_perm o2 candidates)). exact Hin. }
    split; [exact H2 |].
    rewrite (for_each_returns_yielded _ _ _ _ H), (for_each_returns_yielded _ _ _ _ H2).
    apply Permutation_trans
      with (flat_map (fun x => yielded (with_first_row o1 rows cols x)) (o2 candidates)).
    + apply Permutation_flat_map.
      apply (Permutation_trans (iter_perm o1 candidates)).
      apply Permutation_sym, iter_perm.
    + apply flat_map_Permutation_ext. intros row1 Hin. apply Hbody.
      apply (Permutation_in _ (iter_perm o2 candidates)). exact Hin.
Qed.

(** What the search yields under the insertion order, when that is a
    single table or none and no exception, it yields under every order. *)
Lemma solutions_any_order_nil (order : SetOrder) (puzzle : Puzzle) :
  solutions insertion_order puzzle = gen_return ->
  solutions order puzzle = gen_return.
Proof.
  unfold solutions. intros H.
  destruct (solutions_from_any_order insertion_order order
              (row_prods puzzle) (col_prods puzzle)) as [Hr Hp].
  - rewrite H. reflexivity.
  - rewrite H in Hp. simpl in Hp. apply Permutation_nil in Hp.
    destruct (solutions_from order (row_prods puzzle) (col_prods puzzle)); simpl in *.
    subst. reflexivity.
Qed.

Lemma solutions_any_order_single (order : SetOrder) (puzzle : Puzzle) (table : Table) :
  solutions insertion_order puzzle = gen_yield table ->
  solutions order puzzle = gen_yield table.
Proof.
  unfold solutions. intros H.
  destruct (solutions_from_any_order insertion_order order
              (row_prods puzzle) (col_prods puzzle)) as [Hr Hp].
  - rewrite H. reflexivity.
  - rewrite H in Hp. simpl in Hp. apply Permutation_length_1_inv in Hp.
    destruct (solutions_from order (row_prods puzzle) (col_prods puzzle)); simpl in *.
    subst. reflexivity.
Qed.

(** X6: The iteration order of the sets decides only the order of the
    output: when the search ends without an exception under one order, it
    does so under every other, and yields the same tables, rearranged. *)
Theorem solutions_order_independent (o1 o2 : SetOrder) (puzzle : Puzzle) :
  raised (solutions o1 puzzle) = None ->
  raised (solutions o2 puzzle) = None /\
  Permutation (yielded (solutions o1 puzzle)) (yielded (solutions o2 puzzle)).
Proof. unfold solutions. apply solutions_from_any_order. Qed.

Lemma solutions_order_independent_witness :
  raised (solutions reverse_order riddler_puzzle) = None /\
  Permutation (yielded (solutions insertion_order riddler_puzzle))
              (yielded (solutions reverse_order riddler_puzzle)).
Proof.
  apply (solutions_order_independent insertion_order reverse_order riddler_puzzle).
  vm_compute. reflexivity.
Defined.

(** ** Signs of floats *)


Lemma of_int_digit (d : Z) :
  1 <= d <= 9 -> exists m e, Float64.of_int d = S754_finite false m e.
Proof.
  intros H.
  assert (d = 1 \/ d = 2 \/ d = 3 \/ d = 4 \/ d = 5 \/ d = 6 \/ d = 7 \/ d = 8 \/ d = 9)
    as E by lia.
  repeat (destruct E as [-> | E]; [eexists; eexists; vm_compute; reflexivity |]).
  subst. eexists; eexists; vm_compute; reflexivity.
Qed.





(** ** Negative products *)







(** ** Quotients that fit a float

    CPython raises [OverflowError] when the rounded quotient of two
    integers reaches [2 ^ 1024]; below [2 ^ 1023] the dividend is far from
    it.  The proof follows the rounding of [binary_round_aux] through its
    two shifts. *)

Lemma digits2_pos_size (p : positive) : digits2_pos p = Pos.size p.
Proof. induction p; simpl; congruence. Qed.

Lemma Zdigits2_log2 (p : positive) : Zdigits2 (Zpos p) = Z.log2 (Zpos p) + 1.
Proof.
  simpl. rewrite digits2_pos_size. destruct p; simpl; lia.
Qed.

Lemma Zdigits2_le_iff (m k : Z) : 0 < m -> (Zdigits2 m <= k <-> m < 2 ^ k).
Proof.
  intros Hm. destruct m as [| p | p]; try lia.
  rewrite Zdigits2_log2.
  destruct (Z_lt_le_dec k 0) as [Hk | Hk].
  - rewrite Z.pow_neg_r by lia. pose proof (Z.log2_nonneg (Zpos p)). lia.
  - rewrite (Z.log2_lt_pow2 (Zpos p) k Hm). lia.
Qed.

Lemma shr_m_shr_1 (mrs : shr_record) :
  0 <= shr_m mrs -> shr_m (shr_1 mrs) = shr_m mrs / 2.
Proof.
  destruct mrs as [m r s]. simpl. intros Hm.
  destruct m as [| [p | p |] | p]; simpl; try lia; try reflexivity.
  - rewrite Pos2Z.inj_xI. apply Z.div_unique with 1; lia.
  - rewrite Pos2Z.inj_xO. apply Z.div_unique with 0; lia.
Qed.

Lemma shr_m_iter_pos (p : positive) :
  forall mrs, 0 <= shr_m mrs ->
    shr_m (iter_pos shr_1 p mrs) = shr_m mrs / 2 ^ Zpos p.
Proof.
  induction p as [p IH | p IH |]; intros mrs Hm; simpl iter_pos.
  - assert (H1 : 0 <= shr_m (shr_1 mrs))
      by (rewrite shr_m_shr_1 by exact Hm; apply Z.div_pos; lia).
    assert (H2 : 0 <= shr_m (iter_pos shr_1 p (shr_1 mrs)))
      by (rewrite IH by exact H1; apply Z.div_pos; [exact H1 | apply Z.pow_pos_nonneg; lia]).
    rewrite (IH _ H2), (IH _ H1), (shr_m_shr_1 mrs Hm).
    rewrite !Z.div_div by (try apply Z.pow_pos_nonneg; lia).
    f_equal. rewrite <- !Z.pow_add_r, <- Z.pow_succ_r by lia. f_equal. lia.
  - assert (H1 : 0 <= shr_m (iter_pos shr_1 p mrs))
      by (rewrite IH by exact Hm; apply Z.div_pos; [exact Hm | apply Z.pow_pos_nonneg; lia]).
    rewrite (IH _ H1), (IH _ Hm).
    rewrite !Z.div_div by (try apply Z.pow_pos_nonneg; lia).
    f_equal. rewrite <- Z.pow_add_r by lia. f_equal. lia.
  - rewrite (shr_m_shr_1 mrs Hm). reflexivity.
Qed.

Lemma shr_m_of_loc (m : Z) (l : location) : shr_m (shr_record_of_loc m l) = m.
Proof. destruct l as [| []]; reflexivity. Qed.

Lemma round_nearest_even_bounds (m : Z) (l : location) :
  m <= round_nearest_even m l <= m + 1.
Proof.
  destruct l as [| []]; simpl; try lia. destruct (Z.even m); lia.
Qed.

(** One [shr_fexp] step keeps a mantissa non-negative and below [2 ^ (B - e)]. *)
Lemma shr_fexp_bound (B m e : Z) (l : location) (mrs' : shr_record) (e' : Z) :
  - 1021 <= B ->
  0 <= m -> e <= B - 53 -> m < 2 ^ (B - e) ->
  shr_fexp Float64.prec Float64.emax m e l = (mrs', e') ->
  0 <= shr_m mrs' /\ e' <= B - 53 /\ shr_m mrs' < 2 ^ (B - e').
Proof.
  intros HB Hm He Hlt. unfold shr_fexp, shr.
  assert (Hf : fexp Float64.prec Float64.emax (Zdigits2 m + e) <= B - 53).
  { unfold fexp, emin, Float64.prec, Float64.emax.
    assert (Zdigits2 m + e <= B); [| lia].
    destruct (Z.eq_dec m 0) as [-> | Hm0]; [simpl; lia |].
    assert (Zdigits2 m <= B - e); [| lia].
    apply Zdigits2_le_iff; lia. }
  destruct (fexp Float64.prec Float64.emax (Zdigits2 m + e) - e) as [| n | n] eqn:En;
    intros H; injection H as <- <-; rewrite ?shr_m_of_loc; auto.
  rewrite shr_m_iter_pos by (rewrite shr_m_of_loc; exact Hm).
  rewrite shr_m_of_loc.
  assert (0 < 2 ^ Zpos n) by (apply Z.pow_pos_nonneg; lia).
  split; [apply Z.div_pos; lia |]. split; [lia |].
  apply Z.div_lt_upper_bound; [lia |].
  rewrite <- Z.pow_add_r by lia.
  replace (Zpos n + (B - (e + Zpos n))) with (B - e) by lia. exact Hlt.
Qed.

Lemma binary_round_aux_finite (s : bool) (m e : Z) (l : location) :
  0 <= m -> e <= 970 -> m < 2 ^ (1023 - e) ->
  finite (binary_round_aux Float64.prec Float64.emax s m e l).
Proof.
  intros Hm He Hlt. unfold binary_round_aux.
  destruct (shr_fexp Float64.prec Float64.emax m e l) as [mrs' e'] eqn:E1.
  destruct (shr_fexp_bound 1023 m e l mrs' e' ltac:(lia) Hm ltac:(lia) Hlt E1)
    as (H0 & He' & Hlt').
  pose proof (round_nearest_even_bounds (shr_m mrs') (loc_of_shr_record mrs')) as Hr.
  destruct (shr_fexp Float64.prec Float64.emax (round_nearest_even (shr_m mrs') (loc_of_shr_record mrs'))
                     e' loc_Exact) as [mrs'' e''] eqn:E2.
  assert (Hlt'' : round_nearest_even (shr_m mrs') (loc_of_shr_record mrs')
                  < 2 ^ (1024 - e')).
  { replace (1024 - e') with (1 + (1023 - e')) by lia.
    rewrite Z.pow_add_r by lia. lia. }
  assert (H0r : 0 <= round_nearest_even (shr_m mrs') (loc_of_shr_record mrs')) by lia.
  assert (He1 : e' <= 1024 - 53) by lia.
  assert (HB : - 1021 <= 1024) by lia.
  destruct (shr_fexp_bound 1024 _ e' loc_Exact mrs'' e'' HB H0r He1 Hlt'' E2)
    as (H0' & He'' & _).
  destruct (shr_m mrs'') as [| p | p]; [exact I | | lia].
  replace (e'' <=? Float64.emax - Float64.prec) with true; [exact I |].
  symmetry. apply Z.leb_le. unfold Float64.emax, Float64.prec. lia.
Qed.

Lemma int_true_divide_core (a d : Z) :
  0 < a < 2 ^ 1023 -> 0 < d ->
  forall s q e l, SFdiv_core_binary Float64.prec Float64.emax a 0 d 0 = (q, e, l) ->
  finite (binary_round_aux Float64.prec Float64.emax s q e l).
Proof.
  intros Ha Hd s q e l. unfold SFdiv_core_binary.
  set (e' := Z.min (fexp Float64.prec Float64.emax (Zdigits2 a + 0 - (Zdigits2 d + 0))) (0 - 0)).
  assert (He' : e' <= 0) by (unfold e'; lia).
  set (m' := match 0 - 0 - e' with Z0 => a | Zpos _ => Z.shiftl a (0 - 0 - e') | Zneg _ => 0 end).
  assert (Hm' : 0 <= m' < 2 ^ (1023 - e')).
  { unfold m'. destruct (0 - 0 - e') as [| n | n] eqn:En; try lia.
    - replace e' with 0 by lia. simpl Z.sub. lia.
    - rewrite Z.shiftl_mul_pow2 by lia.
      replace (1023 - e') with (1023 + Zpos n) by lia.
      rewrite Z.pow_add_r by lia.
      assert (0 < 2 ^ Zpos n) by (apply Z.pow_pos_nonneg; lia). nia. }
  pose proof (Z_div_mod m' d ltac:(lia)) as Hdm.
  destruct (Z.div_eucl m' d) as [q' r'].
  intros H. injection H as <- <- <-.
  destruct Hdm as [Hdm Hr].
  assert (Hq0 : 0 <= q') by nia.
  assert (Hqm : q' <= m') by nia.
  apply binary_round_aux_finite; lia.
Qed.

Lemma int_true_divide_finite (a d : Z) :
  Z.abs a < 2 ^ 1023 -> 0 < d -> finite (Float64.int_true_divide a d).
Proof.
  intros Ha Hd. unfold Float64.int_true_divide.
  destruct (Z.eq_dec a 0) as [-> | Hne]; [exact I |].
  replace (Z.abs d) with d by lia.
  destruct (SFdiv_core_binary Float64.prec Float64.emax (Z.abs a) 0 d 0)
    as [[q e] l] eqn:E.
  assert (H : finite (binary_round_aux Float64.prec Float64.emax
                        (xorb (a <? 0) (d <? 0)) q e l))
    by (apply (int_true_divide_core (Z.abs a) d); [lia | exact Hd | exact E]).
  destruct a; [contradiction Hne; reflexivity | exact H | exact H].
Qed.

Lemma truediv_Ok (product : num) (d : Z) :
  fits_float product -> 0 < d -> exists q, truediv product d = Ok q.
Proof.
  destruct product as [z | z]; simpl; intros Hz Hd; [| eexists; reflexivity].
  pose proof (int_true_divide_finite z d Hz Hd) as H.
  destruct (Float64.int_true_divide z d); simpl in H;
    try contradiction; eexists; reflexivity.
Qed.

Lemma floordiv_fits_float (product : num) (d : Z) :
  fits_float product -> 0 < d -> fits_float (floordiv product d).
Proof.
  destruct product as [z | z]; simpl; intros Hz Hd; [| exact I].
  assert (Z.abs (z / d) <= Z.abs z); [| lia].
  pose proof (Z_div_mod z d ltac:(lia)) as H.
  unfold Z.div. destruct (Z.div_eucl z d) as [q r]. destruct H as [H Hr].
  destruct (Z_lt_le_dec z 0); nia.
Qed.

(** Below that size [fill_row] returns a set. *)
Lemma fill_row_Ok :
  forall k product, fits_float product -> exists rows, fill_row product k = Ok rows.
Proof.
  induction k as [| k IH]; intros product Hfit; [eexists; reflexivity |].
  rewrite fill_row_S.
  destruct (comprehension_Ok_intro _ (fill_clause product k) range_1_10) as (xs & ->);
    [| eexists; reflexivity].
  intros d Hd. apply range_1_10_spec in Hd. unfold fill_clause.
  destruct (truediv_Ok product d Hfit ltac:(lia)) as (q & ->). simpl.
  destruct (Float64.is_integer q); [| eexists; reflexivity].
  destruct (IH (floordiv product d)) as (rests & ->);
    [apply floordiv_fits_float; [exact Hfit | lia] | eexists; reflexivity].
Qed.

(** X7: [fill_row] returns a set, and raises nothing, for every Python
    integer of absolute value below [2 ^ 1023] and for every numpy integer. *)
Theorem fill_row_returns_below_2_1023 :
  forall k product, fits_float product -> exists rows, fill_row product k = Ok rows.
Proof. exact fill_row_Ok. Qed.

Lemma fill_row_returns_below_2_1023_witness :
  exists rows, fill_row (PyInt (2 ^ 1000)) 2 = Ok rows.
Proof.
  apply (fill_row_returns_below_2_1023 2 (PyInt (2 ^ 1000))).
  vm_compute. reflexivity.
Defined.

(** ** Zero products *)

Lemma fill_row_zero :
  forall k product, num_val product = 0 -> fill_row product k = Ok [].
Proof.
  induction k as [| k IH]; intros product Hz.
  - simpl. unfold eq_one. rewrite Hz. reflexivity.
  - destruct (fill_row_Ok (S k) product) as (rows & H).
    { destruct product as [z | z]; [| exact I].
      simpl in Hz. subst z. unfold fits_float. change (Z.abs 0) with 0.
      apply Z.pow_pos_nonneg; lia. }
    rewrite H. f_equal.
    destruct rows as [| row rows]; [reflexivity |].
    destruct (fill_row_In_inv _ _ _ _ H (or_introl eq_refl))
      as (d & q & rests & rest & Hd & _ & _ & Hr & Hrest & _).
    rewrite IH in Hr.
    + injection Hr as <-. destruct Hrest.
    + destruct product as [z | z]; simpl in *; subst z; apply Z.div_0_l;
        apply range_1_10_spec in Hd; lia.
Qed.

(** C6: zero products are legal and yield nothing: [fill_row(0, k)] is the
    empty set for every [k > 0], and [solve(Puzzle([0], [0]))] returns the
    no-solution result, whatever the iteration order of the sets. *)
Theorem zero_products_yield_nothing :
  (forall k, (0 < k)%nat -> fill_row (PyInt 0) k = Ok []) /\
  (forall order, solve order (py_puzzle [0] [0]) = Ok None).
Proof.
  split.
  - intros k _. apply fill_row_zero. reflexivity.
  - intros order. unfold solve.
    rewrite (solutions_any_order_nil order (py_puzzle [0] [0]));
      [reflexivity | vm_compute; reflexivity].
Qed.

(** ** The first solution *)

(** C9: [solve] returns the first table [solutions] yields, or the
    no-solution result when it yields none (an exception raised before the
    first table propagates); the notebook's worked example solves to its
    table under every iteration order of the sets. *)
Theorem solve_returns_first_solution :
  (forall order puzzle,
     solve order puzzle =
     match yielded (solutions order puzzle), raised (solutions order puzzle) with
     | table :: _, _ => Ok (Some table)
     | [], Some e => Raise e
     | [], None => Ok None
     end) /\
  (forall order, solve order riddler_puzzle = Ok (Some riddler_table)).
Proof.
  split.
  - intros order puzzle. unfold solve. apply next_spec.
  - intros order. unfold solve.
    rewrite (solutions_any_order_single order riddler_puzzle riddler_table);
      [reflexivity | vm_compute; reflexivity].
Qed.

(** ** No table twice *)

(** X25: [solutions] never yields the same table twice: the rows of a set
    returned by [fill_row] are distinct, and tables with distinct first
    rows are distinct. *)
Theorem solutions_never_repeats :
  forall order puzzle, NoDup (yielded (solutions order puzzle)).
Proof.
  intros order puzzle. unfold solutions. apply solutions_from_NoDup.
Qed.

(** ** Negative products *)


Lemma well_formed_spec (order : SetOrder) (puzzle : Puzzle) :
  well_formed order puzzle =
  match yielded (solutions order puzzle), raised (solutions order puzzle) with
  | [], None => Ok false
  | [], Some e => Raise e
  | [_], None => Ok true
  | [_], Some e => Raise e
  | _ :: _ :: _, _ => Ok false
  end.
Proof.
  unfold well_formed, next.
  destruct (solutions order puzzle) as [[| t1 [| t2 ts]] [e |]]; reflexivity.
Qed.



(** * Below [2 ^ 53]: the engine is exact *)

(** ** Rounding a quotient to a double *)

Lemma iter_xO (p d : positive) : Zpos (Pos.iter xO p d) = Zpos p * 2 ^ Zpos d.
Proof.
  induction d as [| d IH] using Pos.peano_ind.
  - simpl. lia.
  - rewrite Pos.iter_succ, Pos2Z.inj_xO, IH, Pos2Z.inj_succ, Z.pow_succ_r by lia. ring.
Qed.

Lemma Zdigits2_eq (m k : Z) : 0 < m -> 2 ^ (k - 1) <= m < 2 ^ k -> Zdigits2 m = k.
Proof.
  intros Hm [Hlo Hhi].
  assert (H1 : Zdigits2 m <= k) by (apply Zdigits2_le_iff; assumption).
  assert (H2 : ~ Zdigits2 m <= k - 1)
    by (intros H; apply Zdigits2_le_iff in H; [lia | exact Hm]).
  lia.
Qed.

Lemma new_location_spec (W r : Z) :
  0 < W -> 0 <= r < W ->
  new_location W r = if r =? 0 then loc_Exact else loc_Inexact (2 * r ?= W).
Proof.
  intros HW Hr. unfold new_location, new_location_even, new_location_odd.
  destruct (Z.even W) eqn:Ev; [reflexivity |].
  destruct (r =? 0); [reflexivity |]. f_equal.
  assert (Hodd : Z.odd W = true) by (rewrite <- Z.negb_even, Ev; reflexivity).
  apply Z.odd_spec in Hodd as [w Hw].
  destruct (Z.compare_spec (2 * r + 1) W) as [C | C | C]; symmetry.
  - apply Z.compare_lt_iff. lia.
  - apply Z.compare_lt_iff. lia.
  - apply Z.compare_gt_iff. lia.
Qed.

Lemma rounded_nearest (W q r : Z) (shifted : bool) :
  0 < W -> 0 <= r < W -> 0 <= q ->
  let n := if shifted then 1 else 0 in
  let m := rounded q (new_location W r) shifted in
  Z.abs (2 * (W * 2 ^ n) * m - 2 * (W * q + r)) <= W * 2 ^ n /\
  q / 2 ^ n <= m <= q / 2 ^ n + 1.
Proof.
  intros HW Hr Hq. rewrite (new_location_spec W r HW Hr). unfold rounded.
  destruct shifted; cbv zeta.
  - (* one bit shifted out *)
    change (2 ^ 1) with 2.
    pose proof (Z.div_mod q 2 ltac:(lia)) as Hdm.
    pose proof (Z.mod_pos_bound q 2 ltac:(lia)) as Hb.
    assert (Hshr : forall rb sb,
               shr_1 (Build_shr_record q rb sb) =
               Build_shr_record (q / 2) (Z.odd q) (rb || sb)).
    { intros rb sb. destruct q as [| [p | p |] | p]; try lia; simpl shr_1.
      - reflexivity.
      - rewrite Pos2Z.inj_xI. f_equal. apply Z.div_unique with 1; lia.
      - rewrite Pos2Z.inj_xO. f_equal. apply Z.div_unique with 0; lia.
      - reflexivity. }
    assert (Hodd : Z.odd q = (q mod 2 =? 1)).
    { rewrite Zmod_odd. destruct (Z.odd q); reflexivity. }
    destruct (r =? 0) eqn:Er; [apply Z.eqb_eq in Er | apply Z.eqb_neq in Er].
    + cbn [shr_record_of_loc]. rewrite Hshr, Hodd.
      destruct (q mod 2 =? 1) eqn:Eo;
        [apply Z.eqb_eq in Eo | apply Z.eqb_neq in Eo]; cbn [shr_m shr_r shr_s loc_of_shr_record round_nearest_even shr_record_of_loc orb].
      * destruct (Z.even (q / 2)); lia.
      * lia.
    + destruct (Z.compare_spec (2 * r) W) as [C | C | C]; cbn [shr_record_of_loc];
        rewrite Hshr, Hodd;
        (destruct (q mod 2 =? 1) eqn:Eo;
         [apply Z.eqb_eq in Eo | apply Z.eqb_neq in Eo]); cbn [shr_m shr_r shr_s loc_of_shr_record round_nearest_even shr_record_of_loc orb];
        try destruct (Z.even (q / 2)); lia.
  - (* no shift *)
    change (2 ^ 0) with 1. rewrite Z.div_1_r.
    destruct (r =? 0) eqn:Er; [apply Z.eqb_eq in Er | apply Z.eqb_neq in Er].
    + cbn [shr_m shr_r shr_s loc_of_shr_record round_nearest_even shr_record_of_loc orb]. lia.
    + destruct (Z.compare_spec (2 * r) W) as [C | C | C]; cbn [shr_m shr_r shr_s loc_of_shr_record round_nearest_even shr_record_of_loc orb].
      * destruct (Z.even q); lia.
      * lia.
      * lia.
Qed.

Lemma rounded_bounds (q : Z) (l : location) (shifted : bool) :
  0 <= q ->
  let n := if shifted then 1 else 0 in
  q / 2 ^ n <= rounded q l shifted <= q / 2 ^ n + 1.
Proof.
  intros Hq. unfold rounded. destruct shifted; cbv zeta.
  - change (2 ^ 1) with 2.
    rewrite shr_m_shr_1 by (rewrite shr_m_of_loc; exact Hq).
    rewrite shr_m_of_loc. apply round_nearest_even_bounds.
  - change (2 ^ 0) with 1. rewrite Z.div_1_r, shr_m_of_loc.
    apply round_nearest_even_bounds.
Qed.

(** [binary_round_aux] on a mantissa of 53 or 54 bits, in the normal range:
    at most one bit is shifted out, the mantissa is rounded, and a carry
    to [2 ^ 53] is renormalised. *)
Lemma binary_round_aux_normal (s : bool) (q e : Z) (l : location) :
  2 ^ 52 <= q < 2 ^ 54 -> - 1074 <= e <= 968 ->
  let shifted := negb (q <? 2 ^ 53) in
  let n := if shifted then 1 else 0 in
  let m := rounded q l shifted in
  binary_round_aux Float64.prec Float64.emax s q e l =
  if m <? 2 ^ 53 then S754_finite s (Z.to_pos m) (e + n)
  else S754_finite s (Z.to_pos (2 ^ 52)) (e + n + 1).
Proof.
  intros Hq He shifted n m.
  assert (Hm : 2 ^ 52 <= m <= 2 ^ 53).
  { pose proof (rounded_bounds q l shifted ltac:(lia)) as Hb. cbv zeta in Hb.
    fold n m in Hb. unfold n, shifted in Hb.
    destruct (q <? 2 ^ 53) eqn:E; cbn [negb] in Hb;
      [apply Z.ltb_lt in E | apply Z.ltb_ge in E].
    - change (2 ^ 0) with 1 in Hb. rewrite Z.div_1_r in Hb. lia.
    - change (2 ^ 1) with 2 in Hb.
      assert (2 ^ 52 <= q / 2) by (apply Z.div_le_lower_bound; lia).
      assert (q / 2 < 2 ^ 53) by (apply Z.div_lt_upper_bound; lia).
      lia. }
  unfold binary_round_aux, shr_fexp.
  assert (HD : Zdigits2 q = 53 + n).
  { unfold n, shifted. destruct (q <? 2 ^ 53) eqn:E; cbn [negb];
      [apply Z.ltb_lt in E | apply Z.ltb_ge in E]; apply Zdigits2_eq; lia. }
  rewrite HD.
  assert (Hf1 : fexp Float64.prec Float64.emax (53 + n + e) - e = n).
  { unfold fexp, emin, Float64.prec, Float64.emax, n.
    destruct shifted; lia. }
  rewrite Hf1.
  assert (Hshr1 : shr (shr_record_of_loc q l) e n =
                  (if shifted then shr_1 (shr_record_of_loc q l)
                   else shr_record_of_loc q l, e + n)).
  { unfold n. destruct shifted; cbn [shr iter_pos]; [reflexivity |].
    rewrite Z.add_0_r. reflexivity. }
  rewrite Hshr1. fold (rounded q l shifted). fold m.
  destruct (m <? 2 ^ 53) eqn:Em; [apply Z.ltb_lt in Em | apply Z.ltb_ge in Em].
  - assert (HDm : Zdigits2 m = 53) by (apply Zdigits2_eq; lia).
    rewrite HDm.
    replace (fexp Float64.prec Float64.emax (53 + (e + n)) - (e + n)) with 0
      by (unfold fexp, emin, Float64.prec, Float64.emax, n; destruct shifted; lia).
    cbn [shr shr_record_of_loc shr_m].
    destruct m as [| p | p]; try lia.
    replace (e + n <=? Float64.emax - Float64.prec) with true; [reflexivity |].
    symmetry. apply Z.leb_le. unfold Float64.emax, Float64.prec, n.
    destruct shifted; lia.
  - assert (m = 2 ^ 53) as -> by lia.
    replace (Zdigits2 (2 ^ 53)) with 54 by reflexivity.
    replace (fexp Float64.prec Float64.emax (54 + (e + n)) - (e + n)) with 1
      by (unfold fexp, emin, Float64.prec, Float64.emax, n; destruct shifted; lia).
    cbn [shr iter_pos].
    replace (shr_m (shr_1 (shr_record_of_loc (2 ^ 53) loc_Exact))) with (2 ^ 52)
      by reflexivity.
    replace (2 ^ 52) with (Zpos (Z.to_pos (2 ^ 52))) at 1 by reflexivity.
    cbv iota.
    replace (e + n + 1 <=? Float64.emax - Float64.prec) with true; [reflexivity |].
    symmetry. apply Z.leb_le. unfold Float64.emax, Float64.prec, n.
    destruct shifted; lia.
Qed.

Lemma Zdigits2_bounds (m : Z) :
  0 < m -> 1 <= Zdigits2 m /\ 2 ^ (Zdigits2 m - 1) <= m < 2 ^ Zdigits2 m.
Proof.
  intros Hm.
  assert (H1 : m < 2 ^ Zdigits2 m) by (apply Zdigits2_le_iff; [exact Hm | lia]).
  assert (H2 : ~ m < 2 ^ (Zdigits2 m - 1))
    by (intros H; apply Zdigits2_le_iff in H; [lia | exact Hm]).
  assert (H3 : 1 <= Zdigits2 m) by (destruct m; simpl; lia).
  lia.
Qed.

Lemma Zdigits2_le_53 (m : Z) : 0 < m < 2 ^ 53 -> Zdigits2 m <= 53.
Proof. intros Hm. apply Zdigits2_le_iff; lia. Qed.

(** The double of an integer below [2 ^ 53]: the integer itself, with its
    mantissa shifted up to 53 bits. *)
Lemma of_int_normal (n : Z) :
  0 < n < 2 ^ 53 ->
  Float64.of_int n =
  S754_finite false (Z.to_pos (n * 2 ^ (53 - Zdigits2 n))) (Zdigits2 n - 53).
Proof.
  intros Hn.
  destruct (Zdigits2_bounds n ltac:(lia)) as (HD1 & Hlo & Hhi).
  pose proof (Zdigits2_le_53 n Hn) as HD2.
  set (D := Zdigits2 n) in *.
  assert (Hmz : 2 ^ 52 <= n * 2 ^ (53 - D) < 2 ^ 53).
  { replace (2 ^ 52) with (2 ^ (D - 1) * 2 ^ (53 - D))
      by (rewrite <- Z.pow_add_r by lia; f_equal; lia).
    replace (2 ^ 53) with (2 ^ D * 2 ^ (53 - D))
      by (rewrite <- Z.pow_add_r by lia; f_equal; lia).
    assert (0 < 2 ^ (53 - D)) by (apply Z.pow_pos_nonneg; lia). nia. }
  destruct n as [| p | p]; try lia.
  unfold Float64.of_int, binary_normalize, binary_round.
  change (Zpos (digits2_pos p)) with (Zdigits2 (Zpos p)). fold D.
  replace (fexp Float64.prec Float64.emax (D + 0)) with (D - 53)
    by (unfold fexp, emin, Float64.prec, Float64.emax; lia).
  assert (Hal : shl_align p 0 (D - 53) =
                (Z.to_pos (Zpos p * 2 ^ (53 - D)), D - 53)).
  { unfold shl_align. destruct (D - 53 - 0) as [| k | k] eqn:Ek; try lia.
    - replace (53 - D) with 0 by lia. replace (D - 53) with 0 by lia.
      rewrite Z.mul_1_r. reflexivity.
    - replace (53 - D) with (Zpos k) by lia. rewrite <- iter_xO. reflexivity. }
  rewrite Hal.
  assert (Hpos : Zpos (Z.to_pos (Zpos p * 2 ^ (53 - D))) = Zpos p * 2 ^ (53 - D))
    by (apply Z2Pos.id; lia).
  rewrite Hpos.
  rewrite binary_round_aux_normal by lia.
  assert (Hlt : (Zpos p * 2 ^ (53 - D) <? 2 ^ 53) = true) by (apply Z.ltb_lt; lia).
  rewrite Hlt. cbn [negb]. unfold rounded.
  cbn [shr_record_of_loc shr_m loc_of_shr_record round_nearest_even].
  rewrite Hlt, Z.add_0_r. reflexivity.
Qed.

Lemma pow2_split (a b : Z) : 0 <= a <= b -> 2 ^ b = 2 ^ a * 2 ^ (b - a).
Proof. intros H. rewrite <- Z.pow_add_r by lia. f_equal. lia. Qed.

Lemma pow2_pos (a : Z) : 0 <= a -> 0 < 2 ^ a.
Proof. intros H. apply Z.pow_pos_nonneg; lia. Qed.

Lemma int_true_divide_shape (c d : Z) :
  0 < c < 2 ^ 53 -> 1 <= d <= 9 ->
  exists q s n m,
    quotient_shape c d q s n m /\
    Float64.int_true_divide c d =
    if m <? 2 ^ 53 then S754_finite false (Z.to_pos m) (n - s)
    else S754_finite false (Z.to_pos (2 ^ 52)) (n - s + 1).
Proof.
  intros Hc Hd.
  destruct (Zdigits2_bounds c ltac:(lia)) as (HDc1 & Hclo & Hchi).
  pose proof (Zdigits2_le_53 c Hc) as HDc2.
  destruct (Zdigits2_bounds d ltac:(lia)) as (HDd1 & Hdlo & Hdhi).
  assert (HDd2 : Zdigits2 d <= 4) by (apply Zdigits2_le_iff; simpl; lia).
  set (Dc := Zdigits2 c) in *. set (Dd := Zdigits2 d) in *.
  set (s := 53 + Dd - Dc).
  assert (HS : 0 < 2 ^ s) by (apply pow2_pos; lia).
  pose proof (Z.div_mod (c * 2 ^ s) d ltac:(lia)) as Hdm.
  pose proof (Z.mod_pos_bound (c * 2 ^ s) d ltac:(lia)) as Hr.
  set (q := c * 2 ^ s / d) in *. set (r := (c * 2 ^ s) mod d) in *.
  (* 2^(Dc-1) * 2^s = 2^(52+Dd) and 2^Dc * 2^s = 2^(53+Dd) *)
  assert (E1 : 2 ^ (Dc - 1) * 2 ^ s = 2 ^ 53 * 2 ^ (Dd - 1))
    by (rewrite <- !Z.pow_add_r by lia; f_equal; lia).
  assert (E2 : 2 ^ Dc * 2 ^ s = 2 ^ 54 * 2 ^ (Dd - 1))
    by (rewrite <- !Z.pow_add_r by lia; f_equal; lia).
  assert (E3 : 2 ^ Dd = 2 * 2 ^ (Dd - 1))
    by (rewrite <- Z.pow_succ_r by lia; f_equal; lia).
  assert (HB : 0 < 2 ^ (Dd - 1)) by (apply pow2_pos; lia).
  assert (Hq : 2 ^ 52 <= q < 2 ^ 54).
  { split.
    - apply Z.div_le_lower_bound; [lia |]. nia.
    - apply Z.div_lt_upper_bound; [lia |]. nia. }
  set (shifted := negb (q <? 2 ^ 53)).
  set (n := if shifted then 1 else 0).
  set (m := rounded q (new_location d r) shifted).
  exists q, s, n, m. split.
  - pose proof (rounded_nearest d q r shifted ltac:(lia) Hr ltac:(lia)) as [Hn Hb].
    cbv zeta in Hn, Hb. fold n m in Hn, Hb.
    constructor.
    + unfold s. fold Dc Dd. lia.
    + unfold n. destruct shifted; lia.
    + fold r. exact Hdm.
    + unfold n, shifted in Hb.
      destruct (q <? 2 ^ 53) eqn:E; cbn [negb] in Hb;
        [apply Z.ltb_lt in E | apply Z.ltb_ge in E].
      * change (2 ^ 0) with 1 in Hb. rewrite Z.div_1_r in Hb. lia.
      * change (2 ^ 1) with 2 in Hb.
        assert (2 ^ 52 <= q / 2) by (apply Z.div_le_lower_bound; lia).
        assert (q / 2 < 2 ^ 53) by (apply Z.div_lt_upper_bound; lia).
        lia.
    + rewrite Hdm. exact Hn.
  - unfold Float64.int_true_divide.
    destruct c as [| pc | pc]; try lia.
    replace (Z.abs (Zpos pc)) with (Zpos pc) by reflexivity.
    replace (Z.abs d) with d by lia.
    replace (xorb (Zpos pc <? 0) (d <? 0)) with false
      by (replace (d <? 0) with false by (symmetry; apply Z.ltb_ge; lia); reflexivity).
    unfold SFdiv_core_binary. fold Dc Dd.
    replace (Z.min (fexp Float64.prec Float64.emax (Dc + 0 - (Dd + 0))) (0 - 0))
      with (- s)
      by (unfold fexp, emin, Float64.prec, Float64.emax, s; lia).
    replace (0 - 0 - - s) with s by lia.
    assert (Hm' : match s with
                  | 0 => Zpos pc
                  | Zpos _ => Z.shiftl (Zpos pc) s
                  | Zneg _ => 0
                  end = Zpos pc * 2 ^ s).
    { destruct s as [| ps | ps] eqn:Es; try lia.
      rewrite Z.shiftl_mul_pow2 by lia. reflexivity. }
    rewrite Hm'.
    assert (Heu : Z.div_eucl (Zpos pc * 2 ^ s) d = (q, r))
      by (unfold q, r, Z.div, Z.modulo;
          destruct (Z.div_eucl (Zpos pc * 2 ^ s) d); reflexivity).
    rewrite Heu.
    rewrite binary_round_aux_normal by (unfold s; lia).
    fold shifted. fold n. fold m.
    replace (- s + n) with (n - s) by lia. reflexivity.
Qed.

Lemma shape_exact (c d q s n m N : Z) :
  quotient_shape c d q s n m -> 0 < d -> c = d * N -> m = N * 2 ^ (s - n).
Proof.
  intros [Hs Hn _ _ Hnear] Hd ->.
  pose proof (Zdigits2_bounds d Hd) as (HDd & _).
  rewrite (pow2_split n s) in Hnear by lia.
  assert (HQ : 0 < 2 ^ n) by (apply pow2_pos; lia).
  assert (HP : 0 < 2 ^ (s - n)) by (apply pow2_pos; lia).
  set (Q := 2 ^ n) in *. set (P := 2 ^ (s - n)) in *.
  replace (2 * (d * Q) * m - 2 * (d * N * (Q * P)))
    with (2 * (d * Q) * (m - N * P)) in Hnear by ring.
  assert (HdQ : 0 < d * Q) by nia.
  destruct (Z.eq_dec m (N * P)) as [E | E]; [exact E | exfalso].
  assert (1 <= Z.abs (m - N * P)) by lia.
  rewrite Z.abs_mul in Hnear.
  rewrite (Z.abs_eq (2 * (d * Q))) in Hnear by lia. nia.
Qed.

Lemma shape_divides (c d q s n m M : Z) :
  quotient_shape c d q s n m -> 0 < d -> m = M * 2 ^ (s - n) -> c = d * M.
Proof.
  intros [Hs Hn _ _ Hnear] Hd ->.
  pose proof (Zdigits2_bounds d Hd) as (HDd & _ & Hdhi).
  rewrite (pow2_split n s) in Hnear by lia.
  assert (HQ : 0 < 2 ^ n) by (apply pow2_pos; lia).
  assert (HP : 0 < 2 ^ (s - n)) by (apply pow2_pos; lia).
  assert (HdP : d < 2 * 2 ^ (s - n)).
  { rewrite <- Z.pow_succ_r by lia.
    apply Z.lt_le_trans with (2 ^ Zdigits2 d); [exact Hdhi |].
    apply Z.pow_le_mono_r; lia. }
  set (Q := 2 ^ n) in *. set (P := 2 ^ (s - n)) in *.
  replace (2 * (d * Q) * (M * P) - 2 * (c * (Q * P)))
    with (2 * (Q * P) * (d * M - c)) in Hnear by ring.
  assert (HQP : 0 < Q * P) by nia.
  destruct (Z.eq_dec c (d * M)) as [E | E]; [exact E | exfalso].
  assert (1 <= Z.abs (d * M - c)) by lia.
  rewrite Z.abs_mul in Hnear.
  rewrite (Z.abs_eq (2 * (Q * P))) in Hnear by lia. nia.
Qed.

(** When the digit divides the integer, the float quotient is the double
    of the exact quotient. *)
Lemma int_true_divide_exact (c d : Z) :
  0 < c < 2 ^ 53 -> 1 <= d <= 9 -> c mod d = 0 ->
  Float64.int_true_divide c d = Float64.of_int (c / d).
Proof.
  intros Hc Hd Hmod.
  destruct (int_true_divide_shape c d Hc Hd) as (q & s & n & m & Hsh & ->).
  set (N := c / d).
  assert (HcN : c = d * N) by (unfold N; apply Z_div_exact_full_2; lia).
  assert (HN : 0 < N < 2 ^ 53) by nia.
  pose proof (shape_exact c d q s n m N Hsh ltac:(lia) HcN) as Hm.
  destruct Hsh as [Hs Hn _ Hmant _].
  pose proof (Zdigits2_bounds d ltac:(lia)) as (HDd & _).
  set (K := s - n) in *.
  assert (HK0 : 0 <= K) by (unfold K; lia).
  assert (HP : 0 < 2 ^ K) by (apply pow2_pos; lia).
  assert (HK : K <= 53).
  { destruct (Z_lt_le_dec 53 K) as [H | H]; [exfalso | lia].
    assert (2 ^ 53 < 2 ^ K) by (apply Z.pow_lt_mono_r; lia). nia. }
  rewrite (of_int_normal N HN).
  destruct (m <? 2 ^ 53) eqn:Em; [apply Z.ltb_lt in Em | apply Z.ltb_ge in Em].
  - assert (HK52 : K <= 52).
    { destruct (Z.eq_dec K 53) as [-> | ]; [nia | lia]. }
    assert (HDN : Zdigits2 N = 53 - K).
    { apply Zdigits2_eq; [lia |].
      rewrite (pow2_split K 52) in Hmant by lia.
      rewrite (pow2_split K 53) in Em by lia.
      replace (53 - K - 1) with (52 - K) by lia. nia. }
    rewrite HDN. replace (53 - (53 - K)) with K by lia.
    rewrite <- Hm. f_equal. unfold K. lia.
  - assert (Hm53 : m = 2 ^ 53) by lia.
    assert (HK1 : 1 <= K).
    { destruct (Z.eq_dec K 0) as [E0 | ]; [| lia].
      rewrite E0 in Hm. change (2 ^ 0) with 1 in Hm. lia. }
    assert (HDN : Zdigits2 N = 54 - K).
    { apply Zdigits2_eq; [lia |].
      replace (54 - K - 1) with (53 - K) by lia.
      rewrite Hm53 in Hm. rewrite (pow2_split K 53) in Hm by lia.
      assert (N = 2 ^ (53 - K)) by nia.
      rewrite (pow2_split (53 - K) (54 - K)) by lia.
      replace (54 - K - (53 - K)) with 1 by lia. change (2 ^ 1) with 2.
      assert (0 < 2 ^ (53 - K)) by (apply pow2_pos; lia). lia. }
    rewrite HDN. replace (53 - (54 - K)) with (K - 1) by lia.
    assert (HNK : N * 2 ^ (K - 1) = 2 ^ 52).
    { rewrite Hm53 in Hm. rewrite (pow2_split 1 K) in Hm by lia.
      change (2 ^ 1) with 2 in Hm. change (2 ^ 53) with (2 * 2 ^ 52) in Hm. lia. }
    rewrite HNK. f_equal. unfold K. lia.
Qed.

(** When it does not, the float quotient is not an integer. *)
Lemma int_true_divide_inexact (c d : Z) :
  0 < c < 2 ^ 53 -> 1 <= d <= 9 -> c mod d <> 0 ->
  exists m e,
    Float64.int_true_divide c d = S754_finite false m e /\
    Float64.is_integer (S754_finite false m e) = false.
Proof.
  intros Hc Hd Hmod.
  destruct (int_true_divide_shape c d Hc Hd) as (q & s & n & m & Hsh & ->).
  assert (Hndiv : forall M, m <> M * 2 ^ (s - n)).
  { intros M HM. apply Hmod.
    rewrite (shape_divides c d q s n m M Hsh ltac:(lia) HM).
    rewrite Z.mul_comm. apply Z.mod_mul. lia. }
  destruct Hsh as [Hs Hn _ Hmant _].
  pose proof (Zdigits2_bounds d ltac:(lia)) as (HDd & _).
  set (K := s - n) in *.
  assert (HK0 : 0 <= K) by (unfold K; lia).
  destruct (m <? 2 ^ 53) eqn:Em; [apply Z.ltb_lt in Em | apply Z.ltb_ge in Em];
    eexists; eexists; (split; [reflexivity |]); unfold Float64.is_integer.
  - replace (n - s) with (- K) by (unfold K; lia).
    rewrite Z2Pos.id by lia. rewrite Z.opp_involutive.
    apply orb_false_iff. split.
    + apply Z.leb_gt.
      destruct (Z.eq_dec K 0) as [E0 | ]; [exfalso | lia].
      apply (Hndiv m). rewrite E0. change (2 ^ 0) with 1. lia.
    + apply Z.eqb_neq. intros H0.
      apply (Hndiv (m / 2 ^ K)).
      apply Z_div_exact_full_2 in H0; [lia |].
      assert (0 < 2 ^ K) by (apply pow2_pos; lia). lia.
  - assert (Hm53 : m = 2 ^ 53) by lia.
    assert (HK : 54 <= K).
    { destruct (Z_lt_le_dec K 54) as [H | H]; [exfalso | lia].
      apply (Hndiv (2 ^ (53 - K))).
      rewrite Hm53, (pow2_split K 53) by lia. ring. }
    replace (n - s + 1) with (- (K - 1)) by (unfold K; lia).
    rewrite Z.opp_involutive.
    apply orb_false_iff. split; [apply Z.leb_gt; lia |].
    apply Z.eqb_neq.
    rewrite Z.mod_small; [vm_compute; discriminate |].
    split; [vm_compute; discriminate |].
    change (Zpos (Z.to_pos (2 ^ 52))) with (2 ^ 52).
    apply Z.pow_lt_mono_r; lia.
Qed.

(** Both divisions round the same quotient: Python's on the integers, and
    the double division on their doubles. *)
Lemma int_true_divide_unfold (c d : Z) :
  0 < c < 2 ^ 53 -> 1 <= d <= 9 ->
  let s := 53 + Zdigits2 d - Zdigits2 c in
  Float64.int_true_divide c d =
  binary_round_aux Float64.prec Float64.emax false
    (c * 2 ^ s / d) (- s) (new_location d ((c * 2 ^ s) mod d)).
Proof.
  intros Hc Hd s.
  destruct (Zdigits2_bounds c ltac:(lia)) as (HDc1 & _).
  pose proof (Zdigits2_le_53 c Hc) as HDc2.
  destruct (Zdigits2_bounds d ltac:(lia)) as (HDd1 & _).
  assert (HDd2 : Zdigits2 d <= 4) by (apply Zdigits2_le_iff; simpl; lia).
  unfold Float64.int_true_divide.
  destruct c as [| pc | pc]; try lia.
  replace (Z.abs (Zpos pc)) with (Zpos pc) by reflexivity.
  replace (Z.abs d) with d by lia.
  replace (xorb (Zpos pc <? 0) (d <? 0)) with false
    by (replace (d <? 0) with false by (symmetry; apply Z.ltb_ge; lia); reflexivity).
  unfold SFdiv_core_binary.
  replace (Z.min (fexp Float64.prec Float64.emax
                    (Zdigits2 (Zpos pc) + 0 - (Zdigits2 d + 0))) (0 - 0))
    with (- s)
    by (unfold fexp, emin, Float64.prec, Float64.emax, s; lia).
  replace (0 - 0 - - s) with s by lia.
  assert (Hm' : match s with
                | 0 => Zpos pc
                | Zpos _ => Z.shiftl (Zpos pc) s
                | Zneg _ => 0
                end = Zpos pc * 2 ^ s).
  { assert (Hs : 0 < s) by (unfold s; lia).
    destruct s as [| ps | ps]; try lia.
    rewrite Z.shiftl_mul_pow2 by lia. reflexivity. }
  rewrite Hm'. unfold Z.div, Z.modulo.
  destruct (Z.div_eucl (Zpos pc * 2 ^ s) d). reflexivity.
Qed.

Lemma div_of_int_unfold (c d : Z) :
  0 < c < 2 ^ 53 -> 1 <= d <= 9 ->
  Float64.div (Float64.of_int c) (Float64.of_int d) = Float64.int_true_divide c d.
Proof.
  intros Hc Hd. rewrite (int_true_divide_unfold c d Hc Hd). cbv zeta.
  rewrite (of_int_normal c Hc), (of_int_normal d) by lia.
  destruct (Zdigits2_bounds c ltac:(lia)) as (HDc1 & Hclo & Hchi).
  pose proof (Zdigits2_le_53 c Hc) as HDc2.
  destruct (Zdigits2_bounds d ltac:(lia)) as (HDd1 & Hdlo & Hdhi).
  assert (HDd2 : Zdigits2 d <= 4) by (apply Zdigits2_le_iff; simpl; lia).
  set (Dc := Zdigits2 c) in *. set (Dd := Zdigits2 d) in *.
  set (s := 53 + Dd - Dc).
  assert (Hmx : 2 ^ 52 <= c * 2 ^ (53 - Dc) < 2 ^ 53).
  { rewrite (pow2_split (53 - Dc) 52), (pow2_split (53 - Dc) 53) by lia.
    replace (52 - (53 - Dc)) with (Dc - 1) by lia.
    replace (53 - (53 - Dc)) with Dc by lia.
    assert (0 < 2 ^ (53 - Dc)) by (apply pow2_pos; lia). nia. }
  assert (Hmy : 2 ^ 52 <= d * 2 ^ (53 - Dd) < 2 ^ 53).
  { rewrite (pow2_split (53 - Dd) 52), (pow2_split (53 - Dd) 53) by lia.
    replace (52 - (53 - Dd)) with (Dd - 1) by lia.
    replace (53 - (53 - Dd)) with Dd by lia.
    assert (0 < 2 ^ (53 - Dd)) by (apply pow2_pos; lia). nia. }
  unfold Float64.div, SFdiv, SFdiv_core_binary. cbn [xorb].
  rewrite !Z2Pos.id by lia.
  assert (HDx : Zdigits2 (c * 2 ^ (53 - Dc)) = 53)
    by (apply Zdigits2_eq; [lia | change (53 - 1) with 52; lia]).
  assert (HDy : Zdigits2 (d * 2 ^ (53 - Dd)) = 53)
    by (apply Zdigits2_eq; [lia | change (53 - 1) with 52; lia]).
  rewrite HDx, HDy.
  replace (Z.min (fexp Float64.prec Float64.emax (53 + (Dc - 53) - (53 + (Dd - 53))))
                 (Dc - 53 - (Dd - 53)))
    with (- s)
    by (unfold fexp, emin, Float64.prec, Float64.emax, s; lia).
  replace (Dc - 53 - (Dd - 53) - - s) with 53 by (unfold s; lia).
  cbv iota. rewrite Z.shiftl_mul_pow2 by lia.
  set (k := 2 ^ (53 - Dd)).
  assert (Hk : 0 < k) by (apply pow2_pos; lia).
  assert (Hnum : c * 2 ^ (53 - Dc) * 2 ^ 53 = c * 2 ^ s * k).
  { unfold k, s. rewrite <- !Z.mul_assoc, <- !Z.pow_add_r by lia.
    do 2 f_equal. lia. }
  rewrite Hnum.
  assert (Heu : Z.div_eucl (c * 2 ^ s * k) (d * k) =
                (c * 2 ^ s / d, (c * 2 ^ s) mod d * k)).
  { rewrite <- (Z.div_mul_cancel_r (c * 2 ^ s) d k) by lia.
    rewrite <- (Z.mul_mod_distr_r (c * 2 ^ s) d k) by lia.
    unfold Z.div, Z.modulo.
    destruct (Z.div_eucl (c * 2 ^ s * k) (d * k)). reflexivity. }
  rewrite Heu. f_equal.
  pose proof (Z.mod_pos_bound (c * 2 ^ s) d ltac:(lia)) as Hr.
  set (r := (c * 2 ^ s) mod d) in *.
  rewrite (new_location_spec (d * k) (r * k)), (new_location_spec d r) by nia.
  replace (r * k =? 0) with (r =? 0).
  - destruct (r =? 0); [reflexivity |]. f_equal.
    destruct (Z.compare_spec (2 * (r * k)) (d * k)), (Z.compare_spec (2 * r) d);
      try reflexivity; nia.
  - destruct (Z.eqb_spec r 0) as [-> | Hne]; [reflexivity |].
    symmetry. apply Z.eqb_neq. nia.
Qed.

(** ** Doubles of small integers *)

Lemma of_int_0 : Float64.of_int 0 = S754_zero false.
Proof. reflexivity. Qed.

Lemma is_integer_of_int (n : Z) :
  0 <= n < 2 ^ 53 -> Float64.is_integer (Float64.of_int n) = true.
Proof.
  intros Hn. destruct (Z.eq_dec n 0) as [-> | Hne]; [reflexivity |].
  rewrite of_int_normal by lia.
  destruct (Zdigits2_bounds n ltac:(lia)) as (HD1 & _).
  pose proof (Zdigits2_le_53 n ltac:(lia)) as HD2.
  unfold Float64.is_integer. apply orb_true_iff. right.
  assert (0 < 2 ^ (53 - Zdigits2 n)) by (apply pow2_pos; lia).
  rewrite Z2Pos.id by nia.
  replace (- (Zdigits2 n - 53)) with (53 - Zdigits2 n) by lia.
  apply Z.eqb_eq. apply Z.mod_mul. lia.
Qed.

Lemma eq_int_of_int (n : Z) : 0 <= n < 2 ^ 53 -> eq_int (Float64.of_int n) = Ok true.
Proof.
  intros Hn. pose proof (is_integer_of_int n Hn) as H.
  destruct (Z.eq_dec n 0) as [-> | Hne]; [reflexivity |].
  rewrite of_int_normal in * by lia. unfold eq_int. rewrite H. reflexivity.
Qed.

Lemma one_normal : Float64.one = S754_finite false 4503599627370496 (-52).
Proof. reflexivity. Qed.

Lemma eqb_one_inv (y : float) :
  Float64.eqb y Float64.one = true -> y = Float64.one.
Proof.
  rewrite one_normal. unfold Float64.eqb, SFeqb, SFcompare.
  destruct y as [s | s | | s m e]; try (intros H; discriminate H).
  - destruct s; intros H; discriminate H.
  - destruct s; [intros H; discriminate H |].
    destruct (Z.compare_spec e (-52)) as [-> | _ | _];
      try (intros H; discriminate H).
    destruct (Pos.compare_cont Eq m 4503599627370496) eqn:C;
      try (intros H; discriminate H).
    intros _. apply (Pos.compare_eq m) in C. rewrite C. reflexivity.
Qed.

Lemma eqb_of_int_one (n : Z) :
  0 <= n < 2 ^ 53 -> Float64.eqb (Float64.of_int n) Float64.one = (n =? 1).
Proof.
  intros Hn. destruct (Z.eqb_spec n 1) as [-> | Hne]; [reflexivity |].
  apply not_true_is_false. intros H. apply eqb_one_inv in H.
  destruct (Z.eq_dec n 0) as [-> | Hn0]; [discriminate H |].
  rewrite of_int_normal, one_normal in H by lia.
  injection H as Hm He.
  assert (HD : Zdigits2 n = 1) by lia.
  destruct (Zdigits2_bounds n ltac:(lia)) as (_ & _ & Hhi).
  rewrite HD in Hhi. change (2 ^ 1) with 2 in Hhi. lia.
Qed.

Lemma fractional_eq_int (y : float) : fractional y -> eq_int y = Ok false.
Proof. intros (m & e & -> & H). unfold eq_int. rewrite H. reflexivity. Qed.

Lemma fractional_ne_one (y : float) :
  fractional y -> Float64.eqb y Float64.one = false.
Proof.
  intros (m & e & -> & H). apply not_true_is_false. intros E.
  apply eqb_one_inv in E. rewrite E in H. discriminate H.
Qed.

(** The float quotient of a small integer by a digit *)
Lemma div_of_int_exact (n d : Z) :
  0 <= n < 2 ^ 53 -> 1 <= d <= 9 -> n mod d = 0 ->
  Float64.div (Float64.of_int n) (Float64.of_int d) = Float64.of_int (n / d).
Proof.
  intros Hn Hd Hmod. destruct (Z.eq_dec n 0) as [-> | Hne].
  - rewrite Z.div_0_l by lia. rewrite of_int_0.
    destruct (of_int_digit d Hd) as (m & e & ->). reflexivity.
  - rewrite div_of_int_unfold by lia. apply int_true_divide_exact; lia.
Qed.

Lemma div_of_int_inexact (n d : Z) :
  0 <= n < 2 ^ 53 -> 1 <= d <= 9 -> n mod d <> 0 ->
  fractional (Float64.div (Float64.of_int n) (Float64.of_int d)).
Proof.
  intros Hn Hd Hmod.
  assert (Hne : n <> 0) by (intros ->; apply Hmod; apply Z.mod_0_l; lia).
  rewrite div_of_int_unfold by lia.
  destruct (int_true_divide_inexact n d ltac:(lia) Hd Hmod) as (m & e & E & H).
  exists m, e. rewrite E. split; [reflexivity | exact H].
Qed.

(** The divisibility test of [fill_row] is exact below [2 ^ 53]. *)
Lemma truediv_is_integer (product : num) (d : Z) :
  0 <= num_val product < 2 ^ 53 -> 1 <= d <= 9 ->
  exists q,
    truediv product d = Ok q /\
    Float64.is_integer q = (num_val product mod d =? 0).
Proof.
  intros Hp Hd.
  assert (Hdiv : exists q,
             Float64.div (Float64.of_int (num_val product)) (Float64.of_int d) = q /\
             (forall s, q <> S754_infinity s) /\
             Float64.is_integer q = (num_val product mod d =? 0)).
  { destruct (Z.eqb_spec (num_val product mod d) 0) as [E | E].
    - rewrite div_of_int_exact by assumption.
      assert (Hq : 0 <= num_val product / d < 2 ^ 53).
      { split; [apply Z.div_pos; lia |].
        apply Z.div_lt_upper_bound; [lia | nia]. }
      eexists. split; [reflexivity |]. split.
      + intros s. destruct (Z.eq_dec (num_val product / d) 0) as [-> | Hne];
          [discriminate |].
        rewrite of_int_normal by lia. discriminate.
      + apply is_integer_of_int. exact Hq.
    - destruct (div_of_int_inexact _ _ Hp Hd E) as (m & e & -> & H).
      eexists. split; [reflexivity |]. split; [discriminate | exact H]. }
  destruct Hdiv as (q & Hq & Hfin & Hint).
  destruct product as [z | z]; cbn [num_val truediv] in *.
  - assert (Hq' : Float64.int_true_divide z d = q).
    { destruct (Z.eq_dec z 0) as [-> | Hne].
      - rewrite <- Hq. rewrite of_int_0.
        destruct (of_int_digit d Hd) as (m & e & ->).
        unfold Float64.int_true_divide.
        replace (d <? 0) with false by (symmetry; apply Z.ltb_ge; lia). reflexivity.
      - rewrite <- Hq. symmetry. apply div_of_int_unfold; lia. }
    rewrite Hq'. exists q. split; [| exact Hint].
    destruct q; try reflexivity. exfalso. exact (Hfin s eq_refl).
  - exists q. rewrite Hq. split; [reflexivity | exact Hint].
Qed.

(** X5: For a product from 0 to [2 ^ 53 - 1] and a digit [d] from 1 to 9,
    the test [(product / d).is_integer()] of [fill_row] raises nothing and
    is true exactly when [d] divides [product]. *)
Theorem digit_test_exact_below_2_53 (product : num) (d : Z) :
  0 <= num_val product < 2 ^ 53 -> 1 <= d <= 9 ->
  exists q,
    truediv product d = Ok q /\
    Float64.is_integer q = (num_val product mod d =? 0).
Proof. exact (truediv_is_integer product d). Qed.

Lemma digit_test_exact_below_2_53_witness :
  exists q,
    truediv (PyInt (2 ^ 53 - 1)) 7 = Ok q /\
    Float64.is_integer q = (num_val (PyInt (2 ^ 53 - 1)) mod 7 =? 0).
Proof.
  apply (digit_test_exact_below_2_53 (PyInt (2 ^ 53 - 1)) 7).
  - split; [vm_compute; discriminate | vm_compute; reflexivity].
  - lia.
Defined.

(** ** The row enumerator below [2 ^ 53] *)

Lemma num_val_floordiv (product : num) (d : Z) :
  num_val (floordiv product d) = num_val product / d.
Proof. destruct product; reflexivity. Qed.

Lemma small_fits_float (product : num) :
  0 <= num_val product < 2 ^ 53 -> fits_float product.
Proof.
  destruct product as [z | z]; simpl; intros Hz; [| exact I].
  assert (2 ^ 53 < 2 ^ 1023) by (apply Z.pow_lt_mono_r; lia). lia.
Qed.

Lemma fill_row_exact :
  forall k product,
    0 <= num_val product < 2 ^ 53 ->
    exists rows,
      fill_row product k = Ok rows /\
      forall row,
        In row rows <->
        length row = k /\ Forall (fun d => 1 <= d <= 9) row /\
        product_of row = num_val product.
Proof.
  induction k as [| k IH]; intros product Hp.
  - eexists. split; [reflexivity |]. intros row. unfold eq_one.
    destruct (Z.eqb_spec (num_val product) 1) as [E | E]; split.
    + intros [<- | []]. repeat split; [constructor | symmetry; exact E].
    + intros (Hlen & _ & _). destruct row; [left; reflexivity | discriminate Hlen].
    + intros [].
    + intros (Hlen & _ & Hprod). destruct row; [| discriminate Hlen].
      simpl in Hprod. congruence.
  - destruct (fill_row_Ok (S k) product (small_fits_float product Hp)) as (rows & H).
    exists rows. split; [exact H |]. intros row. split.
    + intros Hin.
      destruct (fill_row_In_inv _ _ _ _ H Hin)
        as (d & q & rests & rest & Hd & Hq & Hi & Hr & Hrest & ->).
      apply range_1_10_spec in Hd.
      destruct (truediv_is_integer product d Hp Hd) as (q' & Hq' & Hi').
      rewrite Hq in Hq'. injection Hq' as <-. rewrite Hi in Hi'.
      symmetry in Hi'. apply Z.eqb_eq in Hi'.
      assert (Hfd : 0 <= num_val (floordiv product d) < 2 ^ 53).
      { rewrite num_val_floordiv. split; [apply Z.div_pos; lia |].
        apply Z.div_lt_upper_bound; [lia | nia]. }
      destruct (IH (floordiv product d) Hfd) as (rests' & Hr' & Hspec).
      rewrite Hr in Hr'. injection Hr' as <-.
      apply Hspec in Hrest as (Hlen & Hdig & Hprod).
      repeat split.
      * simpl. congruence.
      * constructor; assumption.
      * simpl. rewrite Hprod, num_val_floordiv.
        symmetry. apply Z_div_exact_full_2; lia.
    + intros (Hlen & Hdig & Hprod).
      destruct row as [| d rest]; [discriminate Hlen |].
      inversion Hdig as [| ? ? Hd Hrest]; subst.
      simpl in Hprod.
      assert (Hmod : num_val product mod d = 0)
        by (rewrite <- Hprod, Z.mul_comm; apply Z.mod_mul; lia).
      assert (Hquo : num_val product / d = product_of rest)
        by (rewrite <- Hprod, Z.mul_comm; apply Z.div_mul; lia).
      destruct (truediv_is_integer product d Hp Hd) as (q & Hq & Hi).
      rewrite Hmod in Hi. change (0 =? 0) with true in Hi.
      destruct (fill_row_In_intro product k rows d q H
                  (proj2 (range_1_10_spec d) Hd) Hq Hi) as (rests & Hr & Hintro).
      apply Hintro.
      assert (Hfd : 0 <= num_val (floordiv product d) < 2 ^ 53).
      { rewrite num_val_floordiv. split; [apply Z.div_pos; lia |].
        apply Z.div_lt_upper_bound; [lia | nia]. }
      destruct (IH (floordiv product d) Hfd) as (rests' & Hr' & Hspec).
      rewrite Hr in Hr'. injection Hr' as <-.
      apply Hspec. repeat split.
      * simpl in Hlen. lia.
      * exact Hrest.
      * rewrite num_val_floordiv. symmetry. exact Hquo.
Qed.

(** X1: For a product from 0 to [2 ^ 53 - 1], [fill_row product k] returns
    the set of all rows of [k] digits from 1 to 9 whose product is
    [product], each of them once. *)
Theorem fill_row_exact_below_2_53 :
  forall k product,
    0 <= num_val product < 2 ^ 53 ->
    exists rows,
      fill_row product k = Ok rows /\
      NoDup rows /\
      forall row,
        In row rows <->
        length row = k /\ Forall (fun d => 1 <= d <= 9) row /\
        product_of row = num_val product.
Proof.
  intros k product Hp. destruct (fill_row_exact k product Hp) as (rows & H & Hspec).
  exists rows. split; [exact H |]. split; [| exact Hspec].
  exact (fill_row_NoDup product k rows H).
Qed.

Lemma fill_row_exact_below_2_53_witness :
  exists rows,
    fill_row (PyInt 210) 3 = Ok rows /\
    NoDup rows /\
    forall row,
      In row rows <->
      length row = 3%nat /\ Forall (fun d => 1 <= d <= 9) row /\
      product_of row = num_val (PyInt 210).
Proof.
  apply (fill_row_exact_below_2_53 3 (PyInt 210)).
  split; [vm_compute; discriminate | vm_compute; reflexivity].
Defined.

(** ** What a solution is, row by row *)

Lemma quotients_length (ns : list Z) (row : Row) :
  length row = length ns -> length (quotients ns row) = length ns.
Proof.
  intros H. unfold quotients. rewrite length_map, length_combine. lia.
Qed.

Lemma quotients_nth (ns : list Z) (row : Row) (c : nat) :
  length row = length ns ->
  nth c (quotients ns row) 0 = nth c ns 0 / nth c row 0.
Proof.
  intros H. unfold quotients.
  change 0 with ((fun nd : Z * Z => fst nd / snd nd) (0, 0)) at 1.
  rewrite map_nth, combine_nth by (symmetry; exact H). reflexivity.
Qed.

Lemma divisible_nth (ns : list Z) (row : Row) :
  length row = length ns ->
  (divisible ns row = true <->
   forall c, (c < length ns)%nat -> nth c ns 0 mod nth c row 0 = 0).
Proof.
  intros Hlen. unfold divisible. rewrite forallb_forall. split.
  - intros H c Hc. apply Z.eqb_eq.
    specialize (H (nth c (combine ns row) (0, 0))).
    rewrite combine_nth in H by (symmetry; exact Hlen). apply H.
    rewrite <- combine_nth by (symmetry; exact Hlen).
    apply nth_In. rewrite length_combine. unfold Row, Digit in *. lia.
  - intros H [n d] Hin. apply Z.eqb_eq.
    apply (In_nth _ _ (0, 0)) in Hin as (c & Hc & E).
    rewrite length_combine in Hc.
    rewrite combine_nth in E by (symmetry; exact Hlen).
    injection E as <- <-. apply H. unfold Row, Digit in *. lia.
Qed.

Lemma satisfies_spec (table : Table) (rps cps : list Z) :
  satisfies table rps cps = true <->
  length table = length rps /\
  Forall (fun row => length row = length cps /\ Forall (fun d => 1 <= d <= 9) row) table /\
  (forall row r, In (row, r) (combine table rps) -> product_of row = r) /\
  (forall c, (c < length cps)%nat ->
             product_of (map (fun r => nth c r 0) table) = nth c cps 0).
Proof.
  unfold satisfies. rewrite !andb_true_iff, Nat.eqb_eq, !forallb_forall.
  rewrite Forall_forall.
  split.
  - intros (((Hlen & Hshape) & Hprod) & Hcol).
    split; [exact Hlen |]. split; [| split].
    + intros row Hrow. specialize (Hshape row Hrow).
      apply andb_true_iff in Hshape as [Hl Hd]. split.
      * apply Nat.eqb_eq. exact Hl.
      * rewrite forallb_forall in Hd. apply Forall_forall. intros d Hin.
        specialize (Hd d Hin). unfold is_digit in Hd.
        apply andb_true_iff in Hd as [H1 H2].
        apply Z.leb_le in H1. apply Z.leb_le in H2. lia.
    + intros row r Hin. apply Z.eqb_eq. exact (Hprod (row, r) Hin).
    + intros c Hc. apply Z.eqb_eq. apply Hcol. apply in_seq. lia.
  - intros (Hlen & Hshape & Hprod & Hcol). repeat split.
    + exact Hlen.
    + intros row Hin. destruct (Hshape row Hin) as [Hl Hd].
      apply andb_true_iff. split; [apply Nat.eqb_eq; exact Hl |].
      apply forallb_forall. intros d Hdin.
      rewrite Forall_forall in Hd. specialize (Hd d Hdin). unfold is_digit.
      apply andb_true_iff. split; apply Z.leb_le; lia.
    + intros [row r] Hin. apply Z.eqb_eq. exact (Hprod row r Hin).
    + intros c Hc. apply Z.eqb_eq. apply Hcol. apply in_seq in Hc. lia.
Qed.

Lemma all_ones_nth (cps : list Z) :
  forallb (fun c => c =? 1) cps = true <->
  forall c, (c < length cps)%nat -> 1 = nth c cps 0.
Proof.
  rewrite forallb_forall. split.
  - intros H c Hc. symmetry. apply Z.eqb_eq. apply H. apply nth_In. exact Hc.
  - intros H x Hin. apply (In_nth _ _ 0) in Hin as (c & Hc & <-).
    apply Z.eqb_eq. symmetry. apply H. exact Hc.
Qed.

Lemma satisfies_no_rows (table : Table) (cps : list Z) :
  satisfies table [] cps = true <->
  table = [] /\ forallb (fun c => c =? 1) cps = true.
Proof.
  rewrite satisfies_spec, all_ones_nth. split.
  - intros (Hlen & _ & _ & Hcol). destruct table; [| discriminate Hlen].
    split; [reflexivity | exact Hcol].
  - intros (-> & Hcol). repeat split; [constructor | intros ? ? [] | exact Hcol].
Qed.

Lemma satisfies_no_table (r : Z) (rps cps : list Z) :
  satisfies [] (r :: rps) cps = false.
Proof. reflexivity. Qed.

Lemma satisfies_cons (row : Row) (table : Table) (r : Z) (rps cps : list Z) :
  satisfies (row :: table) (r :: rps) cps = true <->
  length row = length cps /\ Forall (fun d => 1 <= d <= 9) row /\
  product_of row = r /\ divisible cps row = true /\
  satisfies table rps (quotients cps row) = true.
Proof.
  rewrite !satisfies_spec. split.
  - intros (Hlen & Hshape & Hprod & Hcol).
    inversion Hshape as [| ? ? [Hrl Hrd] Hshape']; subst.
    assert (Hdig : forall c, (c < length cps)%nat -> 1 <= nth c row 0 <= 9).
    { intros c Hc. rewrite Forall_forall in Hrd. apply Hrd. apply nth_In. unfold Row, Digit in *. lia. }
    assert (Hcol' : forall c, (c < length cps)%nat ->
               nth c row 0 * product_of (map (fun r => nth c r 0) table) =
               nth c cps 0)
      by (intros c Hc; exact (Hcol c Hc)).
    split; [exact Hrl |]. split; [exact Hrd |].
    split; [apply Hprod; left; reflexivity |].
    split.
    + apply divisible_nth; [exact Hrl |]. intros c Hc.
      rewrite <- (Hcol' c Hc), Z.mul_comm. apply Z.mod_mul.
      specialize (Hdig c Hc). lia.
    + rewrite quotients_length by exact Hrl. repeat split.
      * simpl in Hlen. lia.
      * exact Hshape'.
      * intros row' r' Hin. apply Hprod. right. exact Hin.
      * intros c Hc. rewrite quotients_nth by exact Hrl.
        rewrite <- (Hcol' c Hc), Z.mul_comm. symmetry. apply Z.div_mul.
        specialize (Hdig c Hc). lia.
  - intros (Hrl & Hrd & Hr & Hdiv & Hlen & Hshape & Hprod & Hcol).
    rewrite quotients_length in * by exact Hrl.
    assert (Hdig : forall c, (c < length cps)%nat -> 1 <= nth c row 0 <= 9).
    { intros c Hc. rewrite Forall_forall in Hrd. apply Hrd. apply nth_In. unfold Row, Digit in *. lia. }
    repeat split.
    + simpl. lia.
    + constructor; [split; assumption | exact Hshape].
    + intros row' r' [E | Hin]; [injection E as <- <-; exact Hr | exact (Hprod _ _ Hin)].
    + intros c Hc. simpl. rewrite (Hcol c Hc), quotients_nth by exact Hrl.
      apply (proj1 (divisible_nth cps row Hrl)) with (c := c) in Hdiv; [| exact Hc].
      symmetry. apply Z_div_exact_full_2; [| exact Hdiv].
      specialize (Hdig c Hc). lia.
Qed.

Lemma satisfies_cons_nil (row : Row) (table : Table) (cps : list Z) :
  satisfies (row :: table) [] cps = false.
Proof. reflexivity. Qed.

(** ** The column products during the search *)

Lemma small_stale (ns : list Z) : small ns -> Forall stale (map Float64.of_int ns).
Proof.
  induction 1 as [| n ns Hn _ IH]; simpl; constructor; [| exact IH].
  left. exists n. split; [exact Hn | reflexivity].
Qed.

Lemma float_quotients :
  forall (ns : list Z) (row : Row),
    small ns -> Forall (fun d => 1 <= d <= 9) row -> length row = length ns ->
    if divisible ns row
    then map float_quotient (combine ns row) = map Float64.of_int (quotients ns row) /\
         small (quotients ns row)
    else Forall stale (map float_quotient (combine ns row)) /\
         Exists fractional (map float_quotient (combine ns row)).
Proof.
  induction ns as [| n ns IH]; intros row Hsmall Hrow Hlen.
  - simpl. split; constructor.
  - destruct row as [| d row]; [discriminate Hlen |].
    inversion Hsmall as [| ? ? Hn Hsmall']; subst.
    inversion Hrow as [| ? ? Hd Hrow']; subst.
    specialize (IH row Hsmall' Hrow' ltac:(simpl in Hlen; lia)).
    unfold divisible, quotients in *. cbn [combine map forallb fst snd].
    fold (divisible ns row) in *. fold (quotients ns row) in *.
    assert (Hq : 0 <= n / d < 2 ^ 53).
    { split; [apply Z.div_pos; lia |]. apply Z.div_lt_upper_bound; [lia | nia]. }
    assert (Htail : Forall stale (map float_quotient (combine ns row))).
    { destruct (divisible ns row); [| exact (proj1 IH)].
      destruct IH as [-> Hs]. apply small_stale. exact Hs. }
    destruct (Z.eqb_spec (n mod d) 0) as [E | E]; cbn [andb].
    + assert (Hhead : float_quotient (n, d) = Float64.of_int (n / d))
        by (apply div_of_int_exact; assumption).
      destruct (divisible ns row).
      * destruct IH as [-> Hs]. rewrite Hhead.
        split; [reflexivity | constructor; assumption].
      * destruct IH as [_ Hex]. split; [| right; exact Hex].
        constructor; [| exact Htail]. left. exists (n / d). auto.
    + assert (Hhead : fractional (float_quotient (n, d)))
        by (apply div_of_int_inexact; assumption).
      split; [constructor; [right; exact Hhead | exact Htail] | left; exact Hhead].
Qed.

Lemma combine_map_l (A B C : Type) (f : A -> B) (xs : list A) (ys : list C) :
  combine (map f xs) ys = map (fun p => (f (fst p), snd p)) (combine xs ys).
Proof.
  revert ys. induction xs as [| x xs IH]; intros [| y ys]; simpl; try reflexivity.
  rewrite IH. reflexivity.
Qed.

Lemma divide_holds (cols : Products) (ns : list Z) (row : Row) :
  holds cols ns -> small ns ->
  divide cols row = Ok (FloatArray (map float_quotient (combine ns row))).
Proof.
  intros [-> | ->] Hsmall; unfold divide.
  - assert (Hfit : forallb fits_c_integer ns = true).
    { apply forallb_forall. intros n Hin.
      unfold small in Hsmall. rewrite Forall_forall in Hsmall.
      specialize (Hsmall n Hin). unfold fits_c_integer.
      assert (2 ^ 53 < 2 ^ 64) by (apply Z.pow_lt_mono_r; lia).
      apply andb_true_iff. split; [apply Z.leb_le | apply Z.ltb_lt]; lia. }
    rewrite Hfit. reflexivity.
  - rewrite combine_map_l, map_map. reflexivity.
Qed.

Lemma holds_len (cols : Products) (ns : list Z) :
  holds cols ns -> len cols = length ns.
Proof. intros [-> | ->]; simpl; [reflexivity | apply length_map]. Qed.

Lemma all_eq_int_small (ns : list Z) :
  small ns -> all_eq_int (map Float64.of_int ns) = Ok true.
Proof.
  induction 1 as [| n ns Hn _ IH]; simpl; [reflexivity |].
  rewrite (eq_int_of_int n Hn). simpl. exact IH.
Qed.

Lemma stale_not_both (n : Z) :
  0 <= n < 2 ^ 53 -> ~ fractional (Float64.of_int n).
Proof.
  intros Hn (m & e & _ & H). rewrite (is_integer_of_int n Hn) in H. discriminate H.
Qed.

Lemma all_eq_int_dead (ys : list float) :
  Forall stale ys -> Exists fractional ys -> all_eq_int ys = Ok false.
Proof.
  induction 1 as [| y ys Hy _ IH]; intros Hex; [inversion Hex |].
  simpl. destruct Hy as [(n & Hn & ->) | Hy].
  - rewrite (eq_int_of_int n Hn). simpl. apply IH.
    inversion Hex as [? ? H | ? ? H]; subst; [| exact H].
    exfalso. exact (stale_not_both n Hn H).
  - rewrite (fractional_eq_int y Hy). reflexivity.
Qed.

Lemma holds_all_integral (cols : Products) (ns : list Z) :
  holds cols ns -> small ns -> all_integral cols = Ok true.
Proof.
  intros [-> | ->] Hsmall; simpl; [reflexivity | apply all_eq_int_small; exact Hsmall].
Qed.

Lemma holds_all_one (cols : Products) (ns : list Z) :
  holds cols ns -> small ns -> all_one cols = forallb (fun n => n =? 1) ns.
Proof.
  intros [-> | ->] Hsmall; simpl; [reflexivity |].
  induction Hsmall as [| n ns Hn _ IH]; simpl; [reflexivity |].
  rewrite (eqb_of_int_one n Hn), IH. reflexivity.
Qed.

Lemma dead_nothing (order : SetOrder) (rows : list num) (cols : Products) :
  dead cols -> solutions_from order rows cols = gen_return.
Proof.
  intros (ys & -> & Hst & Hex). destruct rows as [| r rows].
  - simpl.
    assert (H : forallb (fun c => Float64.eqb c Float64.one) ys = false).
    { apply not_true_is_false. intros Hall. rewrite forallb_forall in Hall.
      apply Exists_exists in Hex as (y & Hin & Hy).
      specialize (Hall y Hin). cbv beta in Hall.
      rewrite (fractional_ne_one y Hy) in Hall. discriminate Hall. }
    rewrite H. reflexivity.
  - rewrite solutions_from_cons. simpl all_integral.
    rewrite (all_eq_int_dead ys Hst Hex). reflexivity.
Qed.

(** ** The solver below [2 ^ 53] *)

Lemma solutions_from_exact (order : SetOrder) :
  forall rows cols ns,
    Forall (fun r => 0 <= num_val r < 2 ^ 53) rows ->
    holds cols ns -> small ns ->
    raised (solutions_from order rows cols) = None /\
    forall table,
      In table (yielded (solutions_from order rows cols)) <->
      satisfies table (map num_val rows) ns = true.
Proof.
  induction rows as [| r rows IH]; intros cols ns Hrows Hcols Hsmall.
  - simpl. rewrite (holds_all_one cols ns Hcols Hsmall).
    destruct (forallb (fun n => n =? 1) ns) eqn:Hall;
      (split; [reflexivity |]); intros table; rewrite satisfies_no_rows, Hall; simpl.
    + split; [intros [<- | []]; auto | intros [-> _]; auto].
    + split; [intros [] | intros [_ H]; discriminate H].
  - inversion Hrows as [| ? ? Hr Hrows']; subst.
    rewrite solutions_from_cons.
    rewrite (holds_all_integral cols ns Hcols Hsmall), (holds_len cols ns Hcols).
    destruct (fill_row_exact (length ns) r Hr) as (candidates & -> & Hcand).
    (* what one candidate first row contributes *)
    assert (Hbody : forall row1,
               In row1 candidates ->
               raised (with_first_row order rows cols row1) = None /\
               forall table,
                 In table (yielded (with_first_row order rows cols row1)) <->
                 exists rest,
                   table = row1 :: rest /\ divisible ns row1 = true /\
                   satisfies rest (map num_val rows) (quotients ns row1) = true).
    { intros row1 Hin. apply Hcand in Hin as (Hlen & Hdig & _).
      unfold with_first_row. rewrite (divide_holds cols ns row1 Hcols Hsmall).
      pose proof (float_quotients ns row1 Hsmall Hdig Hlen) as Hq.
      destruct (divisible ns row1).
      - destruct Hq as [Hq Hs].
        destruct (IH (FloatArray (map float_quotient (combine ns row1)))
                     (quotients ns row1) Hrows'
                     ltac:(right; rewrite Hq; reflexivity) Hs) as [Hret Hyield].
        split; [exact Hret |]. intros table. simpl. rewrite in_map_iff. split.
        + intros (rest & <- & Hrest). exists rest. apply Hyield in Hrest. auto.
        + intros (rest & -> & _ & Hrest). exists rest.
          split; [reflexivity | apply Hyield; exact Hrest].
      - rewrite dead_nothing
          by (exists (map float_quotient (combine ns row1)); split; [reflexivity | exact Hq]).
        split; [reflexivity |]. intros table. simpl. split; [intros [] |].
        intros (rest & _ & H & _). discriminate H. }
    assert (Hret : raised (for_each (order candidates)
                             (with_first_row order rows cols)) = None).
    { apply for_each_returns. intros row1 Hin. apply Hbody.
      apply (Permutation_in _ (iter_perm order candidates)). exact Hin. }
    split; [exact Hret |]. intros table.
    rewrite (for_each_returns_yielded _ _ _ _ Hret), in_flat_map. split.
    + intros (row1 & Hin & Hy).
      apply (Permutation_in _ (iter_perm order candidates)) in Hin.
      apply (Hbody row1 Hin) in Hy as (rest & -> & Hdiv & Hrest).
      apply Hcand in Hin as (Hlen & Hdig & Hprod).
      simpl map. apply satisfies_cons. auto.
    + intros Hsat. destruct table as [| row1 rest]; [discriminate Hsat |].
      simpl map in Hsat. apply satisfies_cons in Hsat as (Hlen & Hdig & Hprod & Hdiv & Hrest).
      assert (Hin : In row1 candidates) by (apply Hcand; auto).
      exists row1. split.
      * apply (Permutation_in _ (Permutation_sym (iter_perm order candidates))).
        exact Hin.
      * apply (Hbody row1 Hin). exists rest. auto.
Qed.

(** Products written out, each from 0 to [2 ^ 53 - 1] *)
Ltac small_products :=
  repeat (apply Forall_cons;
          [split; [vm_compute; discriminate | vm_compute; reflexivity] |]);
  apply Forall_nil.

(** X2: for a puzzle whose products are all from 0 to [2 ^ 53 - 1], the
    search ends without an exception and yields exactly the tables that
    satisfy the puzzle, under every iteration order of the sets. *)
Theorem solutions_exact_below_2_53 :
  forall order (rows : list num) (cps : list Z),
    Forall (fun r => 0 <= num_val r < 2 ^ 53) rows ->
    Forall (fun c => 0 <= c < 2 ^ 53) cps ->
    raised (solutions order (mkPuzzle rows (IntList cps))) = None /\
    forall table,
      In table (yielded (solutions order (mkPuzzle rows (IntList cps)))) <->
      satisfies table (map num_val rows) cps = true.
Proof.
  intros order rows cps Hrows Hcps. unfold solutions. cbn [row_prods col_prods].
  apply solutions_from_exact; [exact Hrows | left; reflexivity | exact Hcps].
Qed.

Lemma solutions_exact_below_2_53_witness :
  raised (solutions reverse_order riddler_puzzle) = None /\
  forall table,
    In table (yielded (solutions reverse_order riddler_puzzle)) <->
    satisfies table [210; 144; 54; 135; 4; 49] [6615; 15552; 420] = true.
Proof.
  apply (solutions_exact_below_2_53 reverse_order
           (map PyInt [210; 144; 54; 135; 4; 49]) [6615; 15552; 420]).
  - cbn [map]. small_products.
  - small_products.
Defined.

(** X9: for a puzzle whose products are all from 0 to [2 ^ 53 - 1], [solve]
    raises nothing; the table it returns satisfies the puzzle, and it
    returns the no-solution result only when no table does. *)
Theorem solve_exact_below_2_53 :
  forall order (rows : list num) (cps : list Z),
    Forall (fun r => 0 <= num_val r < 2 ^ 53) rows ->
    Forall (fun c => 0 <= c < 2 ^ 53) cps ->
    exists r,
      solve order (mkPuzzle rows (IntList cps)) = Ok r /\
      match r with
      | Some table => satisfies table (map num_val rows) cps = true
      | None => forall table, satisfies table (map num_val rows) cps = false
      end.
Proof.
  intros order rows cps Hrows Hcps.
  destruct (solutions_from_exact order rows (IntList cps) cps Hrows
              (or_introl eq_refl) Hcps) as [Hret Hy].
  unfold solve. rewrite next_spec. unfold solutions. cbn [row_prods col_prods].
  rewrite Hret.
  destruct (yielded (solutions_from order rows (IntList cps))) as [| t ts] eqn:E.
  - exists None. split; [reflexivity |]. intros table.
    destruct (satisfies table (map num_val rows) cps) eqn:Hs; [| reflexivity].
    apply Hy in Hs. destruct Hs.
  - exists (Some t). split; [reflexivity |]. apply Hy. left. reflexivity.
Qed.

Lemma solve_exact_below_2_53_witness :
  exists r,
    solve insertion_order (py_puzzle [12; 12] [12; 12]) = Ok r /\
    match r with
    | Some table => satisfies table [12; 12] [12; 12] = true
    | None => forall table, satisfies table [12; 12] [12; 12] = false
    end.
Proof.
  apply (solve_exact_below_2_53 insertion_order (map PyInt [12; 12]) [12; 12]).
  - cbn [map]. small_products.
  - small_products.
Defined.

(** ** Well-formedness below [2 ^ 53] *)

Lemma NoDup_all_equal (A : Type) (a : A) (xs : list A) :
  NoDup xs -> In a xs -> (forall x, In x xs -> x = a) -> xs = [a].
Proof.
  intros Hnd Hin Hall. destruct xs as [| x xs]; [destruct Hin |].
  assert (x = a) as -> by (apply Hall; left; reflexivity).
  destruct xs as [| y ys]; [reflexivity | exfalso].
  assert (y = a) as -> by (apply Hall; right; left; reflexivity).
  inversion Hnd as [| ? ? Hx _]; subst. apply Hx. left. reflexivity.
Qed.

(** X3: for a puzzle whose products are all from 0 to [2 ^ 53 - 1],
    [well_formed] returns true exactly when one table, and no other,
    satisfies it. *)
Theorem well_formed_exact_below_2_53 :
  forall order (rows : list num) (cps : list Z),
    Forall (fun r => 0 <= num_val r < 2 ^ 53) rows ->
    Forall (fun c => 0 <= c < 2 ^ 53) cps ->
    exists b,
      well_formed order (mkPuzzle rows (IntList cps)) = Ok b /\
      (b = true <->
       exists table,
         satisfies table (map num_val rows) cps = true /\
         forall table',
           satisfies table' (map num_val rows) cps = true -> table' = table).
Proof.
  intros order rows cps Hrows Hcps.
  destruct (solutions_from_exact order rows (IntList cps) cps Hrows
              (or_introl eq_refl) Hcps) as [Hret Hy].
  pose proof (solutions_from_NoDup order rows (IntList cps)) as Hnd.
  rewrite well_formed_spec. unfold solutions. cbn [row_prods col_prods].
  rewrite Hret.
  destruct (yielded (solutions_from order rows (IntList cps)))
    as [| t1 [| t2 ts]] eqn:E.
  - exists false. split; [reflexivity |]. split; [discriminate |].
    intros (table & Hsat & _). apply Hy in Hsat. destruct Hsat.
  - exists true. split; [reflexivity |]. split; [| reflexivity]. intros _.
    exists t1. split; [apply Hy; left; reflexivity |].
    intros table' Hsat. apply Hy in Hsat as [<- | []]. reflexivity.
  - exists false. split; [reflexivity |]. split; [discriminate |].
    intros (table & _ & Huniq).
    assert (H1 : t1 = table) by (apply Huniq, Hy; left; reflexivity).
    assert (H2 : t2 = table) by (apply Huniq, Hy; right; left; reflexivity).
    subst. inversion Hnd as [| ? ? Hx _]; subst.
    exfalso. apply Hx. left. reflexivity.
Qed.

Lemma well_formed_exact_below_2_53_witness :
  exists b,
    well_formed reverse_order riddler_puzzle = Ok b /\
    (b = true <->
     exists table,
       satisfies table [210; 144; 54; 135; 4; 49] [6615; 15552; 420] = true /\
       forall table',
         satisfies table' [210; 144; 54; 135; 4; 49] [6615; 15552; 420] = true ->
         table' = table).
Proof.
  apply (well_formed_exact_below_2_53 reverse_order
           (map PyInt [210; 144; 54; 135; 4; 49]) [6615; 15552; 420]).
  - cbn [map]. small_products.
  - small_products.
Defined.

(** ** The round trip below [2 ^ 53] *)

Lemma product_of_pos (xs : list Z) :
  Forall (fun d => 1 <= d <= 9) xs -> 1 <= product_of xs.
Proof. induction 1 as [| d xs Hd _ IH]; simpl; [lia | nia]. Qed.

Lemma wrap64_small (z : Z) : - 2 ^ 63 <= z < 2 ^ 63 -> wrap64 z = z.
Proof.
  intros Hz. unfold wrap64. rewrite Z.mod_small; [lia |].
  change (2 ^ 64) with (2 * 2 ^ 63). lia.
Qed.

Lemma prod_from (xs : list Z) :
  Forall (fun d => 1 <= d <= 9) xs ->
  forall acc,
    1 <= acc -> acc * product_of xs < 2 ^ 63 ->
    fold_left (fun acc x => wrap64 (acc * x)) xs acc = acc * product_of xs.
Proof.
  induction 1 as [| d xs Hd Hxs IH]; intros acc Hacc Hlt; simpl in *; [lia |].
  pose proof (product_of_pos xs Hxs) as Hp.
  assert (H63 : 0 < 2 ^ 63) by (apply pow2_pos; lia).
  rewrite wrap64_small by nia.
  rewrite IH by nia. ring.
Qed.

Lemma prod_product_of (xs : list Z) :
  Forall (fun d => 1 <= d <= 9) xs -> product_of xs < 2 ^ 63 ->
  prod xs = product_of xs.
Proof.
  intros Hxs Hlt. unfold prod. rewrite (prod_from xs Hxs 1); lia.
Qed.

Lemma transpose_length (table : Table) :
  length (transpose table) = length (hd [] table).
Proof.
  destruct table as [| row table]; [reflexivity |].
  unfold transpose. rewrite length_map, length_seq. reflexivity.
Qed.

Lemma nth_map_lt (A B : Type) (f : A -> B) (xs : list A) (c : nat) (b : B) (a : A) :
  (c < length xs)%nat -> nth c (map f xs) b = f (nth c xs a).
Proof.
  revert c. induction xs as [| x xs IH]; intros [| c] Hc; simpl in *; try lia.
  - reflexivity.
  - apply IH. lia.
Qed.

Lemma transpose_nth (table : Table) (c : nat) :
  (c < length (hd [] table))%nat ->
  nth c (transpose table) [] = map (fun r => nth c r 0) table.
Proof.
  destruct table as [| row table]; intros Hc; [simpl in Hc; lia |].
  unfold transpose. simpl hd in Hc.
  rewrite (nth_map_lt _ _ _ _ _ _ 0%nat) by (rewrite length_seq; exact Hc).
  rewrite seq_nth by exact Hc. reflexivity.
Qed.

Lemma transpose_digits (table : Table) :
  rectangular table -> digits_only table ->
  Forall (Forall (fun d => 1 <= d <= 9)) (transpose table).
Proof.
  intros Hrect Hdig. apply Forall_forall. intros col Hin.
  apply (In_nth _ _ []) in Hin as (c & Hc & <-).
  rewrite transpose_length in Hc. rewrite transpose_nth by exact Hc.
  apply Forall_forall. intros d Hd. apply in_map_iff in Hd as (row & <- & Hrow).
  unfold rectangular, digits_only in *. rewrite Forall_forall in Hrect, Hdig.
  specialize (Hdig row Hrow). rewrite Forall_forall in Hdig. apply Hdig.
  apply nth_In. pose proof (Hrect row Hrow) as E. unfold Row, Digit in *. lia.
Qed.

Lemma table_satisfies_its_products (table : Table) :
  rectangular table -> digits_only table ->
  satisfies table (map product_of table) (map product_of (transpose table)) = true.
Proof.
  intros Hrect Hdig. apply satisfies_spec.
  rewrite !length_map, transpose_length. repeat split.
  - unfold rectangular, digits_only in *. rewrite Forall_forall in *.
    intros row Hin. split; [exact (Hrect row Hin) | exact (Hdig row Hin)].
  - intros row r Hin. clear Hrect Hdig.
    induction table as [| row' table IH]; [destruct Hin |].
    destruct Hin as [E | Hin]; [injection E as <- <-; reflexivity | exact (IH Hin)].
  - intros c Hc.
    rewrite (nth_map_lt _ _ _ _ _ _ []) by (rewrite transpose_length; exact Hc).
    rewrite transpose_nth by exact Hc. reflexivity.
Qed.

(** X4: for a rectangular table of digits whose row and column products
    are below [2 ^ 53], the table is among the solutions of its puzzle. *)
Theorem table_puzzle_round_trip_below_2_53 :
  forall order (table : Table),
    rectangular table -> digits_only table ->
    Forall (fun row => product_of row < 2 ^ 53) table ->
    Forall (fun col => product_of col < 2 ^ 53) (transpose table) ->
    In table (yielded (solutions order (table_puzzle table))).
Proof.
  intros order table Hrect Hdig Hrows Hcols.
  assert (H63 : 2 ^ 53 < 2 ^ 63) by (apply Z.pow_lt_mono_r; lia).
  pose proof (transpose_digits table Hrect Hdig) as Hcdig.
  assert (Hrp : map (fun row => NpInt64 (prod row)) table =
                map (fun row => NpInt64 (product_of row)) table).
  { apply map_ext_in. intros row Hin. f_equal.
    unfold digits_only in Hdig. rewrite Forall_forall in Hdig, Hrows.
    apply prod_product_of; [exact (Hdig row Hin) |].
    specialize (Hrows row Hin). lia. }
  assert (Hcp : map prod (transpose table) = map product_of (transpose table)).
  { apply map_ext_in. intros col Hin.
    rewrite Forall_forall in Hcdig, Hcols.
    apply prod_product_of; [exact (Hcdig col Hin) |].
    specialize (Hcols col Hin). lia. }
  unfold table_puzzle. rewrite Hrp, Hcp.
  unfold solutions. cbn [row_prods col_prods].
  apply (solutions_from_exact order _ _ (map product_of (transpose table)));
    [| left; reflexivity | |].
  - apply Forall_forall. intros r Hin.
    apply in_map_iff in Hin as (row & <- & Hrow). simpl.
    unfold digits_only in Hdig. rewrite Forall_forall in Hdig, Hrows.
    pose proof (product_of_pos row (Hdig row Hrow)). specialize (Hrows row Hrow). lia.
  - apply Forall_forall. intros c Hin.
    apply in_map_iff in Hin as (col & <- & Hcol).
    rewrite Forall_forall in Hcdig, Hcols.
    pose proof (product_of_pos col (Hcdig col Hcol)). specialize (Hcols col Hcol). lia.
  - rewrite map_map. simpl. apply table_satisfies_its_products; assumption.
Qed.

Lemma table_puzzle_round_trip_below_2_53_witness :
  In riddler_table (yielded (solutions reverse_order (table_puzzle riddler_table))).
Proof.
  apply (table_puzzle_round_trip_below_2_53 reverse_order riddler_table).
  - repeat (apply Forall_cons; [reflexivity |]). apply Forall_nil.
  - repeat (apply Forall_cons;
            [repeat (apply Forall_cons; [lia |]); apply Forall_nil |]).
    apply Forall_nil.
  - repeat (apply Forall_cons; [vm_compute; reflexivity |]). apply Forall_nil.
  - cbv [transpose riddler_table hd length seq map nth].
    repeat (apply Forall_cons; [vm_compute; reflexivity |]). apply Forall_nil.
Defined.

(** * Above [2 ^ 53] *)

(** ** Where the float tests go wrong *)

(** One step down [fill_row]'s recursion along the first digit 9 *)
Ltac descend_nine H :=
  lazymatch type of H with
  | fill_row ?p (S ?k) = Ok ?rows =>
      let r := eval vm_compute in (truediv p 9) in
      lazymatch r with
      | Ok ?q =>
          let rests := fresh "rests" in
          let Hr := fresh "Hr" in
          let Hin := fresh "Hin" in
          destruct (fill_row_In_intro p k rows 9 q H
                      ltac:(apply range_1_10_spec; lia)
                      ltac:(vm_compute; reflexivity)
                      ltac:(vm_compute; reflexivity)) as (rests & Hr & Hin);
          apply Hin; clear Hin H;
          let p' := eval vm_compute in (floordiv p 9) in
          change (fill_row p' k = Ok rests) in Hr;
          rename Hr into H
      end
  end.

Lemma fill_row_above_nines :
  exists rows, fill_row (PyInt above_nines) 17 = Ok rows /\ In nines rows.
Proof.
  destruct (fill_row_Ok 17 (PyInt above_nines)) as (rows & H);
    [vm_compute; reflexivity |].
  exists rows. split; [exact H |].
  unfold nines. simpl repeat.
  do 17 descend_nine H.
  simpl in H. injection H as <-. left. reflexivity.
Qed.

(** C2, at a failing input: [fill_row(9**17 + 1, 17)] returns a set that
    contains the row of seventeen nines, whose product is [9 ** 17].  (The
    float quotient [(9**17 + 1) / 9] rounds to the integer [9 ** 16].) *)
Theorem fill_row_returns_wrong_row :
  exists rows,
    fill_row (PyInt above_nines) 17 = Ok rows /\
    In nines rows /\
    product_of nines = above_nines - 1.
Proof.
  destruct fill_row_above_nines as (rows & H & Hin).
  exists rows. split; [exact H |]. split; [exact Hin | vm_compute; reflexivity].
Qed.

(** C4, at failing inputs: the test of [fill_row] accepts the digit 9 for
    the product [9**17 + 1], which 9 does not divide; the test of
    [solutions] rejects the column product [7**19] after division by the
    digit 7, which divides it. *)
Theorem divisibility_tests_are_inexact :
  (exists q, truediv (PyInt above_nines) 9 = Ok q /\
             Float64.is_integer q = true /\
             above_nines mod 9 = 1) /\
  (exists c, divide (IntList [7 ^ 19]) [7] = Ok (FloatArray [c]) /\
             all_integral (FloatArray [c]) = Ok false /\
             7 ^ 19 mod 7 = 0).
Proof.
  split; eexists; (split; [| split]); vm_compute; reflexivity.
Qed.

(** The one-row puzzle of [fill_row]'s wrong row: the search ends without
    an exception and yields the table of that row. *)
Lemma solutions_one_row_puzzle (order : SetOrder) :
  In [nines] (yielded (solutions order one_row_puzzle)).
Proof.
  destruct fill_row_above_nines as (rows & Hfill & Hin).
  unfold solutions, one_row_puzzle, py_puzzle. cbn [row_prods col_prods map].
  rewrite solutions_from_cons. cbn [all_integral len].
  replace (length (repeat 9 17)) with 17%nat by reflexivity.
  rewrite Hfill.
  assert (Hret : raised (for_each (order rows)
                           (with_first_row order [] (IntList (repeat 9 17)))) = None).
  { apply for_each_returns. intros row1 _. unfold with_first_row, divide.
    replace (forallb fits_c_integer (repeat 9 17)) with true by reflexivity.
    cbn [bind gen_map raised solutions_from].
    match goal with |- context [all_one ?c] => destruct (all_one c) end; reflexivity. }
  rewrite (for_each_returns_yielded _ _ _ _ Hret).
  apply in_flat_map. exists nines. split.
  - apply (Permutation_in _ (Permutation_sym (iter_perm order rows))). exact Hin.
  - vm_compute. left. reflexivity.
Qed.

(** C1, at failing inputs: [solutions] yields nothing for a puzzle that
    the table of nineteen sevens satisfies; it yields the table of
    seventeen nines for a puzzle whose column product that table misses by
    one, and the row of seventeen nines for a puzzle whose row product it
    misses by one; all under every iteration order of the sets. *)
Theorem solutions_misses_and_invents :
  forall order,
    (satisfies sevens_table (repeat 7 19) [7 ^ 19] = true /\
     solutions order sevens_puzzle = gen_return) /\
    (solutions order nines_puzzle = gen_yield nines_table /\
     satisfies nines_table (repeat 9 17) [above_nines] = false) /\
    (In [nines] (yielded (solutions order one_row_puzzle)) /\
     satisfies [nines] [above_nines] (repeat 9 17) = false).
Proof.
  intros order. split; [split | split; split].
  - vm_compute. reflexivity.
  - apply solutions_any_order_nil. vm_compute. reflexivity.
  - apply solutions_any_order_single. vm_compute. reflexivity.
  - vm_compute. reflexivity.
  - apply solutions_one_row_puzzle.
  - vm_compute. reflexivity.
Qed.

(** C10, at a failing input: the table of nineteen sevens satisfies its
    puzzle, and [solutions] yields it not once but never, under every
    iteration order of the sets. *)
Theorem solutions_omits_a_satisfying_table :
  forall order,
    satisfies sevens_table (repeat 7 19) [7 ^ 19] = true /\
    times_yielded order sevens_puzzle sevens_table = 0%nat.
Proof.
  intros order. split; [vm_compute; reflexivity |].
  unfold times_yielded.
  rewrite (solutions_any_order_nil order sevens_puzzle) by (vm_compute; reflexivity).
  reflexivity.
Qed.

Lemma rows_of_sevens :
  forall (table : Table) (n : nat),
    length table = n ->
    forallb (fun row => (length row =? 1)%nat && forallb is_digit row) table = true ->
    forallb (fun rr => product_of (fst rr) =? snd rr) (combine table (repeat 7 n)) = true ->
    table = repeat [7] n.
Proof.
  induction table as [| row table IH]; intros n Hlen Hshape Hprod.
  - subst n. reflexivity.
  - destruct n as [| n]; [discriminate Hlen |].
    simpl in *. apply andb_true_iff in Hshape as [Hrow Hshape].
    apply andb_true_iff in Hprod as [Hp Hprod].
    apply andb_true_iff in Hrow as [Hl _].
    apply Nat.eqb_eq in Hl. apply Z.eqb_eq in Hp.
    destruct row as [| d [| d' row]]; try discriminate Hl.
    simpl in Hp. f_equal; [f_equal; lia |].
    apply IH; [lia | exact Hshape | exact Hprod].
Qed.

(** C3, at a failing input: exactly one table satisfies the puzzle of
    nineteen sevens, and [well_formed] returns false for it. *)
Theorem well_formed_rejects_unique_solution :
  forall order,
    well_formed order sevens_puzzle = Ok false /\
    satisfies sevens_table (repeat 7 19) [7 ^ 19] = true /\
    (forall table,
       satisfies table (repeat 7 19) [7 ^ 19] = true -> table = sevens_table).
Proof.
  intros order. split; [| split].
  - rewrite well_formed_spec.
    rewrite (solutions_any_order_nil order sevens_puzzle); [reflexivity |].
    vm_compute. reflexivity.
  - vm_compute. reflexivity.
  - intros table H. unfold satisfies in H.
    apply andb_true_iff in H as [H _].
    apply andb_true_iff in H as [H Hprod].
    apply andb_true_iff in H as [Hlen Hshape].
    apply Nat.eqb_eq in Hlen. rewrite repeat_length in Hlen.
    apply rows_of_sevens; assumption.
Qed.

(** C7, at a failing input: on the product [2 ** 1024] [fill_row] raises
    [OverflowError], and so does [solve] on a puzzle that has it as a row
    product. *)
Theorem fill_row_raises_on_large_product :
  fill_row (PyInt (2 ^ 1024)) 1 = Raise OverflowError /\
  (forall order, solve order (py_puzzle [2 ^ 1024] [1]) = Raise OverflowError).
Proof.
  assert (H : fill_row (PyInt (2 ^ 1024)) 1 = Raise OverflowError)
    by (vm_compute; reflexivity).
  split; [exact H |].
  intros order. unfold solve, solutions, py_puzzle. cbn [row_prods col_prods map].
  rewrite solutions_from_cons. cbn [all_integral len length].
  rewrite H. reflexivity.
Qed.

(** C8, at a failing input: every entry of the table of nineteen sevens is
    a digit, and [solutions(table_puzzle(table))] yields nothing, so the
    table is not among its solutions. *)
Theorem table_puzzle_round_trip_fails :
  forall order,
    forallb (forallb is_digit) sevens_table = true /\
    solutions order (table_puzzle sevens_table) = gen_return /\
    ~ In sevens_table (yielded (solutions order (table_puzzle sevens_table))).
Proof.
  intros order.
  assert (H : solutions order (table_puzzle sevens_table) = gen_return)
    by (apply solutions_any_order_nil; vm_compute; reflexivity).
  split; [vm_compute; reflexivity |]. split; [exact H |].
  rewrite H. intros [].
Qed.

(** * The rest of the notebook *)

(** ** Random tables and puzzles *)

Lemma random_row_spec (randint : Randint) :
  forall ncols n,
    fst (random_row randint ncols n) = map randint (seq n ncols) /\
    snd (random_row randint ncols n) = (n + ncols)%nat.
Proof.
  induction ncols as [| ncols IH]; intros n; simpl.
  - split; [reflexivity | lia].
  - destruct (IH (S n)) as [Hrow Hn].
    destruct (random_row randint ncols (S n)) as [rest n']. simpl in *.
    subst. split; [reflexivity | lia].
Qed.

Lemma random_rows_spec (randint : Randint) (ncols : nat) :
  forall nrows n,
    fst (random_rows randint nrows ncols n) =
      map (fun r => map randint (seq (n + r * ncols) ncols)) (seq 0 nrows) /\
    snd (random_rows randint nrows ncols n) = (n + nrows * ncols)%nat.
Proof.
  induction nrows as [| nrows IH]; intros n.
  - simpl. split; [reflexivity | lia].
  - cbn [random_rows].
    destruct (random_row_spec randint ncols n) as [Hrow Hn1].
    destruct (random_row randint ncols n) as [row n1]. simpl in Hrow, Hn1.
    destruct (IH n1) as [Hrows Hn2].
    destruct (random_rows randint nrows ncols n1) as [rows n2]. simpl in Hrows, Hn2.
    subst. simpl fst. simpl snd. split; [| lia].
    cbn [seq map]. f_equal.
    + f_equal. f_equal. lia.
    + rewrite <- seq_shift, map_map. apply map_ext. intros r.
      f_equal. f_equal. lia.
Qed.

Lemma random_table_spec (randint : Randint) (nrows ncols : Z) (n : nat) :
  fst (random_table randint nrows ncols n) =
    map (fun r => map randint (seq (n + r * Z.to_nat ncols) (Z.to_nat ncols)))
        (seq 0 (Z.to_nat nrows)) /\
  snd (random_table randint nrows ncols n) = (n + Z.to_nat nrows * Z.to_nat ncols)%nat.
Proof. apply random_rows_spec. Qed.

(** X13: [random_table(nrows, ncols)] makes [nrows] rows of [ncols] entries
    (none for a negative number), calls [randint(1, 9)] once for each entry
    and no more, and fills the table row by row with what the calls
    return, in their order. *)
Theorem random_table_has_given_size (randint : Randint) (nrows ncols : Z) (n : nat) :
  length (fst (random_table randint nrows ncols n)) = Z.to_nat nrows /\
  Forall (fun row => length row = Z.to_nat ncols)
         (fst (random_table randint nrows ncols n)) /\
  snd (random_table randint nrows ncols n) = (n + Z.to_nat nrows * Z.to_nat ncols)%nat /\
  forall r c,
    (r < Z.to_nat nrows)%nat -> (c < Z.to_nat ncols)%nat ->
    nth c (nth r (fst (random_table randint nrows ncols n)) []) 0 =
    randint (n + r * Z.to_nat ncols + c)%nat.
Proof.
  destruct (random_table_spec randint nrows ncols n) as [-> ->].
  split; [rewrite length_map, length_seq; reflexivity |].
  split; [| split; [reflexivity |]].
  - apply Forall_forall. intros row Hin. apply in_map_iff in Hin as (r & <- & _).
    rewrite length_map, length_seq. reflexivity.
  - intros r c Hr Hc.
    rewrite (nth_map_lt _ _ _ _ _ _ 0%nat) by (rewrite length_seq; exact Hr).
    rewrite seq_nth by exact Hr.
    rewrite (nth_map_lt _ _ _ _ _ _ 0%nat) by (rewrite length_seq; exact Hc).
    rewrite seq_nth by exact Hc. reflexivity.
Qed.

Lemma random_table_rectangular (randint : Randint) (nrows ncols : Z) (n : nat) :
  rectangular (fst (random_table randint nrows ncols n)).
Proof.
  destruct (random_table_spec randint nrows ncols n) as [-> _].
  unfold rectangular. apply Forall_forall. intros row Hin.
  apply in_map_iff in Hin as (r & <- & Hr). rewrite length_map, length_seq.
  destruct (Z.to_nat nrows) as [| k]; [destruct Hr |].
  simpl. rewrite length_map, length_seq. reflexivity.
Qed.

Lemma random_table_digits_only (randint : Randint) (nrows ncols : Z) (n : nat) :
  draws_digits randint ->
  digits_only (fst (random_table randint nrows ncols n)).
Proof.
  intros Hd. destruct (random_table_spec randint nrows ncols n) as [-> _].
  apply Forall_forall. intros row Hin. apply in_map_iff in Hin as (r & <- & _).
  apply Forall_forall. intros d Hin. apply in_map_iff in Hin as (i & <- & _).
  apply Hd.
Qed.

Lemma random_table_sizes (randint : Randint) (nrows ncols : Z) (n : nat) :
  length (fst (random_table randint nrows ncols n)) = Z.to_nat nrows /\
  Forall (fun row => length row = Z.to_nat ncols)
         (fst (random_table randint nrows ncols n)).
Proof.
  destruct (random_table_spec randint nrows ncols n) as [-> _].
  split; [rewrite length_map, length_seq; reflexivity |].
  apply Forall_forall. intros row Hin. apply in_map_iff in Hin as (r & <- & _).
  rewrite length_map, length_seq. reflexivity.
Qed.

(** *** Products of short rows *)

Lemma product_of_le (xs : list Z) :
  Forall (fun d => 1 <= d <= 9) xs -> 1 <= product_of xs <= 9 ^ Z.of_nat (length xs).
Proof.
  induction 1 as [| d xs Hd _ IH].
  - simpl. lia.
  - cbn [product_of fold_right length]. fold (product_of xs).
    rewrite Nat2Z.inj_succ, Z.pow_succ_r by lia. nia.
Qed.

Lemma product_of_short (xs : list Z) (k : nat) :
  Forall (fun d => 1 <= d <= 9) xs -> (length xs <= k)%nat ->
  1 <= product_of xs <= 9 ^ Z.of_nat k.
Proof.
  intros Hxs Hk. pose proof (product_of_le xs Hxs) as H.
  assert (9 ^ Z.of_nat (length xs) <= 9 ^ Z.of_nat k)
    by (apply Z.pow_le_mono_r; lia).
  lia.
Qed.

Lemma transpose_column_length (table : Table) (col : list Z) :
  In col (transpose table) -> length col = length table.
Proof.
  destruct table as [| row table]; [intros [] |].
  unfold transpose. intros Hin. apply in_map_iff in Hin as (c & <- & _).
  apply length_map.
Qed.

(** *** [numpy.prod] wraps around *)

Lemma wrap64_mod (z : Z) : wrap64 z mod 2 ^ 64 = z mod 2 ^ 64.
Proof.
  unfold wrap64.
  rewrite Zminus_mod_idemp_l. f_equal. ring.
Qed.

Lemma wrap64_eq_mod (a b : Z) : a mod 2 ^ 64 = b mod 2 ^ 64 -> wrap64 a = wrap64 b.
Proof.
  intros H. unfold wrap64.
  rewrite <- (Zplus_mod_idemp_l a), <- (Zplus_mod_idemp_l b), H. reflexivity.
Qed.

Lemma wrap64_mul (a x : Z) : wrap64 (wrap64 a * x) = wrap64 (a * x).
Proof.
  apply wrap64_eq_mod.
  rewrite <- Zmult_mod_idemp_l, wrap64_mod, Zmult_mod_idemp_l. reflexivity.
Qed.

Lemma prod_wraps_from (xs : list Z) :
  forall acc,
    fold_left (fun acc x => wrap64 (acc * x)) xs (wrap64 acc) =
    wrap64 (acc * product_of xs).
Proof.
  induction xs as [| x xs IH]; intros acc; simpl.
  - f_equal. ring.
  - rewrite wrap64_mul, IH. f_equal. ring.
Qed.

Lemma prod_wraps (xs : list Z) : prod xs = wrap64 (product_of xs).
Proof.
  unfold prod. change 1 with (wrap64 1) at 1.
  rewrite prod_wraps_from. f_equal. ring.
Qed.

(** A row of twenty nines: its product does not fit an [int64]. *)
Example test_table_puzzle_wraps :
  row_prods (table_puzzle [repeat 9 20]) = [NpInt64 (9 ^ 20 - 2 ^ 64)].
Proof. vm_compute. reflexivity. Qed.

Lemma table_puzzle_true_products (table : Table) (bound : Z) :
  rectangular table -> digits_only table ->
  bound <= 2 ^ 63 ->
  Forall (fun row => product_of row < bound) table ->
  Forall (fun col => product_of col < bound) (transpose table) ->
  table_puzzle table =
  mkPuzzle (map (fun row => NpInt64 (product_of row)) table)
           (IntList (map product_of (transpose table))).
Proof.
  intros Hrect Hdig Hb Hrows Hcols.
  pose proof (transpose_digits table Hrect Hdig) as Hcdig.
  unfold table_puzzle. f_equal.
  - apply map_ext_in. intros row Hin. f_equal.
    unfold digits_only in Hdig. rewrite Forall_forall in Hdig, Hrows.
    apply prod_product_of; [exact (Hdig row Hin) |].
    specialize (Hrows row Hin). lia.
  - f_equal. apply map_ext_in. intros col Hin.
    rewrite Forall_forall in Hcdig, Hcols.
    apply prod_product_of; [exact (Hcdig col Hin) |].
    specialize (Hcols col Hin). lia.
Qed.

Lemma short_table_products (table : Table) (k : nat) :
  rectangular table -> digits_only table ->
  (length table <= k)%nat -> (length (hd [] table) <= k)%nat ->
  Forall (fun row => 1 <= product_of row <= 9 ^ Z.of_nat k) table /\
  Forall (fun col => 1 <= product_of col <= 9 ^ Z.of_nat k) (transpose table).
Proof.
  intros Hrect Hdig Hr Hc.
  pose proof (transpose_digits table Hrect Hdig) as Hcdig.
  unfold rectangular, digits_only in *. rewrite Forall_forall in Hrect, Hdig, Hcdig.
  split; apply Forall_forall.
  - intros row Hin. apply product_of_short; [exact (Hdig row Hin) |].
    pose proof (Hrect row Hin) as E. unfold Row, Digit in *. lia.
  - intros col Hin. apply product_of_short; [exact (Hcdig col Hin) |].
    pose proof (transpose_column_length table col Hin) as E.
    unfold Table, Row, Digit in *. lia.
Qed.

(** X12: for a rectangular table of digits with at most 19 rows and from 1
    to 19 columns, [table_puzzle] gives the products of the rows and of
    the columns themselves, and the table satisfies the puzzle.  (A row
    without a digit is left out: its product is the float [1.0].) *)
Theorem table_puzzle_exact_up_to_19 (table : Table) :
  rectangular table -> digits_only table ->
  (length table <= 19)%nat ->
  Forall (fun row => (1 <= length row <= 19)%nat) table ->
  table_puzzle table =
    mkPuzzle (map (fun row => NpInt64 (product_of row)) table)
             (IntList (map product_of (transpose table))) /\
  satisfies table (map product_of table) (map product_of (transpose table)) = true.
Proof.
  intros Hrect Hdig Hr Hwidth.
  assert (Hc : (length (hd [] table) <= 19)%nat).
  { destruct table as [| row table]; [simpl; lia |].
    inversion Hwidth as [| ? ? Hrow _]; subst. simpl. lia. }
  split; [| apply table_satisfies_its_products; assumption].
  destruct (short_table_products table 19 Hrect Hdig Hr Hc) as [Hrows Hcols].
  assert (H19 : 9 ^ Z.of_nat 19 < 2 ^ 63) by reflexivity.
  apply (table_puzzle_true_products table (2 ^ 63) Hrect Hdig); [lia | |].
  - eapply Forall_impl; [| exact Hrows]. simpl. intros row H. lia.
  - eapply Forall_impl; [| exact Hcols]. simpl. intros col H. lia.
Qed.

Lemma table_puzzle_exact_up_to_19_witness :
  table_puzzle riddler_table =
    mkPuzzle (map (fun row => NpInt64 (product_of row)) riddler_table)
             (IntList (map product_of (transpose riddler_table))) /\
  satisfies riddler_table (map product_of riddler_table)
            (map product_of (transpose riddler_table)) = true.
Proof.
  apply (table_puzzle_exact_up_to_19 riddler_table).
  - repeat (apply Forall_cons; [reflexivity |]). apply Forall_nil.
  - repeat (apply Forall_cons;
            [repeat (apply Forall_cons; [lia |]); apply Forall_nil |]).
    apply Forall_nil.
  - simpl. lia.
  - repeat (apply Forall_cons; [simpl; lia |]). apply Forall_nil.
Defined.

(** *** Puzzles of tables of at most 16 rows and columns *)

Lemma small_table_puzzle (table : Table) :
  rectangular table -> digits_only table ->
  (length table <= 16)%nat -> (length (hd [] table) <= 16)%nat ->
  table_puzzle table =
    mkPuzzle (map (fun row => NpInt64 (product_of row)) table)
             (IntList (map product_of (transpose table))) /\
  Forall (fun r => 0 <= num_val r < 2 ^ 53)
         (map (fun row => NpInt64 (product_of row)) table) /\
  small (map product_of (transpose table)) /\
  map num_val (map (fun row => NpInt64 (product_of row)) table) = map product_of table.
Proof.
  intros Hrect Hdig Hr Hc.
  destruct (short_table_products table 16 Hrect Hdig Hr Hc) as [Hrows Hcols].
  assert (H16 : 9 ^ Z.of_nat 16 < 2 ^ 53) by reflexivity.
  assert (H63 : 2 ^ 53 <= 2 ^ 63) by (apply Z.pow_le_mono_r; lia).
  split; [| split; [| split]].
  - apply (table_puzzle_true_products table (2 ^ 53) Hrect Hdig H63).
    + eapply Forall_impl; [| exact Hrows]. simpl. intros row H. lia.
    + eapply Forall_impl; [| exact Hcols]. simpl. intros col H. lia.
  - apply Forall_forall. intros r Hin. apply in_map_iff in Hin as (row & <- & Hrow).
    rewrite Forall_forall in Hrows. specialize (Hrows row Hrow). simpl. lia.
  - apply Forall_forall. intros c Hin. apply in_map_iff in Hin as (col & <- & Hcol).
    rewrite Forall_forall in Hcols. specialize (Hcols col Hcol). lia.
  - rewrite map_map. reflexivity.
Qed.

Lemma solutions_of_small_table (order : SetOrder) (table : Table) :
  rectangular table -> digits_only table ->
  (length table <= 16)%nat -> (length (hd [] table) <= 16)%nat ->
  raised (solutions order (table_puzzle table)) = None /\
  forall table',
    In table' (yielded (solutions order (table_puzzle table))) <->
    satisfies table' (map product_of table) (map product_of (transpose table)) = true.
Proof.
  intros Hrect Hdig Hr Hc.
  destruct (small_table_puzzle table Hrect Hdig Hr Hc) as (-> & Hrows & Hcols & Hval).
  unfold solutions. cbn [row_prods col_prods]. rewrite <- Hval.
  apply solutions_from_exact; [exact Hrows | left; reflexivity | exact Hcols].
Qed.

Lemma well_formed_of_small_table (order : SetOrder) (table : Table) :
  rectangular table -> digits_only table ->
  (length table <= 16)%nat -> (length (hd [] table) <= 16)%nat ->
  exists b,
    well_formed order (table_puzzle table) = Ok b /\
    (b = true <-> only_solution table).
Proof.
  intros Hrect Hdig Hr Hc.
  destruct (solutions_of_small_table order table Hrect Hdig Hr Hc) as [Hret Hy].
  pose proof (table_satisfies_its_products table Hrect Hdig) as Hsat.
  pose proof (solutions_from_NoDup order (row_prods (table_puzzle table))
                (col_prods (table_puzzle table))) as Hnd.
  fold (solutions order (table_puzzle table)) in Hnd.
  rewrite well_formed_spec, Hret.
  destruct (yielded (solutions order (table_puzzle table))) as [| t1 [| t2 ts]] eqn:E.
  - apply Hy in Hsat. destruct Hsat.
  - exists true. split; [reflexivity |]. split; [| reflexivity]. intros _ table' H'.
    apply Hy in H' as [<- | []]. apply Hy in Hsat as [<- | []]. reflexivity.
  - exists false. split; [reflexivity |]. split; [discriminate |]. intros Huniq.
    assert (H1 : t1 = table) by (apply Huniq, Hy; left; reflexivity).
    assert (H2 : t2 = table) by (apply Huniq, Hy; right; left; reflexivity).
    subst. inversion Hnd as [| ? ? Hx _]; subst.
    exfalso. apply Hx. left. reflexivity.
Qed.

Lemma random_table_small (randint : Randint) (nrows ncols : Z) (n : nat) :
  nrows <= 16 -> ncols <= 16 ->
  (length (fst (random_table randint nrows ncols n)) <= 16)%nat /\
  (length (hd [] (fst (random_table randint nrows ncols n))) <= 16)%nat.
Proof.
  intros Hr Hc. destruct (random_table_sizes randint nrows ncols n) as [Hlen Hrows].
  split; [lia |].
  destruct (fst (random_table randint nrows ncols n)) as [| row rows]; [simpl; lia |].
  inversion Hrows as [| ? ? Hrow _]; subst. simpl. unfold Row, Digit in *. lia.
Qed.

(** X14: when [randint(1, 9)] returns digits, [solve] finds a table for the
    puzzle of a random table of at most 16 rows and 16 columns: it raises
    nothing, does not return the no-solution result, and the table it
    returns has the row and column products of the random table. *)
Theorem solve_random_table (order : SetOrder) (randint : Randint)
    (nrows ncols : Z) (n : nat) :
  draws_digits randint -> nrows <= 16 -> ncols <= 16 ->
  exists solution,
    solve order (table_puzzle (fst (random_table randint nrows ncols n))) =
      Ok (Some solution) /\
    satisfies solution
      (map product_of (fst (random_table randint nrows ncols n)))
      (map product_of (transpose (fst (random_table randint nrows ncols n)))) = true.
Proof.
  intros Hd Hr Hc.
  destruct (random_table_small randint nrows ncols n Hr Hc) as [Hlr Hlc].
  pose proof (random_table_rectangular randint nrows ncols n) as Hrect.
  pose proof (random_table_digits_only randint nrows ncols n Hd) as Hdig.
  set (table := fst (random_table randint nrows ncols n)) in *.
  destruct (solutions_of_small_table order table Hrect Hdig Hlr Hlc) as [Hret Hy].
  pose proof (table_satisfies_its_products table Hrect Hdig) as Hsat.
  unfold solve. rewrite next_spec.
  destruct (yielded (solutions order (table_puzzle table))) as [| t ts] eqn:E.
  - apply Hy in Hsat. destruct Hsat.
  - exists t. split; [reflexivity |]. apply Hy. left. reflexivity.
Qed.

Lemma counting_draws_digits : draws_digits counting_draws.
Proof.
  intros n. unfold counting_draws.
  pose proof (Z.mod_pos_bound (Z.of_nat n) 9). lia.
Qed.

Lemma solve_random_table_witness :
  exists solution,
    solve reverse_order (table_puzzle (fst (random_table counting_draws 2 3 0))) =
      Ok (Some solution) /\
    satisfies solution
      (map product_of (fst (random_table counting_draws 2 3 0)))
      (map product_of (transpose (fst (random_table counting_draws 2 3 0)))) = true.
Proof.
  apply (solve_random_table reverse_order counting_draws 2 3 0).
  - exact counting_draws_digits.
  - lia.
  - lia.
Defined.

Lemma random_puzzles_loop_spec (order : SetOrder) (randint : Randint)
    (nrows ncols : Z) :
  draws_digits randint -> nrows <= 16 -> ncols <= 16 ->
  forall ntables n,
    exists puzzles,
      random_puzzles_loop order randint ntables nrows ncols n = Ok puzzles /\
      (length puzzles <= ntables)%nat /\
      forall puzzle,
        In puzzle puzzles <->
        exists table,
          In table (random_tables randint ntables nrows ncols n) /\
          puzzle = table_puzzle table /\ only_solution table.
Proof.
  intros Hd Hr Hc. induction ntables as [| ntables IH]; intros n.
  - exists []. split; [reflexivity |]. split; [simpl; lia |].
    intros puzzle. split; [intros [] | intros (table & [] & _)].
  - cbn [random_puzzles_loop random_tables].
    destruct (random_table_small randint nrows ncols n Hr Hc) as [Hlr Hlc].
    pose proof (random_table_rectangular randint nrows ncols n) as Hrect.
    pose proof (random_table_digits_only randint nrows ncols n Hd) as Hdig.
    destruct (random_table randint nrows ncols n) as [table n'].
    cbn [fst] in *.
    destruct (well_formed_of_small_table order table Hrect Hdig Hlr Hlc)
      as (keep & -> & Hkeep).
    destruct (IH n') as (rest & -> & Hlen & Hrest).
    cbn [bind].
    exists (if keep then table_puzzle table :: rest else rest).
    split; [reflexivity |]. split; [destruct keep; simpl; lia |].
    intros puzzle. destruct keep.
    + split.
      * intros [<- | Hin].
        -- exists table. split; [left; reflexivity |].
           split; [reflexivity | apply Hkeep; reflexivity].
        -- apply Hrest in Hin as (t & Ht & Hp & Hu). exists t.
           split; [right; exact Ht | split; assumption].
      * intros (t & [<- | Ht] & Hp & Hu).
        -- left. symmetry. exact Hp.
        -- right. apply Hrest. exists t. split; [exact Ht | split; assumption].
    + split.
      * intros Hin. apply Hrest in Hin as (t & Ht & Hp & Hu). exists t.
        split; [right; exact Ht | split; assumption].
      * intros (t & [<- | Ht] & Hp & Hu).
        -- apply Hkeep in Hu. discriminate Hu.
        -- apply Hrest. exists t. split; [exact Ht | split; assumption].
Qed.

(** X15: when [randint(1, 9)] returns digits, [random_puzzles] with at most
    16 rows and 16 columns raises nothing and returns at most [ntables]
    puzzles: the puzzles of those random tables that are the only
    solution of their puzzle. *)
Theorem random_puzzles_are_well_formed (order : SetOrder) (randint : Randint)
    (ntables nrows ncols : Z) (n : nat) :
  draws_digits randint -> nrows <= 16 -> ncols <= 16 ->
  exists puzzles,
    random_puzzles order randint ntables nrows ncols n = Ok puzzles /\
    (length puzzles <= Z.to_nat ntables)%nat /\
    forall puzzle,
      In puzzle puzzles <->
      exists table,
        In table (random_tables randint (Z.to_nat ntables) nrows ncols n) /\
        puzzle = table_puzzle table /\ only_solution table.
Proof.
  intros Hd Hr Hc. unfold random_puzzles.
  apply random_puzzles_loop_spec; assumption.
Qed.

Lemma random_puzzles_are_well_formed_witness :
  exists puzzles,
    random_puzzles insertion_order counting_draws 3 2 2 0 = Ok puzzles /\
    (length puzzles <= Z.to_nat 3)%nat /\
    forall puzzle,
      In puzzle puzzles <->
      exists table,
        In table (random_tables counting_draws (Z.to_nat 3) 2 2 0) /\
        puzzle = table_puzzle table /\ only_solution table.
Proof.
  apply (random_puzzles_are_well_formed insertion_order counting_draws 3 2 2 0).
  - exact counting_draws_digits.
  - lia.
  - lia.
Defined.

(** *** The shape of the tables the search yields *)

Lemma object_divide_length :
  forall cs row qs,
    length row = length cs -> object_divide cs row = Ok qs -> length qs = length cs.
Proof.
  induction cs as [| c cs IH]; intros [| d row] qs Hlen H; simpl in *;
    try discriminate Hlen.
  - injection H as <-. reflexivity.
  - destruct (object_divide cs row) as [qs' | e] eqn:E.
    + assert (Hq : length qs' = length cs) by (apply (IH row); [lia | exact E]).
      destruct (Float64.int_true_divide c d); simpl in H;
        try discriminate H; injection H as <-; simpl; lia.
    + destruct (Float64.int_true_divide c d); simpl in H; discriminate H.
Qed.

Lemma divide_len (cols cols' : Products) (row : Row) :
  length row = len cols -> divide cols row = Ok cols' -> len cols' = len cols.
Proof.
  destruct cols as [cs | cs]; simpl; intros Hlen H.
  - destruct (forallb fits_c_integer cs).
    + injection H as <-. simpl. rewrite length_map, length_combine. lia.
    + destruct (object_divide cs row) as [qs | e] eqn:E; simpl in H; [| discriminate H].
      injection H as <-. simpl. apply (object_divide_length cs row); assumption.
  - injection H as <-. simpl. rewrite length_map, length_combine. lia.
Qed.

Lemma solutions_from_shape (order : SetOrder) :
  forall rows cols table,
    In table (yielded (solutions_from order rows cols)) ->
    length table = length rows /\
    Forall (fun row => length row = len cols /\ Forall (fun d => 1 <= d <= 9) row) table.
Proof.
  induction rows as [| r rows IH]; intros cols table Hin.
  - simpl in Hin. destruct (all_one cols); simpl in Hin; [| destruct Hin].
    destruct Hin as [<- | []]. split; [reflexivity | constructor].
  - rewrite solutions_from_cons in Hin.
    destruct (all_integral cols) as [[|] | e]; simpl in Hin; try destruct Hin.
    destruct (fill_row r (len cols)) as [candidates | e] eqn:Hfill; simpl in Hin;
      [| destruct Hin].
    apply for_each_yielded_inv in Hin as (row1 & Hrow1 & Hin).
    apply (Permutation_in _ (iter_perm order candidates)) in Hrow1.
    destruct (fill_row_shape _ _ _ _ Hfill Hrow1) as [Hlen Hdig].
    apply with_first_row_yielded_inv in Hin as (cols' & rest & Hdiv & Hrest & ->).
    apply IH in Hrest as [Hl Hshape].
    rewrite (divide_len cols cols' row1 Hlen Hdiv) in Hshape.
    split; [simpl; lia |]. constructor; [split; assumption | exact Hshape].
Qed.

(** X10: whatever the products, and whether or not the search later ends
    with an exception, every table that [solutions] yields has one row for
    each row product, and each row has one digit from 1 to 9 for each
    column product. *)
Theorem solutions_tables_have_puzzle_shape (order : SetOrder) (puzzle : Puzzle)
    (table : Table) :
  In table (yielded (solutions order puzzle)) ->
  length table = length (row_prods puzzle) /\
  Forall (fun row => length row = len (col_prods puzzle) /\
                     Forall (fun d => 1 <= d <= 9) row) table.
Proof. apply solutions_from_shape. Qed.

Lemma solutions_tables_have_puzzle_shape_witness :
  length riddler_table = length (row_prods riddler_puzzle) /\
  Forall (fun row => length row = len (col_prods riddler_puzzle) /\
                     Forall (fun d => 1 <= d <= 9) row) riddler_table.
Proof.
  apply (solutions_tables_have_puzzle_shape insertion_order riddler_puzzle riddler_table).
  vm_compute. left. reflexivity.
Defined.

Example test_random_table :
  random_table counting_draws 2 3 0 = ([[1; 2; 3]; [4; 5; 6]], 6%nat).
Proof. reflexivity. Qed.

Example test_random_table_negative : random_table counting_draws (-1) 3 0 = ([], 0%nat).
Proof. reflexivity. Qed.

Example test_random_puzzles :
  random_puzzles insertion_order counting_draws 3 2 2 0 =
  Ok [mkPuzzle [NpInt64 2; NpInt64 12] (IntList [3; 8]);
      mkPuzzle [NpInt64 30; NpInt64 56] (IntList [35; 48])].
Proof. vm_compute. reflexivity. Qed.

(** ** Showing a puzzle *)

Example test_surround : surround [Int 1; Int 2; Int 3] bar = "|1|2|3|"%string.
Proof. reflexivity. Qed.

Example test_str_int :
  map str_int [0; 7; 210; -6; 15552] = ["0"; "7"; "210"; "-6"; "15552"]%string.
Proof. reflexivity. Qed.

Example test_pretty_riddler :
  pretty insertion_order riddler_puzzle None =
  inr (join newline
         ["|6615|15552|420||"; "|---|---|---|---|";
          "|7|6|5|**210**|"; "|9|8|2|**144**|"; "|3|9|2|**54**|";
          "|5|9|3|**135**|"; "|1|4|1|**4**|"; "|7|1|7|**49**|"]%string).
Proof. vm_compute. reflexivity. Qed.

(** ** Strings *)

Lemma append_assoc (a b c : string) : ((a ++ b) ++ c = a ++ (b ++ c))%string.
Proof. induction a as [| x a IH]; simpl; [reflexivity | rewrite IH; reflexivity]. Qed.

Lemma append_empty_r (a : string) : (a ++ EmptyString = a)%string.
Proof. induction a as [| x a IH]; simpl; [reflexivity | rewrite IH; reflexivity]. Qed.

Lemma count_char_app (c : ascii) (a b : string) :
  count_char c (a ++ b) = (count_char c a + count_char c b)%nat.
Proof. induction a as [| x a IH]; simpl; [reflexivity | rewrite IH; lia]. Qed.

Lemma count_char_uint (c : ascii) (d : Decimal.uint) :
  numeral_char c = false -> count_char c (NilEmpty.string_of_uint d) = 0%nat.
Proof.
  unfold numeral_char. cbn [list_ascii_of_string existsb]. intros H.
  repeat (apply orb_false_iff in H; destruct H as [? H]).
  induction d as [| d IH | d IH | d IH | d IH | d IH | d IH | d IH | d IH | d IH | d IH];
    cbn [NilEmpty.string_of_uint count_char]; [reflexivity | ..];
    rewrite IH;
    match goal with
    | E : Ascii.eqb c ?a = false |- context [Ascii.eqb c ?a] => rewrite E
    end; reflexivity.
Qed.

Lemma count_char_str_int (c : ascii) (z : Z) :
  numeral_char c = false -> count_char c (str_int z) = 0%nat.
Proof.
  intros H. unfold str_int.
  assert (Hm : Ascii.eqb c "-" = false).
  { unfold numeral_char in H. cbn [list_ascii_of_string existsb] in H.
    apply orb_false_iff in H. apply H. }
  destruct z as [| p | p]; cbn [Z.to_int NilEmpty.string_of_int count_char].
  - apply count_char_uint. exact H.
  - apply count_char_uint. exact H.
  - rewrite Hm. apply count_char_uint. exact H.
Qed.

(** ** [surround] *)

Lemma join_cons (delim x : string) (strs : list string) :
  strs <> [] -> join delim (x :: strs) = (x ++ delim ++ join delim strs)%string.
Proof. destruct strs; [intros H; destruct (H eq_refl) | reflexivity]. Qed.

Lemma surround_cons (x : item) (items : list item) (delim : string) :
  items <> [] ->
  surround (x :: items) delim = (delim ++ str x ++ surround items delim)%string.
Proof.
  intros H. unfold surround. cbn [map]. rewrite join_cons.
  - rewrite !append_assoc. reflexivity.
  - destruct items; [destruct (H eq_refl) | simpl; discriminate].
Qed.

Lemma surround_single (x : item) (delim : string) :
  surround [x] delim = (delim ++ str x ++ delim)%string.
Proof. reflexivity. Qed.

(** X16: [surround] puts the delimiter before each item and once more at
    the end, so that [n > 0] items get [n + 1] delimiters; no items get
    two delimiters, not one. *)
Theorem surround_puts_delimiter_before_each_item (items : list item) (delim : string) :
  surround items delim =
  match items with
  | [] => (delim ++ delim)%string
  | _ :: _ => (join EmptyString (map (fun x => delim ++ str x) items) ++ delim)%string
  end.
Proof.
  destruct items as [| x items]; [reflexivity |].
  revert x. induction items as [| y items IH]; intros x.
  - rewrite surround_single. unfold join. simpl. rewrite append_assoc. reflexivity.
  - rewrite surround_cons by discriminate. rewrite IH.
    cbn [map]. rewrite (join_cons EmptyString _ (_ :: _)) by discriminate.
    cbn [append]. rewrite !append_assoc. reflexivity.
Qed.

Lemma count_char_surround (c : ascii) (items : list item) :
  free_of c items ->
  count_char c (surround items (String c EmptyString)) =
  match items with
  | [] => 2%nat
  | _ :: _ => S (length items)
  end.
Proof.
  intros H. destruct items as [| x items].
  - simpl. rewrite Ascii.eqb_refl. reflexivity.
  - revert x H. induction items as [| y items IH]; intros x H.
    + inversion H as [| ? ? Hx _]; subst.
      rewrite surround_single, !count_char_app, Hx. simpl.
      rewrite Ascii.eqb_refl. reflexivity.
    + inversion H as [| ? ? Hx Hrest]; subst.
      rewrite surround_cons by discriminate.
      rewrite !count_char_app, Hx, (IH y Hrest). simpl.
      rewrite Ascii.eqb_refl. reflexivity.
Qed.

(** ** [pretty] *)

Lemma count_char_join (c : ascii) (delim : string) (strs : list string) :
  count_char c delim = 0%nat ->
  Forall (fun s => count_char c s = 0%nat) strs ->
  count_char c (join delim strs) = 0%nat.
Proof.
  intros Hd. induction 1 as [| x strs Hx Hs IH]; [reflexivity |].
  destruct strs as [| y strs]; [exact Hx |].
  rewrite join_cons by discriminate.
  rewrite !count_char_app, Hx, Hd, IH. reflexivity.
Qed.

Lemma surround_free_of (c : ascii) (delim : string) (items : list item) :
  count_char c delim = 0%nat -> free_of c items ->
  count_char c (surround items delim) = 0%nat.
Proof.
  intros Hd H. unfold surround. rewrite !count_char_app, Hd.
  rewrite count_char_join; [reflexivity | exact Hd |].
  apply Forall_forall. intros s Hin. apply in_map_iff in Hin as (x & <- & Hx).
  unfold free_of in H. rewrite Forall_forall in H. exact (H x Hx).
Qed.

Lemma free_of_ints (c : ascii) (zs : list Z) :
  numeral_char c = false -> free_of c (map Int zs).
Proof.
  intros H. apply Forall_forall. intros x Hin. apply in_map_iff in Hin as (z & <- & _).
  apply count_char_str_int. exact H.
Qed.

Lemma free_of_app (c : ascii) (xs ys : list item) :
  free_of c xs -> free_of c ys -> free_of c (xs ++ ys).
Proof. intros Hx Hy. apply Forall_app. split; assumption. Qed.

Lemma count_char_surround_cells (c : ascii) (items : list item) :
  free_of c items ->
  count_char c (surround items (String c EmptyString)) = S (Nat.max 1 (length items)).
Proof.
  intros H. rewrite (count_char_surround c items H).
  destruct items as [| x items]; [reflexivity |]. simpl length. lia.
Qed.

(** A line of cells that are numerals, but for a last one *)
Lemma cells_line (c : ascii) (zs : list Z) (last : string) :
  numeral_char c = false -> count_char c last = 0%nat ->
  free_of c (map Int zs ++ [Str last]).
Proof.
  intros Hc Hl. apply free_of_app; [apply free_of_ints; exact Hc |].
  constructor; [exact Hl | constructor].
Qed.

Lemma line_of_cells (zs : list Z) (last : string) :
  count_char bar_char last = 0%nat -> count_char newline_char last = 0%nat ->
  count_char bar_char (surround (map Int zs ++ [Str last]) bar) = (length zs + 2)%nat /\
  count_char newline_char (surround (map Int zs ++ [Str last]) bar) = 0%nat.
Proof.
  intros Hb Hn. split.
  - change bar with (String bar_char EmptyString).
    rewrite count_char_surround_cells.
    + rewrite length_app, length_map. cbn [length]. lia.
    + apply cells_line; [reflexivity | exact Hb].
  - apply surround_free_of; [reflexivity |].
    apply cells_line; [reflexivity | exact Hn].
Qed.

Lemma dash_line (k : nat) :
  count_char bar_char (surround (repeat (Str "---"%string) (1 + k)) bar) = (k + 2)%nat /\
  count_char newline_char (surround (repeat (Str "---"%string) (1 + k)) bar) = 0%nat.
Proof.
  assert (H : forall c, count_char c "---" = 0%nat ->
                        free_of c (repeat (Str "---"%string) (1 + k))).
  { intros c Hc. apply Forall_forall. intros x Hin.
    apply repeat_spec in Hin. subst. exact Hc. }
  split.
  - change bar with (String bar_char EmptyString).
    rewrite count_char_surround_cells by (apply H; reflexivity).
    rewrite repeat_length. lia.
  - apply surround_free_of; [reflexivity | apply H; reflexivity].
Qed.

Lemma row_line_cells (row : Row) (rp : num) :
  count_char bar_char (row_line (row, rp)) = (length row + 2)%nat /\
  count_char newline_char (row_line (row, rp)) = 0%nat.
Proof.
  unfold row_line. cbn [fst snd]. apply line_of_cells.
  - rewrite !count_char_app, count_char_str_int by reflexivity. reflexivity.
  - rewrite !count_char_app, count_char_str_int by reflexivity. reflexivity.
Qed.

Lemma pretty_of_table (order : SetOrder) (rps : list num) (cs : list Z)
    (given : option Table) (table : Table) :
  table_or_solve order (mkPuzzle rps (IntList cs)) given = Ok (Some table) ->
  length table = length rps ->
  Forall (fun row => length row = length cs) table ->
  exists s,
    pretty order (mkPuzzle rps (IntList cs)) given = inr s /\
    markdown_table (length cs) (length rps) s.
Proof.
  intros Ht Hlen Hrows. unfold pretty. rewrite Ht. cbn [col_prods row_prods].
  eexists. split; [reflexivity |].
  eexists. split; [reflexivity |]. split.
  - cbn [length]. unfold zip. rewrite length_map, length_combine. lia.
  - constructor; [| constructor].
    + destruct (line_of_cells cs EmptyString eq_refl eq_refl) as [Hb Hn].
      split; [rewrite Hb; lia | exact Hn].
    + destruct (dash_line (length cs)) as [Hb Hn].
      split; [rewrite Hb; lia | exact Hn].
    + apply Forall_forall. intros line Hin.
      apply in_map_iff in Hin as ([row rp] & <- & Hin).
      apply in_combine_l in Hin. rewrite Forall_forall in Hrows.
      destruct (row_line_cells row rp) as [Hb Hn].
      change (count_char bar_char (row_line (row, rp)) = (length cs + 2)%nat /\
              count_char newline_char (row_line (row, rp)) = 0%nat).
      split; [| exact Hn].
      transitivity (length row + 2)%nat; [exact Hb |].
      pose proof (Hrows row Hin) as E. unfold Row, Digit in *. lia.
Qed.

(** X17: when the column products are a list and [solve] finds a table,
    [pretty(puzzle)] returns a Markdown table: a header, a rule and one
    line for each row product, each line without a newline in it and with
    as many bars as the number of column products plus two. *)
Theorem pretty_of_solved_puzzle_is_markdown_table (order : SetOrder)
    (rps : list num) (cs : list Z) (table : Table) :
  solve order (mkPuzzle rps (IntList cs)) = Ok (Some table) ->
  exists s,
    pretty order (mkPuzzle rps (IntList cs)) None = inr s /\
    markdown_table (length cs) (length rps) s.
Proof.
  intros Hsolve.
  assert (Hin : In table (yielded (solutions order (mkPuzzle rps (IntList cs))))).
  { unfold solve in Hsolve. rewrite next_spec in Hsolve.
    destruct (yielded (solutions order (mkPuzzle rps (IntList cs)))) as [| t ts].
    - destruct (raised (solutions order (mkPuzzle rps (IntList cs)))); discriminate Hsolve.
    - injection Hsolve as ->. left. reflexivity. }
  apply solutions_from_shape in Hin as [Hlen Hshape].
  apply (pretty_of_table order rps cs None table); [exact Hsolve | exact Hlen |].
  eapply Forall_impl; [| exact Hshape]. simpl. intros row [H _]. exact H.
Qed.

Lemma pretty_of_solved_puzzle_is_markdown_table_witness :
  exists s,
    pretty insertion_order
           (mkPuzzle (map PyInt [210; 144; 54; 135; 4; 49]) (IntList [6615; 15552; 420]))
           None = inr s /\
    markdown_table 3 6 s.
Proof.
  apply (pretty_of_solved_puzzle_is_markdown_table insertion_order
           (map PyInt [210; 144; 54; 135; 4; 49]) [6615; 15552; 420] riddler_table).
  vm_compute. reflexivity.
Defined.

(** X18: for a puzzle whose products are all from 0 to [2 ^ 53 - 1] and
    that no table satisfies, [pretty(puzzle)] returns no string: it raises
    [TypeError], and so it does when it is given the empty table. *)
Theorem pretty_of_unsolvable_puzzle_raises (order : SetOrder) (rows : list num)
    (cps : list Z) :
  Forall (fun r => 0 <= num_val r < 2 ^ 53) rows ->
  Forall (fun c => 0 <= c < 2 ^ 53) cps ->
  (forall table, satisfies table (map num_val rows) cps = false) ->
  pretty order (mkPuzzle rows (IntList cps)) None = inl TypeError /\
  pretty order (mkPuzzle rows (IntList cps)) (Some []) = inl TypeError.
Proof.
  intros Hrows Hcps Hnone.
  destruct (solutions_from_exact order rows (IntList cps) cps Hrows
              (or_introl eq_refl) Hcps) as [Hret Hy].
  assert (Hsolve : solve order (mkPuzzle rows (IntList cps)) = Ok None).
  { unfold solve. rewrite next_spec. unfold solutions. cbn [row_prods col_prods].
    rewrite Hret.
    destruct (yielded (solutions_from order rows (IntList cps))) as [| t ts];
      [reflexivity |].
    assert (Ht : satisfies t (map num_val rows) cps = true)
      by (apply Hy; left; reflexivity).
    rewrite Hnone in Ht. discriminate Ht. }
  unfold pretty, table_or_solve. rewrite Hsolve. split; reflexivity.
Qed.

Lemma pretty_of_unsolvable_puzzle_raises_witness :
  pretty insertion_order (py_puzzle [] [2]) None = inl TypeError /\
  pretty insertion_order (py_puzzle [] [2]) (Some []) = inl TypeError.
Proof.
  apply (pretty_of_unsolvable_puzzle_raises insertion_order [] [2]).
  - apply Forall_nil.
  - apply Forall_cons; [split; [lia | reflexivity] | apply Forall_nil].
  - intros [| row table]; reflexivity.
Defined.

(** * Bike Code *)

Example test_Month_str_start : Month_str (2020 * 12 + 7) = "2020-07"%string.
Proof. reflexivity. Qed.

Example test_Ed_number : Ed_number Z Z.ltb Z.geb whole_rides = Ok 4.
Proof. reflexivity. Qed.

Example test_Ed_number_empty : Ed_number Z Z.ltb Z.geb [] = Raise ValueError.
Proof. reflexivity. Qed.

(** ** Months *)

Lemma month_split (y mo : Z) :
  1 <= mo <= 12 ->
  (12 * y + mo - 1) / 12 = y /\
  (if (12 * y + mo) mod 12 =? 0 then 12 else (12 * y + mo) mod 12) = mo.
Proof.
  intros Hmo. split.
  - symmetry. apply (Z.div_unique _ _ y (mo - 1)); lia.
  - replace (12 * y + mo) with (mo + y * 12) by ring. rewrite Z.mod_add by lia.
    destruct (Z.eq_dec mo 12) as [-> | Hne]; [reflexivity |].
    rewrite Z.mod_small by lia.
    destruct (Z.eqb_spec mo 0); [lia | reflexivity].
Qed.

(** X19: a [Month] made of a year and a month from 1 to 12, as
    [12 * year + month], prints as the year, a dash and the month in two
    digits, December included. *)
Theorem Month_str_of_year_and_month (y mo : Z) :
  1 <= mo <= 12 ->
  Month_str (12 * y + mo) =
  (str_int y ++ "-" ++ nth (Z.to_nat (mo - 1)) two_digits EmptyString)%string.
Proof.
  intros Hmo. unfold Month_str. cbv zeta.
  destruct (month_split y mo Hmo) as [-> ->].
  do 2 f_equal.
  assert (H : mo = 1 \/ mo = 2 \/ mo = 3 \/ mo = 4 \/ mo = 5 \/ mo = 6 \/
              mo = 7 \/ mo = 8 \/ mo = 9 \/ mo = 10 \/ mo = 11 \/ mo = 12) by lia.
  repeat (destruct H as [-> | H]; [reflexivity |]). subst. reflexivity.
Qed.

(** ** Eddington numbers *)

Section EddingtonFacts.

Variable D : Type.
Variable lt : D -> D -> bool.
Variable ge : D -> Z -> bool.
Variable gt : D -> Z -> bool.
Hypothesis Hord : ordered D lt ge gt.

Lemma insert_reverse_perm (x : D) (ds : list D) :
  Permutation (insert_reverse D lt x ds) (x :: ds).
Proof.
  induction ds as [| y ds IH]; simpl; [apply Permutation_refl |].
  destruct (lt x y); [| apply Permutation_refl].
  apply (perm_trans (perm_skip y IH)). apply perm_swap.
Qed.

Lemma sorted_reverse_perm (ds : list D) : Permutation (sorted_reverse D lt ds) ds.
Proof.
  induction ds as [| x ds IH]; simpl; [apply perm_nil |].
  apply (perm_trans (insert_reverse_perm x _)). apply perm_skip. exact IH.
Qed.

Lemma insert_reverse_descending (x : D) (ds : list D) :
  descending D lt ds -> descending D lt (insert_reverse D lt x ds).
Proof.
  unfold descending. induction 1 as [| y ds Hds IH Hy]; simpl.
  - constructor; constructor.
  - destruct (lt x y) eqn:E.
    + constructor; [exact IH |].
      apply Forall_forall. intros z Hz.
      apply (Permutation_in _ (insert_reverse_perm x ds)) in Hz.
      destruct Hz as [<- | Hz].
      * exact (less_asym Hord x y E).
      * rewrite Forall_forall in Hy. exact (Hy z Hz).
    + constructor; [constructor; assumption |].
      constructor; [exact E |].
      apply Forall_forall. intros z Hz. rewrite Forall_forall in Hy.
      exact (not_less_trans Hord x y z E (Hy z Hz)).
Qed.

Lemma sorted_reverse_descending (ds : list D) : descending D lt (sorted_reverse D lt ds).
Proof.
  induction ds as [| x ds IH]; simpl; [constructor |].
  apply insert_reverse_descending. exact IH.
Qed.

Lemma days_of_perm (e : Z) (ds ds' : list D) :
  Permutation ds ds' -> days_of D ge e ds = days_of D ge e ds'.
Proof.
  intros H. unfold days_of. f_equal.
  induction H as [| x l l' _ IH | x y l | l l' l'' _ IH1 _ IH2]; simpl.
  - reflexivity.
  - destruct (ge x e); simpl; lia.
  - destruct (ge x e), (ge y e); reflexivity.
  - lia.
Qed.

Lemma days_of_cons (e : Z) (d : D) (ds : list D) :
  days_of D ge e (d :: ds) = (if ge d e then 1 else 0) + days_of D ge e ds.
Proof. unfold days_of. simpl. destruct (ge d e); simpl length; lia. Qed.

Lemma days_of_bounds (e : Z) (ds : list D) :
  0 <= days_of D ge e ds <= Z.of_nat (length ds).
Proof.
  induction ds as [| d ds IH]; [unfold days_of; simpl; lia |].
  rewrite days_of_cons. simpl length. destruct (ge d e); lia.
Qed.

(** In a descending list, an element that is at least [e] has only such
    elements before it. *)
Lemma days_of_at_least (e : Z) :
  forall ds i d,
    descending D lt ds -> nth_error ds i = Some d -> ge d e = true ->
    Z.of_nat i + 1 <= days_of D ge e ds.
Proof.
  induction ds as [| a ds IH]; intros [| i] d Hs Hn Hd; simpl in Hn; try discriminate Hn.
  - injection Hn as ->. rewrite days_of_cons, Hd.
    pose proof (days_of_bounds e ds). lia.
  - inversion Hs as [| ? ? Hs' Ha]; subst.
    rewrite Forall_forall in Ha.
    rewrite days_of_cons, (not_less_ge Hord a d e (Ha d (nth_error_In _ _ Hn)) Hd).
    specialize (IH i d Hs' Hn Hd). lia.
Qed.

(** An element that is not has only such elements after it. *)
Lemma days_of_at_most (e : Z) :
  forall ds i d,
    descending D lt ds -> nth_error ds i = Some d -> ge d e = false ->
    days_of D ge e ds <= Z.of_nat i.
Proof.
  induction ds as [| a ds IH]; intros [| i] d Hs Hn Hd; simpl in Hn; try discriminate Hn.
  - injection Hn as ->. inversion Hs as [| ? ? _ Ha]; subst.
    rewrite days_of_cons, Hd.
    assert (H0 : days_of D ge e ds = 0).
    { unfold days_of.
      rewrite (filter_ext_in (fun x => ge x e) (fun _ => false)), filter_false;
        [reflexivity |].
      intros x Hx. rewrite Forall_forall in Ha.
      destruct (ge x e) eqn:E; [| reflexivity].
      rewrite (not_less_ge Hord d x e (Ha x Hx) E) in Hd. discriminate Hd. }
    lia.
  - inversion Hs as [| ? ? Hs' _]; subst.
    rewrite days_of_cons. specialize (IH i d Hs' Hn Hd).
    destruct (ge a e); lia.
Qed.

End EddingtonFacts.

Lemma enumerate_In (A : Type) :
  forall (xs : list A) (start e : Z) (x : A),
    In (e, x) (enumerate xs start) <->
    exists i, e = start + Z.of_nat i /\ nth_error xs i = Some x.
Proof.
  induction xs as [| y xs IH]; intros start e x; simpl.
  - split; [intros [] | intros ([| i] & _ & H); discriminate H].
  - split.
    + intros [H | H].
      * injection H as <- <-. exists 0%nat. split; [lia | reflexivity].
      * apply IH in H as (i & -> & Hi). exists (S i). split; [lia | exact Hi].
    + intros ([| i] & -> & Hi); simpl in Hi.
      * injection Hi as ->. left. f_equal. lia.
      * right. apply IH. exists i. split; [lia | exact Hi].
Qed.

Lemma fold_left_max (es : list Z) :
  forall a,
    (fold_left Z.max es a = a \/ In (fold_left Z.max es a) es) /\
    a <= fold_left Z.max es a /\
    forall e, In e es -> e <= fold_left Z.max es a.
Proof.
  induction es as [| x es IH]; intros a; simpl.
  - split; [left; reflexivity |]. split; [lia | intros e []].
  - destruct (IH (Z.max a x)) as (Hin & Hle & Hall). split; [| split].
    + destruct Hin as [E | Hin]; [| right; right; exact Hin].
      rewrite E. destruct (Z.max_spec a x) as [[_ ->] | [_ ->]]; [right; left |]; auto.
    + lia.
    + intros e [<- | He]; [lia | exact (Hall e He)].
Qed.

Lemma max_of_Ok (es : list Z) (m : Z) :
  max_of es = Ok m -> In m es /\ forall e, In e es -> e <= m.
Proof.
  destruct es as [| a es]; simpl; intros H; [discriminate H |].
  injection H as <-. destruct (fold_left_max es a) as (Hin & Hle & Hall).
  split.
  - destruct Hin as [-> | Hin]; [left; reflexivity | right; exact Hin].
  - intros e [<- | He]; [exact Hle | exact (Hall e He)].
Qed.

Lemma max_of_Raise (es : list Z) (err : exn) :
  max_of es = Raise err -> es = [] /\ err = ValueError.
Proof.
  destruct es as [| a es]; simpl; intros H; [| discriminate H].
  injection H as <-. split; reflexivity.
Qed.

Section EddingtonNumber.

Variable D : Type.
Variable lt : D -> D -> bool.
Variable ge : D -> Z -> bool.
Variable gt : D -> Z -> bool.
Hypothesis Hord : ordered D lt ge gt.

Lemma candidates_In (ds : list D) (e : Z) :
  In e (candidates D ge ds) <->
  exists i d, e = 1 + Z.of_nat i /\ nth_error ds i = Some d /\ ge d e = true.
Proof.
  unfold candidates. rewrite in_map_iff. split.
  - intros ([e' d] & <- & H). apply filter_In in H as [H Hge].
    apply enumerate_In in H as (i & -> & Hi). exists i, d. auto.
  - intros (i & d & -> & Hi & Hge). exists (1 + Z.of_nat i, d).
    split; [reflexivity |]. apply filter_In. split; [| exact Hge].
    apply enumerate_In. exists i. auto.
Qed.

Lemma candidate_days (ds : list D) (e : Z) :
  descending D lt ds -> In e (candidates D ge ds) ->
  1 <= e <= days_of D ge e ds.
Proof.
  intros Hs H. apply candidates_In in H as (i & d & -> & Hi & Hge).
  pose proof (days_of_at_least D lt ge gt Hord _ ds i d Hs Hi Hge). lia.
Qed.

Lemma other_days (ds : list D) (e : Z) :
  descending D lt ds -> 1 <= e -> ~ In e (candidates D ge ds) ->
  days_of D ge e ds < e.
Proof.
  intros Hs He Hnot.
  destruct (nth_error ds (Z.to_nat (e - 1))) as [d |] eqn:Hi.
  - assert (Hge : ge d e = false).
    { destruct (ge d e) eqn:E; [| reflexivity]. exfalso. apply Hnot.
      apply candidates_In. exists (Z.to_nat (e - 1)), d.
      split; [lia | split; assumption]. }
    pose proof (days_of_at_most D lt ge gt Hord _ ds _ d Hs Hi Hge). lia.
  - apply nth_error_None in Hi. pose proof (days_of_bounds D ge e ds). lia.
Qed.

Lemma Ed_number_spec (distances : list D) :
  match Ed_number D lt ge distances with
  | Ok E =>
      1 <= E <= days_of D ge E distances /\
      forall e, E < e -> days_of D ge e distances < e
  | Raise err =>
      err = ValueError /\
      forall e, 1 <= e -> days_of D ge e distances < e
  end.
Proof.
  pose proof (sorted_reverse_descending D lt ge gt Hord distances) as Hs.
  pose proof (sorted_reverse_perm D lt distances) as Hp.
  unfold Ed_number. cbv zeta. fold (candidates D ge (sorted_reverse D lt distances)).
  destruct (max_of (candidates D ge (sorted_reverse D lt distances))) as [E | err] eqn:Hmax.
  - apply max_of_Ok in Hmax as [Hin Hall]. split.
    + rewrite <- (days_of_perm D ge E _ _ Hp). apply candidate_days; assumption.
    + intros e He. rewrite <- (days_of_perm D ge e _ _ Hp).
      apply other_days; [exact Hs | | ].
      * pose proof (candidate_days _ _ Hs Hin). lia.
      * intros H. specialize (Hall e H). lia.
  - apply max_of_Raise in Hmax as [Hnil ->]. split; [reflexivity |].
    intros e He. rewrite <- (days_of_perm D ge e _ _ Hp).
    apply other_days; [exact Hs | exact He |]. rewrite Hnil. intros [].
Qed.

Lemma Ed_gap_days (distances : list D) (target : Z) :
  Ed_gap D gt distances target <= 0 -> target <= days_of D ge target distances.
Proof.
  unfold Ed_gap, days_of. intros H.
  assert (Hle : (length (filter (fun d => gt d target) distances) <=
                 length (filter (fun d => ge d target) distances))%nat).
  { clear H. induction distances as [| d ds IH]; simpl; [lia |].
    destruct (gt d target) eqn:E.
    - rewrite (above_ge Hord d target E). simpl. lia.
    - destruct (ge d target); simpl; lia. }
  lia.
Qed.

End EddingtonNumber.

(** X20: when the distances are ordered without incomparable ones,
    [Ed_number] returns the largest [E] such that on at least [E] days the
    distance was at least [E]; when there is no such number from 1 on (no
    distance, or none as long as 1), it raises [ValueError]. *)
Theorem Ed_number_is_the_Eddington_number (D : Type) (lt : D -> D -> bool)
    (ge gt : D -> Z -> bool) (distances : list D) :
  ordered D lt ge gt ->
  match Ed_number D lt ge distances with
  | Ok E =>
      1 <= E <= days_of D ge E distances /\
      forall e, E < e -> days_of D ge e distances < e
  | Raise err =>
      err = ValueError /\
      forall e, 1 <= e -> days_of D ge e distances < e
  end.
Proof. intros Hord. exact (Ed_number_spec D lt ge gt Hord distances). Qed.

(** X21: when [Ed_gap] says that no ride is missing for a target of at
    least 1, [Ed_number] returns a number that is at least the target. *)
Theorem Ed_gap_closed_gives_Ed_number (D : Type) (lt : D -> D -> bool)
    (ge gt : D -> Z -> bool) (distances : list D) (target : Z) :
  ordered D lt ge gt -> 1 <= target ->
  Ed_gap D gt distances target <= 0 ->
  exists E, Ed_number D lt ge distances = Ok E /\ target <= E.
Proof.
  intros Hord Ht Hgap.
  pose proof (Ed_gap_days D lt ge gt Hord distances target Hgap) as Hdays.
  pose proof (Ed_number_spec D lt ge gt Hord distances) as Hspec.
  destruct (Ed_number D lt ge distances) as [E | err].
  - exists E. split; [reflexivity |]. destruct Hspec as [_ Hmax].
    destruct (Z.le_gt_cases target E) as [H | H]; [exact H |].
    specialize (Hmax target H). lia.
  - destruct Hspec as [_ Hnone]. specialize (Hnone target Ht). lia.
Qed.

Lemma whole_numbers_ordered : ordered Z Z.ltb Z.geb Z.gtb.
Proof.
  split.
  - intros x y H. apply Z.ltb_lt in H. apply Z.ltb_ge. lia.
  - intros x y z H1 H2. apply Z.ltb_ge in H1, H2. apply Z.ltb_ge. lia.
  - intros x y e H1 H2. apply Z.ltb_ge in H1. apply Z.geb_le in H2.
    apply Z.geb_le. lia.
  - intros x e H. apply Z.gtb_lt in H. apply Z.geb_le. lia.
Qed.

Lemma Ed_number_is_the_Eddington_number_witness :
  match Ed_number Z Z.ltb Z.geb whole_rides with
  | Ok E =>
      1 <= E <= days_of Z Z.geb E whole_rides /\
      forall e, E < e -> days_of Z Z.geb e whole_rides < e
  | Raise err =>
      err = ValueError /\
      forall e, 1 <= e -> days_of Z Z.geb e whole_rides < e
  end.
Proof.
  apply (Ed_number_is_the_Eddington_number Z Z.ltb Z.geb Z.gtb whole_rides).
  exact whole_numbers_ordered.
Defined.

Lemma Ed_gap_closed_gives_Ed_number_witness :
  exists E, Ed_number Z Z.ltb Z.geb whole_rides = Ok E /\ 3 <= E.
Proof.
  apply (Ed_gap_closed_gives_Ed_number Z Z.ltb Z.geb Z.gtb whole_rides 3).
  - exact whole_numbers_ordered.
  - lia.
  - vm_compute. discriminate.
Defined.

Lemma Month_str_of_year_and_month_witness :
  Month_str (12 * 2020 + 12) =
  (str_int 2020 ++ "-" ++ nth (Z.to_nat (12 - 1)) two_digits EmptyString)%string.
Proof. apply (Month_str_of_year_and_month 2020 12). lia. Defined.

(** * More on rows and columns below [2 ^ 53] *)

Lemma product_of_perm (xs ys : list Z) :
  Permutation xs ys -> product_of xs = product_of ys.
Proof.
  induction 1 as [| x l l' _ IH | x y l | l l' l'' _ IH1 _ IH2]; simpl.
  - reflexivity.
  - fold (product_of l) (product_of l'). rewrite IH. reflexivity.
  - fold (product_of l). ring.
  - congruence.
Qed.

(** X22: for a product from 0 to [2 ^ 53 - 1], the set [fill_row] returns
    holds, with a row, every rearrangement of its digits. *)
Theorem fill_row_closed_under_permutation (k : nat) (product : num)
    (rows : list Row) (row row' : Row) :
  0 <= num_val product < 2 ^ 53 ->
  fill_row product k = Ok rows ->
  In row rows -> Permutation row row' -> In row' rows.
Proof.
  intros Hp Hfill Hin Hperm.
  destruct (fill_row_exact k product Hp) as (rows' & Hfill' & Hspec).
  rewrite Hfill in Hfill'. injection Hfill' as <-.
  apply Hspec in Hin as (Hlen & Hdig & Hprod). apply Hspec.
  split; [| split].
  - rewrite <- Hlen. symmetry. apply Permutation_length. exact Hperm.
  - apply (Permutation_Forall Hperm). exact Hdig.
  - rewrite <- Hprod. symmetry. apply product_of_perm. exact Hperm.
Qed.

Lemma fill_row_closed_under_permutation_witness :
  In [5; 7; 6] [[5; 6; 7]; [5; 7; 6]; [6; 5; 7]; [6; 7; 5]; [7; 5; 6]; [7; 6; 5]].
Proof.
  apply (fill_row_closed_under_permutation 3 (PyInt 210) _ [7; 6; 5] [5; 7; 6]).
  - split; [vm_compute; discriminate | vm_compute; reflexivity].
  - vm_compute. reflexivity.
  - vm_compute. tauto.
  - apply perm_trans with [7; 5; 6]; [apply perm_skip, perm_swap | apply perm_swap].
Defined.

(** X23: for column products from 0 to [2 ^ 53 - 1] and a row of as many
    digits, [numpy.divide] raises nothing, the test
    [all(c == int(c) for c in col_prods)] of [solutions] on its result is
    true exactly when each digit divides its column product, and the
    array then holds the exact quotients. *)
Theorem column_test_exact_below_2_53 (ns : list Z) (row : Row) :
  small ns -> Forall (fun d => 1 <= d <= 9) row -> length row = length ns ->
  exists cols,
    divide (IntList ns) row = Ok cols /\
    all_integral cols = Ok (divisible ns row) /\
    (divisible ns row = true ->
     cols = FloatArray (map Float64.of_int (quotients ns row))).
Proof.
  intros Hsmall Hdig Hlen.
  rewrite (divide_holds (IntList ns) ns row (or_introl eq_refl) Hsmall).
  eexists. split; [reflexivity |].
  pose proof (float_quotients ns row Hsmall Hdig Hlen) as Hq.
  destruct (divisible ns row).
  - destruct Hq as [-> Hs]. split; [| reflexivity].
    simpl. apply all_eq_int_small. exact Hs.
  - destruct Hq as [Hstale Hfrac]. split; [| intros H; discriminate H].
    simpl. apply all_eq_int_dead; assumption.
Qed.

Lemma column_test_exact_below_2_53_witness :
  exists cols,
    divide (IntList [6615; 15552; 420]) [7; 6; 5] = Ok cols /\
    all_integral cols = Ok (divisible [6615; 15552; 420] [7; 6; 5]) /\
    (divisible [6615; 15552; 420] [7; 6; 5] = true ->
     cols = FloatArray (map Float64.of_int (quotients [6615; 15552; 420] [7; 6; 5]))).
Proof.
  apply (column_test_exact_below_2_53 [6615; 15552; 420] [7; 6; 5]).
  - repeat (apply Forall_cons;
            [split; [vm_compute; discriminate | vm_compute; reflexivity] |]).
    apply Forall_nil.
  - repeat (apply Forall_cons; [lia |]). apply Forall_nil.
  - reflexivity.
Defined.

(** ** Rows for columns *)

Lemma list_as_nths (A : Type) (xs : list A) (a : A) :
  map (fun i => nth i xs a) (seq 0 (length xs)) = xs.
Proof.
  induction xs as [| x xs IH]; [reflexivity |].
  simpl. f_equal. rewrite <- seq_shift, map_map. exact IH.
Qed.

Lemma transpose_row (table : Table) (r : nat) :
  rectangular table -> (r < length table)%nat ->
  map (fun col => nth r col 0) (transpose table) = nth r table [].
Proof.
  intros Hrect Hr. destruct table as [| row table]; [simpl in Hr; lia |].
  unfold transpose. rewrite map_map.
  assert (Hlen : length (nth r (row :: table) []) = length row).
  { unfold rectangular in Hrect. rewrite Forall_forall in Hrect.
    apply (Hrect (nth r (row :: table) [])). apply nth_In. exact Hr. }
  transitivity (map (fun i => nth i (nth r (row :: table) []) 0)
                    (seq 0 (length (nth r (row :: table) []))));
    [| apply list_as_nths].
  unfold Row, Digit in *. rewrite Hlen.
  apply map_ext. intros c.
  apply (nth_map_lt _ _ (fun row' : list Z => nth c row' 0) (row :: table) r 0 []).
  exact Hr.
Qed.

Lemma combine_In_nth (A B : Type) (xs : list A) (ys : list B) (x : A) (y : B)
    (a : A) (b : B) :
  In (x, y) (combine xs ys) ->
  exists i, (i < length xs)%nat /\ (i < length ys)%nat /\
            nth i xs a = x /\ nth i ys b = y.
Proof.
  revert ys. induction xs as [| x' xs IH]; intros [| y' ys] H; simpl in H;
    try (destruct H; fail).
  destruct H as [H | H].
  - injection H as -> ->. exists 0%nat. simpl.
    split; [lia |]. split; [lia |]. split; reflexivity.
  - destruct (IH ys H) as (i & Hx & Hy & Ex & Ey). exists (S i). simpl.
    split; [lia |]. split; [lia |]. split; assumption.
Qed.

Lemma nth_combine_In (A B : Type) (xs : list A) (ys : list B) (i : nat) (a : A) (b : B) :
  (i < length xs)%nat -> (i < length ys)%nat ->
  In (nth i xs a, nth i ys b) (combine xs ys).
Proof.
  revert ys i. induction xs as [| x xs IH]; intros [| y ys] [| i] Hx Hy;
    simpl in *; try lia.
  - left. reflexivity.
  - right. apply IH; lia.
Qed.

Lemma satisfies_transpose (table : Table) (rps cps : list Z) :
  rps <> [] ->
  satisfies table rps cps = true ->
  satisfies (transpose table) cps rps = true.
Proof.
  intros Hne Hsat. apply satisfies_spec in Hsat as (Hlen & Hshape & Hrow & Hcol).
  assert (Hrect : rectangular table).
  { unfold rectangular. apply Forall_forall. intros row Hin.
    rewrite Forall_forall in Hshape. destruct (Hshape row Hin) as [Hl _].
    destruct table as [| row1 table]; [destruct Hin |].
    destruct (Hshape row1 (or_introl eq_refl)) as [Hl1 _]. simpl.
    unfold Row, Digit in *. lia. }
  assert (Hdig : digits_only table).
  { unfold digits_only. eapply Forall_impl; [| exact Hshape].
    simpl. intros row [_ H]. exact H. }
  assert (Hcols : length (transpose table) = length cps).
  { rewrite transpose_length.
    destruct table as [| row1 table].
    - destruct rps; [destruct (Hne eq_refl) | discriminate Hlen].
    - inversion Hshape as [| ? ? [Hl _] _]; subst. exact Hl. }
  apply satisfies_spec. split; [exact Hcols |]. split; [| split].
  - pose proof (transpose_digits table Hrect Hdig) as Hcdig.
    apply Forall_forall. intros col Hin. split.
    + rewrite (transpose_column_length table col Hin). exact Hlen.
    + rewrite Forall_forall in Hcdig. exact (Hcdig col Hin).
  - intros col c Hin.
    apply (combine_In_nth _ _ _ _ _ _ [] 0) in Hin as (i & Hi & Hi' & <- & <-).
    rewrite transpose_nth by (rewrite <- transpose_length; exact Hi).
    apply Hcol. exact Hi'.
  - intros r Hr. rewrite transpose_row by (try exact Hrect; lia).
    apply Hrow. apply nth_combine_In; lia.
Qed.

(** X24: for products from 0 to [2 ^ 53 - 1] and at least one row
    product, the columns of a table that [solutions] yields make a table
    that [solutions] yields for the puzzle with row and column products
    exchanged. *)
Theorem solutions_of_transposed_puzzle (o1 o2 : SetOrder) (rps cps : list Z)
    (table : Table) :
  small rps -> small cps -> rps <> [] ->
  In table (yielded (solutions o1 (py_puzzle rps cps))) ->
  In (transpose table) (yielded (solutions o2 (py_puzzle cps rps))).
Proof.
  intros Hrps Hcps Hne Hin.
  assert (Hnum : forall ns, small ns ->
                   Forall (fun r => 0 <= num_val r < 2 ^ 53) (map PyInt ns) /\
                   map num_val (map PyInt ns) = ns).
  { intros ns Hns. split.
    - apply Forall_forall. intros r Hr. apply in_map_iff in Hr as (n & <- & Hn).
      unfold small in Hns. rewrite Forall_forall in Hns. exact (Hns n Hn).
    - rewrite map_map. simpl. apply map_id. }
  destruct (Hnum rps Hrps) as [Hr1 Hv1]. destruct (Hnum cps Hcps) as [Hr2 Hv2].
  unfold solutions, py_puzzle in *. cbn [row_prods col_prods] in *.
  apply (solutions_from_exact o1 _ (IntList cps) cps Hr1 (or_introl eq_refl) Hcps) in Hin.
  apply (solutions_from_exact o2 _ (IntList rps) rps Hr2 (or_introl eq_refl) Hrps).
  rewrite Hv1 in Hin. rewrite Hv2. apply satisfies_transpose; assumption.
Qed.

Lemma solutions_of_transposed_puzzle_witness :
  In (transpose riddler_table)
     (yielded (solutions reverse_order
                 (py_puzzle [6615; 15552; 420] [210; 144; 54; 135; 4; 49]))).
Proof.
  apply (solutions_of_transposed_puzzle insertion_order reverse_order
           [210; 144; 54; 135; 4; 49] [6615; 15552; 420] riddler_table).
  - small_products.
  - small_products.
  - discriminate.
  - vm_compute. left. reflexivity.
Defined.
